(** * Weavy workflow engine: a shallow embedding and its verified properties

    The development follows the TypeScript sources of the repository:
    - [src/lib/dag.ts]         DAG validation, wave scheduling, the graph
                               queries and the topological order,
    - [src/lib/execution.ts]   the execution engine and the node executors,
    - the [extract-frame] task with its own downloader and probing wrapper,
    - [cropImageClient]        the client-side crop,
    - [src/app/api/runs/route.ts]  the planning of a run in [POST],
    - [src/lib/types.ts]       the node types and which of them connect,
    - [src/lib/store.ts]       the editing actions of the editor's store.

    JavaScript numbers are modelled by exact rationals ([Q]) extended with
    NaN and the two infinities; rounding of IEEE doubles is not modelled.
    JavaScript strings are modelled by [string] (sequences of 8-bit
    characters). *)

From Stdlib Require Import ZArith QArith Qround Lia Ascii String List Bool DecimalString.
From stdpp Require Import gmap strings list.

Local Open Scope Z_scope.

(* ===================================================================== *)
(** * JavaScript values, numbers and the string primitives the code uses  *)
(* ===================================================================== *)

Module JS.

(** A JavaScript number: NaN, the infinities, or a finite value. *)
Inductive num : Type :=
| NaN
| PInf
| NInf
| Fin (q : Q).

(** The values found in [node.data] and in the per-run output map. *)
Inductive value : Type :=
| VUndefined
| VNull
| VBool (b : bool)
| VNum (n : num)
| VStr (s : string).

(** ToBoolean, as used by [||], [!x] and [if (x)]. *)
Definition truthy (v : value) : bool :=
  match v with
  | VUndefined | VNull => false
  | VBool b => b
  | VNum NaN => false
  | VNum (Fin q) => negb (Qeq_bool q 0)
  | VNum _ => true
  | VStr s => negb (String.eqb s "")
  end.

(** [a || b] *)
Definition or_else (a b : value) : value := if truthy a then a else b.

(** [Math.round]: the nearest integer, ties towards +infinity. *)
Definition round (q : Q) : Z := Qfloor (q + (1 # 2)).

(** Errors are JavaScript [Error] objects; only the message is kept. *)
Inductive result (A : Type) : Type :=
| Ok (a : A)
| Throw (message : string).
Arguments Ok {A} a.
Arguments Throw {A} message.

(** ** Strings *)

Local Open Scope string_scope.

(** [s.startsWith(p)] *)
Definition startsWith (p s : string) : bool := String.prefix p s.

(** [s.includes(p)] *)
Fixpoint includes (p s : string) : bool :=
  if String.prefix p s then true
  else match s with
       | EmptyString => false
       | String _ s' => includes p s'
       end.

(** [s.endsWith(p)] *)
Fixpoint endsWith (p s : string) : bool :=
  if String.eqb s p then true
  else match s with
       | EmptyString => false
       | String _ s' => endsWith p s'
       end.

Fixpoint drop (n : nat) (s : string) : string :=
  match n, s with
  | O, _ => s
  | S _, EmptyString => EmptyString
  | S n', String _ s' => drop n' s'
  end.

(** [s.replace(p, r)] with a string pattern: only the first occurrence of
    [p] is replaced. *)
Fixpoint replace_first (p r s : string) : string :=
  if String.prefix p s then r ++ drop (String.length p) s
  else match s with
       | EmptyString => EmptyString
       | String c s' => String c (replace_first p r s')
       end.

Definition code (c : ascii) : nat := nat_of_ascii c.

Definition is_digit (c : ascii) : bool := (48 <=? code c)%nat && (code c <=? 57)%nat.

Definition digit_value (c : ascii) : Z := Z.of_nat (code c) - 48.

Definition is_alnum (c : ascii) : bool :=
  is_digit c
  || ((65 <=? code c)%nat && (code c <=? 90)%nat)
  || ((97 <=? code c)%nat && (code c <=? 122)%nat).

(** White space and line terminators among the 8-bit characters
    (tab, LF, VT, FF, CR, space): what [\s], [trim] and the number parsers
    skip. *)
Definition is_space (c : ascii) : bool :=
  ((9 <=? code c)%nat && (code c <=? 13)%nat) || (code c =? 32)%nat.

(** The characters the regular-expression dot does not match. *)
Definition is_line_terminator (c : ascii) : bool :=
  (code c =? 10)%nat || (code c =? 13)%nat.

Fixpoint trim_start (s : string) : string :=
  match s with
  | String c s' => if is_space c then trim_start s' else s
  | EmptyString => s
  end.

(** The longest run of decimal digits at the head of [s], and the rest. *)
Fixpoint span_digits (s : string) : list Z * string :=
  match s with
  | String c s' =>
      if is_digit c then let '(ds, r) := span_digits s' in (digit_value c :: ds, r)
      else ([], s)
  | EmptyString => ([], s)
  end.

Definition digits_value (ds : list Z) : Z := fold_left (fun acc d => 10 * acc + d) ds 0.

(** The optional exponent part [e[+-]digits] of a decimal literal; it is
    only consumed when at least one digit follows. *)
Definition exponent_part (s : string) : Z :=
  match s with
  | String c r =>
      if (code c =? 101)%nat || (code c =? 69)%nat then
        let '(neg, r) := match r with
                         | String "+" r' => (false, r')
                         | String "-" r' => (true, r')
                         | _ => (false, r)
                         end in
        match span_digits r with
        | ([], _) => 0
        | (ds, _) => if neg then - digits_value ds else digits_value ds
        end
      else 0
  | EmptyString => 0
  end.

(** [parseFloat]: skip leading white space, then read the longest prefix
    that is a decimal literal ([Infinity], digits with an optional fraction
    and exponent, with an optional sign); NaN when there is none. *)
Definition parseFloat (s : string) : num :=
  let s := trim_start s in
  let '(neg, s) := match s with
                   | String "+" r => (false, r)
                   | String "-" r => (true, r)
                   | _ => (false, s)
                   end in
  if String.prefix "Infinity" s then (if neg then NInf else PInf)
  else
    let '(ip, r1) := span_digits s in
    let '(fp, r2) := match r1 with
                     | String "." r => span_digits r
                     | _ => ([], r1)
                     end in
    match (ip ++ fp)%list with
    | [] => NaN
    | ds =>
        let e := exponent_part r2 - Z.of_nat (List.length fp) in
        let m := (inject_Z (digits_value ds) * Qpower 10 e)%Q in
        Fin (if neg then (- m)%Q else m)
    end.

Definition hex_value (c : ascii) : option Z :=
  if is_digit c then Some (digit_value c)
  else if (97 <=? code c)%nat && (code c <=? 102)%nat then Some (Z.of_nat (code c) - 87)
  else if (65 <=? code c)%nat && (code c <=? 70)%nat then Some (Z.of_nat (code c) - 55)
  else None.

Fixpoint span_hex (s : string) : list Z :=
  match s with
  | String c s' => match hex_value c with Some d => d :: span_hex s' | None => [] end
  | EmptyString => []
  end.

(** [parseInt(s)] without a radix: decimal, or hexadecimal after [0x]. *)
Definition parseInt (s : string) : option Z :=
  let s := trim_start s in
  let '(neg, s) := match s with
                   | String "+" r => (false, r)
                   | String "-" r => (true, r)
                   | _ => (false, s)
                   end in
  let magnitude :=
    if String.prefix "0x" s || String.prefix "0X" s then
      match span_hex (drop 2 s) with
      | [] => None
      | ds => Some (fold_left (fun acc d => 16 * acc + d) ds 0)
      end
    else
      match span_digits s with
      | ([], _) => None
      | (ds, _) => Some (digits_value ds)
      end in
  match magnitude with
  | Some m => Some (if neg then - m else m)
  | None => None
  end.

(** ** Promises: the first call of [resolve] or [reject] settles, later
    calls are ignored. *)
Inductive promise (A : Type) : Type :=
| Pending
| Resolved (a : A)
| Rejected (message : string).
Arguments Pending {A}.
Arguments Resolved {A} a.
Arguments Rejected {A} message.

Definition resolve {A} (a : A) (p : promise A) : promise A :=
  match p with Pending => Resolved a | _ => p end.

Definition reject {A} (message : string) (p : promise A) : promise A :=
  match p with Pending => Rejected message | _ => p end.

End JS.

(* ===================================================================== *)
(** * DAG validation and wave scheduling (src/lib/dag.ts)                 *)
(* ===================================================================== *)

Module Dag.

Record DAGNode : Type := { id : string }.

Record DAGEdge : Type := { source : string; target : string }.

(** ** Insertion-ordered sets
    A JavaScript [Set] that is iterated is a duplicate-free list in
    insertion order. *)
Definition has (s : list string) (x : string) : bool := bool_decide (x ∈ s).

Definition add (s : list string) (x : string) : list string :=
  if has s x then s else s ++ [x].

(** [new Set(array)] *)
Definition set_of (l : list string) : list string := fold_left add l [].

(** [s.delete(x)] *)
Definition remove (x : string) (s : list string) : list string :=
  List.filter (fun y => negb (String.eqb y x)) s.

(** [nodeIds.forEach(id => m.set(id, v))] *)
Definition init_map {V} (v : V) (nodeIds : list string) (m : gmap string V) : gmap string V :=
  fold_left (fun m i => <[i := v]> m) nodeIds m.

(** ** validateDAG *)

Inductive validation : Type :=
| Valid
| Invalid (error : string).

(** The loop over the edges (lines 21-26): [None] when an edge names an
    id that is not a node. *)
Fixpoint adjacency_checked (nodeIds : list string) (edges : list DAGEdge)
         (adjacencyList : gmap string (list string)) : option (gmap string (list string)) :=
  match edges with
  | [] => Some adjacencyList
  | edge :: rest =>
      if negb (has nodeIds (source edge)) || negb (has nodeIds (target edge)) then None
      else adjacency_checked nodeIds rest
             (alter (fun targets => targets ++ [target edge]) (source edge) adjacencyList)
  end.

(** The two sets the search mutates: [visited] and [recursionStack]. *)
Definition marks : Type := (gset string * gset string)%type.

(** The [for (const neighbor of neighbors)] loop of [hasCycle]; [recur] is
    the recursive call. *)
Fixpoint neighbors_loop (recur : string -> marks -> option (bool * marks))
         (neighbors : list string) (m : marks) : option (bool * marks) :=
  match neighbors with
  | [] => Some (false, m)
  | neighbor :: rest =>
      if negb (bool_decide (neighbor ∈ m.1)) then
        match recur neighbor m with
        | Some (true, m') => Some (true, m')
        | Some (false, m') => neighbors_loop recur rest m'
        | None => None
        end
      else if bool_decide (neighbor ∈ m.2) then Some (true, m)
      else neighbors_loop recur rest m
  end.

(** [hasCycle] (lines 32-47). The recursion depth is bounded by [fuel];
    [None] means the bound was too small. *)
Fixpoint hasCycle (fuel : nat) (adjacencyList : gmap string (list string))
         (nodeId : string) (m : marks) : option (bool * marks) :=
  match fuel with
  | O => None
  | S fuel' =>
      let m := ({[nodeId]} ∪ m.1, {[nodeId]} ∪ m.2) in
      let neighbors := default [] (adjacencyList !! nodeId) in
      match neighbors_loop (hasCycle fuel' adjacencyList) neighbors m with
      | Some (true, m') => Some (true, m')
      | Some (false, m') => Some (false, (m'.1, m'.2 ∖ {[nodeId]}))
      | None => None
      end
  end.

(** The loop over [nodeIds] (lines 49-55). *)
Fixpoint search_all (fuel : nat) (adjacencyList : gmap string (list string))
         (nodeIds : list string) (m : marks) : option bool :=
  match nodeIds with
  | [] => Some false
  | nodeId :: rest =>
      if negb (bool_decide (nodeId ∈ m.1)) then
        match hasCycle fuel adjacencyList nodeId m with
        | Some (true, _) => Some true
        | Some (false, m') => search_all fuel adjacencyList rest m'
        | None => None
        end
      else search_all fuel adjacencyList rest m
  end.

(** [validateDAG] (lines 14-58). The search cannot nest deeper than the
    number of nodes, which is the fuel it is given. *)
Definition validateDAG (nodes : list DAGNode) (edges : list DAGEdge) : option validation :=
  let nodeIds := set_of (map id nodes) in
  let adjacencyList := init_map [] nodeIds ∅ in
  match adjacency_checked nodeIds edges adjacencyList with
  | None => Some (Invalid "Edge references non-existent node"%string)
  | Some adjacencyList =>
      match search_all (List.length nodeIds) adjacencyList nodeIds (∅, ∅) with
      | Some true => Some (Invalid "Workflow contains a cycle"%string)
      | Some false => Some Valid
      | None => None
      end
  end.

(** ** getParallelGroups *)

(** The graph built by lines 117-123: edges with an endpoint outside the
    node set are skipped. *)
Definition graph : Type := (gmap string (list string) * gmap string Z)%type.

Definition add_edge (nodeIds : list string) (g : graph) (edge : DAGEdge) : graph :=
  if has nodeIds (source edge) && has nodeIds (target edge) then
    (alter (fun targets => targets ++ [target edge]) (source edge) g.1,
     <[target edge := default 0%Z (g.2 !! target edge) + 1]> g.2)
  else g.

Definition build_graph (nodeIds : list string) (edges : list DAGEdge) : graph :=
  fold_left (add_edge nodeIds) edges (init_map [] nodeIds ∅, init_map 0%Z nodeIds ∅).

(** Lines 132-136: the remaining nodes whose in-degree is exactly 0. *)
Definition zero_in_degree (inDegree : gmap string Z) (remaining : list string) : list string :=
  List.filter (fun nodeId => bool_decide (inDegree !! nodeId = Some 0%Z)) remaining.

(** Lines 148-152: one pass over the successors of a removed node. A
    successor always is a node id and so has an in-degree to decrement. *)
Definition decrement (remaining : list string) (inDegree : gmap string Z) (neighbor : string)
  : gmap string Z :=
  if has remaining neighbor then alter (fun d => d - 1)%Z neighbor inDegree else inDegree.

(** Lines 146-153 for one node of the current group. *)
Definition release (adjacencyList : gmap string (list string))
           (s : list string * gmap string Z) (nodeId : string) : list string * gmap string Z :=
  let remaining := remove nodeId s.1 in
  (remaining, fold_left (decrement remaining) (default [] (adjacencyList !! nodeId)) s.2).

(** The [while (remaining.size > 0)] loop. Every iteration that does not
    break removes a node, so [fuel] bounds the number of iterations;
    [None] means the bound was too small. *)
Fixpoint waves (fuel : nat) (adjacencyList : gmap string (list string))
         (remaining : list string) (inDegree : gmap string Z) (groups : list (list string))
  : option (list (list string)) :=
  match remaining with
  | [] => Some groups
  | _ :: _ =>
      match fuel with
      | O => None
      | S fuel' =>
          match zero_in_degree inDegree remaining with
          | [] => Some groups
          | currentGroup =>
              let s := fold_left (release adjacencyList) currentGroup (remaining, inDegree) in
              waves fuel' adjacencyList s.1 s.2 (groups ++ [currentGroup])
          end
      end
  end.

(** [getParallelGroups] (lines 106-157). *)
Definition getParallelGroups (nodes : list DAGNode) (edges : list DAGEdge)
  : option (list (list string)) :=
  let nodeIds := set_of (map id nodes) in
  let g := build_graph nodeIds edges in
  waves (List.length nodeIds) g.1 nodeIds g.2 [].

(** ** What the built graph holds *)

(** An edge both of whose endpoints are node ids. *)
Definition valid_edge (nodeIds : list string) (edge : DAGEdge) : bool :=
  has nodeIds (source edge) && has nodeIds (target edge).

(** The targets of the valid edges that leave [u], in edge order. *)
Definition successors (nodeIds : list string) (edges : list DAGEdge) (u : string) : list string :=
  map target (List.filter (fun e => valid_edge nodeIds e && String.eqb (source e) u) edges).

(** The number of valid edges into [v] whose source is in [from]. *)
Definition in_degree_from (nodeIds from : list string) (edges : list DAGEdge) (v : string) : nat :=
  List.length (List.filter (fun e => valid_edge nodeIds e && String.eqb (target e) v
                                     && has from (source e)) edges).

(** ** The graph the claims speak about *)

(** The edge relation over the node set. *)
Definition edge_rel (nodes : list DAGNode) (edges : list DAGEdge) (u v : string) : Prop :=
  u ∈ map id nodes /\ v ∈ map id nodes /\ {| source := u; target := v |} ∈ edges.

Definition acyclic (nodes : list DAGNode) (edges : list DAGEdge) : Prop :=
  forall v, ~ tc (edge_rel nodes edges) v v.

Definition dangling (nodes : list DAGNode) (edge : DAGEdge) : Prop :=
  source edge ∉ map id nodes \/ target edge ∉ map id nodes.

(** The index of the group that holds a node. *)
Definition in_wave (groups : list (list string)) (i : nat) (x : string) : Prop :=
  exists g, groups !! i = Some g /\ x ∈ g.

(** ** Vocabulary of the scheduler's correctness argument *)

Section SchedulerVocabulary.
Variable ids : list string.
Variable edges : list DAGEdge.

(** A valid edge from [u] to [v]. *)
Definition arrow (u v : string) : Prop :=
  exists e, e ∈ edges /\ valid_edge ids e = true /\ source e = u /\ target e = v.

Definition occurrences (v : string) (ns : list string) : nat :=
  List.length (List.filter (String.eqb v) ns).

Definition edges_between (es : list DAGEdge) (u v : string) : nat :=
  List.length (List.filter (fun e => valid_edge ids e && String.eqb (target e) v
                                     && String.eqb (source e) u) es).

(** The state of the loop: the remaining nodes are distinct node ids, and
    each one's in-degree counts the valid edges that reach it from a
    remaining node. *)
Definition wave_inv (R : list string) (d : gmap string Z) : Prop :=
  NoDup R /\ (forall x, x ∈ R -> x ∈ ids) /\
  forall v, v ∈ R -> d !! v = Some (Z.of_nat (in_degree_from ids R edges v)).

(** What one run of the loop appends, relative to the nodes [R] that
    remain when it starts: the new groups are disjoint and inside [R];
    every predecessor in [R] of a scheduled node sits in a strictly earlier
    new group; without cycles all of [R] is scheduled. *)
Definition wave_post (R : list string) (new : list (list string)) : Prop :=
  NoDup (concat new) /\
  (forall x, x ∈ concat new -> x ∈ R) /\
  (forall i v, in_wave new i v ->
     forall u, u ∈ R -> arrow u v -> exists j, (j < i)%nat /\ in_wave new j u) /\
  ((forall v, ~ tc arrow v v) -> forall x, x ∈ R -> x ∈ concat new).

End SchedulerVocabulary.

(** ** Vocabulary of the search's correctness argument *)

Section SearchVocabulary.
Variable adjacencyList : gmap string (list string).
Variable universe : gset string.

(** [w] is a neighbor of [u] in the adjacency list. *)
Definition next (u w : string) : Prop := w ∈ default [] (adjacencyList !! u).

(** Finished nodes (visited and off the stack) only lead to finished
    nodes. *)
Definition closed (m : marks) : Prop :=
  forall u w, u ∈ m.1 -> u ∉ m.2 -> next u w -> w ∈ m.1 /\ w ∉ m.2.

(** No finished node lies on a cycle. *)
Definition finished_acyclic (m : marks) : Prop :=
  forall u, u ∈ m.1 -> u ∉ m.2 -> ~ tc next u u.

Definition good (m : marks) : Prop :=
  m.2 ⊆ m.1 /\ m.1 ⊆ universe /\ closed m /\ finished_acyclic m.

(** While [n] is being explored: it is on the stack, and every node on the
    stack reaches it. *)
Definition exploring (n : string) (m : marks) : Prop :=
  good m /\ n ∈ m.2 /\ forall s, s ∈ m.2 -> rtc next s n.

(** The contract of one call of [hasCycle] with enough fuel. *)
Definition hasCycle_contract (fuel : nat) : Prop :=
  forall (n : string) (m : marks),
    good m -> n ∈ universe -> n ∉ m.1 -> (forall s, s ∈ m.2 -> rtc next s n) ->
    (size (universe ∖ m.1) <= fuel)%nat ->
    exists b m',
      hasCycle fuel adjacencyList n m = Some (b, m') /\
      (b = true -> exists v, tc next v v) /\
      (b = false -> good m' /\ m'.2 = m.2 /\ m.1 ⊆ m'.1 /\ n ∈ m'.1).

End SearchVocabulary.

(** A self-loop on the only node, and an edge to a node that does not
    exist. *)
Definition loop_and_dangling_nodes : list DAGNode := [ {| id := "A" |} ]%string.

Definition loop_and_dangling_edges : list DAGEdge :=
  [ {| source := "A"; target := "A" |}; {| source := "A"; target := "Z" |} ]%string.

(** A two-node cycle. *)
Definition two_cycle_nodes : list DAGNode := [ {| id := "A" |}; {| id := "B" |} ]%string.

Definition two_cycle_edges : list DAGEdge :=
  [ {| source := "A"; target := "B" |}; {| source := "B"; target := "A" |} ]%string.

(** The diamond A -> B, A -> C, B -> D, C -> D. *)
Definition diamond_nodes : list DAGNode :=
  [ {| id := "A" |}; {| id := "B" |}; {| id := "C" |}; {| id := "D" |} ]%string.

Definition diamond_edges : list DAGEdge :=
  [ {| source := "A"; target := "B" |}; {| source := "A"; target := "C" |};
    {| source := "B"; target := "D" |}; {| source := "C"; target := "D" |} ]%string.

Definition diamond_rank (x : string) : nat :=
  if String.eqb x "A" then 0 else if String.eqb x "D" then 2 else 1.

End Dag.

(* ===================================================================== *)
(** * Crop: percentages to a pixel rectangle                              *)
(* ===================================================================== *)

Module Crop.
Import JS.

Record rect : Type := { left : Z; top : Z; cropWidth : Z; cropHeight : Z }.

(** [cropImageClient] of the client-side crop, lines 43-56: the pixel rectangle that
    is handed to [ctx.drawImage]. *)
Definition cropImageClient (imgW imgH : Z) (xPercent yPercent widthPercent heightPercent : Q) : rect :=
  let left := round ((xPercent / 100) * inject_Z imgW) in
  let top := round ((yPercent / 100) * inject_Z imgH) in
  let cropW := round ((widthPercent / 100) * inject_Z imgW) in
  let cropH := round ((heightPercent / 100) * inject_Z imgH) in
  let left := Z.min left (Z.max (imgW - 1) 0) in
  let top := Z.min top (Z.max (imgH - 1) 0) in
  let cropW := Z.min cropW (imgW - left) in
  let cropH := Z.min cropH (imgH - top) in
  let cropW := Z.max cropW 1 in
  let cropH := Z.max cropH 1 in
  {| left := left; top := top; cropWidth := cropW; cropHeight := cropH |}.

(** [(node.data?.k as number) || d] for a numeric field that is either
    absent or a finite number (what JSON can carry). *)
Definition number_or (field : option Q) (d : Q) : Q :=
  match field with
  | Some q => if Qeq_bool q 0 then d else q
  | None => d
  end.

(** [metadata.width || 1024] *)
Definition dimension_or (m : option Z) (d : Z) : Z :=
  match m with
  | Some w => if w =? 0 then d else w
  | None => d
  end.

(** The crop parameters of a [cropImageNode], as stored in [node.data]. *)
Record crop_data : Type := {
  xPercent : option Q;
  yPercent : option Q;
  widthPercent : option Q;
  heightPercent : option Q
}.

(** [executeCropImageNode], execution.ts lines 289-292 and 315-334: the
    rectangle handed to [sharp(...).extract]. *)
Definition executeCropImageNode_region (data : crop_data) (metadata_width metadata_height : option Z) : rect :=
  let xPercent := number_or (xPercent data) 0 in
  let yPercent := number_or (yPercent data) 0 in
  let widthPercent := number_or (widthPercent data) 100 in
  let heightPercent := number_or (heightPercent data) 100 in
  let imgWidth := dimension_or metadata_width 1024 in
  let imgHeight := dimension_or metadata_height 1024 in
  let left := round ((xPercent / 100) * inject_Z imgWidth) in
  let top := round ((yPercent / 100) * inject_Z imgHeight) in
  let cropWidth := round ((widthPercent / 100) * inject_Z imgWidth) in
  let cropHeight := round ((heightPercent / 100) * inject_Z imgHeight) in
  let left := Z.min left (Z.max (imgWidth - 1) 0) in
  let top := Z.min top (Z.max (imgHeight - 1) 0) in
  let cropWidth := Z.min cropWidth (imgWidth - left) in
  let cropHeight := Z.min cropHeight (imgHeight - top) in
  let cropWidth := Z.max cropWidth 1 in
  let cropHeight := Z.max cropHeight 1 in
  {| left := left; top := top; cropWidth := cropWidth; cropHeight := cropHeight |}.

(** The rule of the specification, written once for one axis. *)
Definition spec_offset (percent : Q) (size : Z) : Z :=
  Z.min (round ((percent / 100) * inject_Z size)) (Z.max (size - 1) 0).

Definition spec_extent (percent : Q) (size offset : Z) : Z :=
  Z.max (Z.min (round ((percent / 100) * inject_Z size)) (size - offset)) 1.

Definition spec_rect (W H : Z) (x y w h : Q) : rect :=
  {| left := spec_offset x W;
     top := spec_offset y H;
     cropWidth := spec_extent w W (spec_offset x W);
     cropHeight := spec_extent h H (spec_offset y H) |}.

End Crop.

(* ===================================================================== *)
(** * Probing the duration of a video                                     *)
(* ===================================================================== *)

Module Probe.
Import JS.
Local Open Scope string_scope.

(** Exactly two digits at the head of [s]. *)
Definition two_digits (s : string) : option (string * string) :=
  match s with
  | String a (String b r) =>
      if is_digit a && is_digit b then Some (String a (String b EmptyString), r) else None
  | _ => None
  end.

Fixpoint skip_spaces (s : string) : string :=
  match s with
  | String c s' => if is_space c then skip_spaces s' else s
  | EmptyString => s
  end.

Fixpoint take_digits (s : string) : string :=
  match s with
  | String c s' => if is_digit c then String c (take_digits s') else EmptyString
  | EmptyString => EmptyString
  end.

Definition expect (c : ascii) (s : string) : option string :=
  match s with
  | String c' r => if Ascii.eqb c c' then Some r else None
  | EmptyString => None
  end.

(** The regular expression [/Duration:\s+(\d{2}):(\d{2}):(\d{2}\.\d+)/]
    tried at the head of [s]; the three captured groups. *)
Definition duration_here (s : string) : option (string * string * string) :=
  if String.prefix "Duration:" s then
    let r := drop 9 s in
    match r with
    | String c _ =>
        if is_space c then
          match two_digits (skip_spaces r) with
          | Some (hh, r1) =>
              match expect ":" r1 with
              | Some r2 =>
                  match two_digits r2 with
                  | Some (mm, r3) =>
                      match expect ":" r3 with
                      | Some r4 =>
                          match two_digits r4 with
                          | Some (ss, r5) =>
                              match expect "." r5 with
                              | Some r6 =>
                                  match take_digits r6 with
                                  | EmptyString => None
                                  | frac => Some (hh, mm, ss ++ "." ++ frac)
                                  end
                              | None => None
                              end
                          | None => None
                          end
                      | None => None
                      end
                  | None => None
                  end
              | None => None
              end
          | None => None
          end
        else None
    | EmptyString => None
    end
  else None.

(** [stderr.match(...)]: the leftmost position where the expression
    matches. *)
Fixpoint duration_match (s : string) : option (string * string * string) :=
  match duration_here s with
  | Some m => Some m
  | None => match s with
            | EmptyString => None
            | String _ s' => duration_match s'
            end
  end.

(** [(hours * 3600) + (minutes * 60) + seconds] on JavaScript numbers; the
    operands come from [parseFloat] on digit strings, so only the finite
    case computes and everything else is NaN. *)
Definition duration_of (hours minutes seconds : num) : num :=
  match hours, minutes, seconds with
  | Fin h, Fin m, Fin s => Fin (h * 3600 + m * 60 + s)%Q
  | _, _, _ => NaN
  end.

Definition isNaN (n : num) : bool := match n with NaN => true | _ => false end.

(** What the spawned child reports: an ['error'] event, or ['close'] with
    the text collected from its diagnostic stream. *)
Inductive child_event : Type :=
| ChildError (message : string)
| ChildClose (stderr : string).

(** The ['close'] handler of [getVideoDuration] in execution.ts (lines
    51-78), acting on the promise. *)
Definition on_close (stderr : string) (p : promise num) : promise num :=
  let attempt :=
    match duration_match stderr with
    | Some (h, m, s) =>
        let duration := duration_of (parseFloat h) (parseFloat m) (parseFloat s) in
        if negb (isNaN duration) then Some duration else None
    | None => None
    end in
  match attempt with
  | Some duration => resolve duration p
  | None =>
      if includes "Invalid data found" stderr then reject "Invalid video file" p
      else
        let p := resolve (Fin 0) p in
        reject "Could not parse video duration" p
  end.

(** [getVideoDuration] of execution.ts: [ffmpegPath] says whether the
    binary was resolved, [events] is what the child emits, in order. *)
Definition getVideoDuration (ffmpegPath : option string) (events : list child_event) : promise num :=
  match ffmpegPath with
  | None => Rejected "FFmpeg binary not found"
  | Some _ =>
      fold_left (fun p ev => match ev with
                             | ChildError message => reject message p
                             | ChildClose stderr => on_close stderr p
                             end) events Pending
  end.

(** The probing wrapper of the extract-frame task (lines 214-252), which
    runs ffprobe and reads the duration from its standard output. *)
Inductive probe_event : Type :=
| ProbeError (message : string)
| ProbeClose (exit_code : option Z) (stdout stderr : string).

(** [s.trim()]: white space removed at both ends. *)
Fixpoint trim_end (s : string) : string :=
  match s with
  | EmptyString => EmptyString
  | String c s' =>
      match trim_end s' with
      | EmptyString => if is_space c then EmptyString else String c EmptyString
      | t => String c t
      end
  end.

Definition trim (s : string) : string := trim_end (trim_start s).

(** The exit code is a number, or [null] when the child was killed (for
    instance by the spawn timeout). *)
Definition is_zero (exit_code : option Z) : bool :=
  match exit_code with Some c => (c =? 0)%Z | None => false end.

Definition show_code (exit_code : option Z) : string :=
  match exit_code with
  | Some c => NilZero.string_of_int (Z.to_int c)
  | None => "null"
  end.

Definition getVideoDuration_task (ffprobePath : option string) (events : list probe_event) : promise num :=
  match ffprobePath with
  | None => Rejected "FFprobe binary not found"
  | Some _ =>
      fold_left (fun p ev =>
                   match ev with
                   | ProbeError message => reject message p
                   | ProbeClose exit_code stdout stderr =>
                       if negb (is_zero exit_code) then
                         reject ("ffprobe exited with code " ++ show_code exit_code ++ ": " ++ stderr) p
                       else
                         let duration := parseFloat (trim stdout) in
                         if isNaN duration then
                           reject ("Invalid duration output from ffprobe: " ++ stdout) p
                         else resolve duration p
                   end) events Pending
  end.

End Probe.

(* ===================================================================== *)
(** * Frame extraction                                                    *)
(* ===================================================================== *)

Module Frame.
Import JS.
Local Open Scope string_scope.

(** ** The seek position *)

Definition Qltb (a b : Q) : bool := negb (Qle_bool b a).

(** Lines 430-446 of execution.ts, for a probed [duration]. *)
Definition seekSeconds (timestamp : string) (duration : Q) : result Q :=
  if endsWith "%" timestamp then
    match parseFloat (replace_first "%" "" timestamp) with
    | Fin percent =>
        if Qltb percent 0 || Qltb 100 percent
        then Throw ("Invalid percentage timestamp: " ++ timestamp)
        else Ok ((percent / 100) * duration)%Q
    | _ => Throw ("Invalid percentage timestamp: " ++ timestamp)
    end
  else
    match parseFloat (replace_first "s" "" timestamp) with
    | NaN | NInf => Throw ("Invalid timestamp: " ++ timestamp)
    | PInf => Ok (duration - (1 # 10))%Q
    | Fin seek =>
        if Qltb seek 0 then Throw ("Invalid timestamp: " ++ timestamp)
        else if Qltb duration seek then Ok (duration - (1 # 10))%Q
        else Ok seek
    end.

(** Lines 71-87 of the extract-frame task. *)
Definition seekTime (timestamp : string) (duration : Q) : result Q :=
  if endsWith "%" timestamp then
    match parseFloat (replace_first "%" "" timestamp) with
    | Fin percent =>
        if Qltb percent 0 || Qltb 100 percent
        then Throw ("Invalid percentage timestamp: " ++ timestamp)
        else Ok ((percent / 100) * duration)%Q
    | _ => Throw ("Invalid percentage timestamp: " ++ timestamp)
    end
  else
    match parseFloat timestamp with
    | NaN | NInf => Throw ("Invalid timestamp: " ++ timestamp)
    | PInf => Ok (duration - (1 # 10))%Q
    | Fin seek =>
        if Qltb seek 0 then Throw ("Invalid timestamp: " ++ timestamp)
        else if Qltb duration seek then Ok (duration - (1 # 10))%Q
        else Ok seek
    end.

(** The rule of the specification for the seek position, as a relation
    between what the two number parses give and the outcome:
    [percent] is the parse of the text before the percent sign, [absolute]
    the parse of a plain timestamp. *)
Inductive seek_rule (is_percent : bool) (percent absolute : num) (duration : Q) : result Q -> Prop :=
| seek_percent (p : Q) :
    is_percent = true -> percent = Fin p -> (0 <= p)%Q -> (p <= 100)%Q ->
    seek_rule is_percent percent absolute duration (Ok ((p / 100) * duration)%Q)
| seek_percent_invalid (message : string) :
    is_percent = true ->
    (forall p, percent = Fin p -> (p < 0)%Q \/ (100 < p)%Q) ->
    seek_rule is_percent percent absolute duration (Throw message)
| seek_absolute (t : Q) :
    is_percent = false -> absolute = Fin t -> (0 <= t)%Q -> (t <= duration)%Q ->
    seek_rule is_percent percent absolute duration (Ok t)
| seek_absolute_clamped :
    is_percent = false ->
    (absolute = PInf \/ exists t, absolute = Fin t /\ (0 <= t)%Q /\ (duration < t)%Q) ->
    seek_rule is_percent percent absolute duration (Ok (duration - (1 # 10))%Q)
| seek_absolute_invalid (message : string) :
    is_percent = false ->
    (absolute = NaN \/ absolute = NInf \/ exists t, absolute = Fin t /\ (t < 0)%Q) ->
    seek_rule is_percent percent absolute duration (Throw message).

(** ** The Cloudinary shortcut *)

(** [\.[a-zA-Z0-9]+$] *)
Fixpoint all_alnum (s : string) : bool :=
  match s with
  | EmptyString => true
  | String c s' => is_alnum c && all_alnum s'
  end.

Definition extension_to_end (s : string) : bool :=
  match s with
  | String "." (String c r) => is_alnum c && all_alnum r
  | _ => false
  end.

(** [(.+?)] followed by the extension: the shortest non-empty run of
    characters other than line terminators after which the extension
    reaches the end of the input. [acc] is what the group holds so far. *)
Fixpoint lazy_capture (acc s : string) : option string :=
  match s with
  | EmptyString => None
  | String c s' =>
      if is_line_terminator c then None
      else
        let acc' := acc ++ String c EmptyString in
        if extension_to_end s' then Some acc' else lazy_capture acc' s'
  end.

(** [(?:v\d+\/)]: what follows it when it matches at the head of [s]. *)
Definition version_segment (s : string) : option string :=
  match s with
  | String "v" r =>
      match Probe.take_digits r with
      | EmptyString => None
      | ds => Probe.expect "/" (drop (String.length ds) r)
      end
  | _ => None
  end.

(** The expression [/\/upload\/(?:v\d+\/)?(.+?)\.[a-zA-Z0-9]+$/] tried at
    the head of [s]: the optional group is tried first, then skipped. *)
Definition upload_here (s : string) : option string :=
  if String.prefix "/upload/" s then
    let r := drop 8 s in
    match version_segment r with
    | Some r' =>
        match lazy_capture "" r' with
        | Some g => Some g
        | None => lazy_capture "" r
        end
    | None => lazy_capture "" r
    end
  else None.

(** [videoInput.match(regex)]: group 1 of the leftmost match. *)
Fixpoint match_upload (s : string) : option string :=
  match upload_here s with
  | Some g => Some g
  | None => match s with
            | EmptyString => None
            | String _ s' => match_upload s'
            end
  end.

(** ** The executor and its collaborators *)

(** Calls made to the collaborators, in the order they are issued. *)
Inductive event : Type :=
| EvWriteVideo (base64 : string)
| EvDownload (url : string) (maxBytes : Z)
| EvProbe
| EvExtract (seek : Q)
| EvStoreFrame
| EvCleanup.

(** What the collaborators answer during one execution. *)
Record world : Type := {
  (** [cloudinary.url(publicId, { start_offset, ... })] inside
      [getVideoFrameUrl]: the public id, the parsed offset and whether it
      is a percentage. *)
  cloudinary_url : string -> num -> bool -> result string;
  download_outcome : result unit;
  probe_outcome : result Q;
  extract_outcome : result unit;
  frame_exists : bool;
  (** the URL or data URI under which the frame ends up *)
  stored_frame : string
}.

(** [getVideoFrameUrl] of cloudinary.ts. *)
Definition getVideoFrameUrl (w : world) (publicId timestamp : string) : result string :=
  cloudinary_url w
    (replace_first ".mov" ".jpg" (replace_first ".mp4" ".jpg" publicId))
    (parseFloat timestamp) (endsWith "%" timestamp).

(** A computation that calls collaborators and may throw. *)
Definition M (A : Type) : Type := (result A * list event)%type.

Definition ret {A} (a : A) : M A := (Ok a, []).
Definition throw {A} (message : string) : M A := (Throw message, []).
Definition emit (e : event) : M unit := (Ok tt, [e]).
Definition lift {A} (r : result A) : M A := (r, []).
Definition bind {A B} (m : M A) (f : A -> M B) : M B :=
  match m with
  | (Ok a, t) => let '(r, t') := f a in (r, (t ++ t')%list)
  | (Throw e, t) => (Throw e, t)
  end.
(** [try { m } finally { e }] *)
Definition finally {A} (m : M A) (e : event) : M A := (fst m, (snd m ++ [e])%list).

Notation "x <- m ;; k" := (bind m (fun x => k)) (at level 100, m at next level, right associativity).
Notation "m ;;; k" := (bind m (fun _ => k)) (at level 100, right associativity).

(** [s.split(',')[1]] *)
Fixpoint until_comma (s : string) : string :=
  match s with
  | EmptyString => EmptyString
  | String c s' => if Ascii.eqb c "," then EmptyString else String c (until_comma s')
  end.

Fixpoint second_field (s : string) : option string :=
  match s with
  | EmptyString => None
  | String c s' => if Ascii.eqb c "," then Some (until_comma s') else second_field s'
  end.

(** [executeExtractFrameNode] of execution.ts. [upstream] is
    [upstreamData[0]?.output] and [timestamp] is [node.data?.timestamp]. *)
Definition executeExtractFrameNode (w : world) (upstream : option string) (timestamp : option string)
  : M string :=
  match upstream with
  | None | Some "" => throw "No video input connected"
  | Some videoInput =>
      let timestamp := match timestamp with
                       | None | Some "" => "50%"
                       | Some t => t
                       end in
      let shortcut :=
        if includes "cloudinary.com" videoInput then
          match match_upload videoInput with
          | Some publicId =>
              if String.eqb publicId "" then None
              else match getVideoFrameUrl w publicId timestamp with
                   | Ok frameUrl => Some frameUrl
                   | Throw _ => None
                   end
          | None => None
          end
        else None in
      match shortcut with
      | Some frameUrl => ret frameUrl
      | None =>
          finally
            ((if startsWith "data:" videoInput then
                match second_field videoInput with
                | None | Some "" => throw "Invalid base64 data URL"
                | Some base64Data => emit (EvWriteVideo base64Data)
                end
              else if startsWith "http" videoInput then
                emit (EvDownload videoInput (100 * 1024 * 1024)) ;;; lift (download_outcome w)
              else throw "Invalid video input — expected base64 data URL or HTTP URL") ;;;
             emit EvProbe ;;;
             duration <- lift (probe_outcome w) ;;
             seek <- lift (seekSeconds timestamp duration) ;;
             emit (EvExtract seek) ;;;
             lift (extract_outcome w) ;;;
             (if frame_exists w then ret tt
              else throw "Frame extraction failed — no output file produced") ;;;
             emit EvStoreFrame ;;;
             ret (stored_frame w))
            EvCleanup
      end
  end.

(** The timestamp the executor works with: [node.data?.timestamp || '50%']. *)
Definition effective_timestamp (timestamp : option string) : string :=
  match timestamp with
  | None | Some "" => "50%"
  | Some t => t
  end.

(** A world for examples: a 10 s clip, every collaborator succeeds. *)
Definition demo_world : world :=
  {| cloudinary_url := fun publicId _ _ =>
       Ok ("https://res.cloudinary.com/demo/video/upload/so_110p/" ++ publicId ++ ".jpg");
     download_outcome := Ok tt;
     probe_outcome := Ok 10%Q;
     extract_outcome := Ok tt;
     frame_exists := true;
     stored_frame := "/outputs/extract-n1.png" |}.

(** The same world with a Cloudinary URL builder that writes the start
    offset (the whole seconds or percent of it) and the public id into the
    URL. *)
Definition cloudinary_world : world :=
  {| cloudinary_url := fun publicId offset percent =>
       match offset with
       | Fin q =>
           Ok ("https://res.cloudinary.com/demo/video/upload/so_"
               ++ NilZero.string_of_int (Z.to_int (Qfloor q))
               ++ (if percent then "p" else "") ++ "/" ++ publicId ++ ".jpg")
       | _ => Throw "Invalid start_offset"
       end;
     download_outcome := Ok tt;
     probe_outcome := Ok 10%Q;
     extract_outcome := Ok tt;
     frame_exists := true;
     stored_frame := "/outputs/extract-n1.png" |}.

(** The same world with a Cloudinary URL builder that throws. *)
Definition failing_builder_world : world :=
  {| cloudinary_url := fun _ _ _ => Throw "Must supply cloud_name";
     download_outcome := Ok tt;
     probe_outcome := Ok 10%Q;
     extract_outcome := Ok tt;
     frame_exists := true;
     stored_frame := "/outputs/extract-n1.png" |}.

(** A Cloudinary upload URL whose public id is [folder/name]. *)
Definition cloudinary_video : string :=
  "https://res.cloudinary.com/demo/video/upload/v1234/folder/name.mp4".

End Frame.

(* ===================================================================== *)
(** * The bounded streaming downloader                                    *)
(* ===================================================================== *)

Module Download.
Import JS.
Local Open Scope string_scope.

(** One [reader.read()] that yields data: the length of the chunk and the
    answer of [fileStream.write] for it (false: wait for ['drain']). *)
Record chunk : Type := { size : Z; canWrite : bool }.

(** How the body stream ends: [done], or a rejected read (network error,
    or the abort issued by the 60 s timer). *)
Inductive body_end : Type :=
| BodyDone
| BodyFails (message : string).

Record response : Type := {
  ok : bool;
  status : Z;
  statusText : string;
  content_length : option string;
  body : option (list chunk * body_end)
}.

Inductive fetch_outcome : Type :=
| FetchFails (message : string)
| Responds (r : response).

(** What the write stream emits after [end()]. *)
Inductive finish_outcome : Type :=
| Finished
| StreamError (message : string).

Inductive handle : Type := NotOpened | Open | Ended.

(** The observable state of one download. *)
Record state : Type := {
  file : handle;          (** the destination write stream *)
  transferred : Z;        (** body bytes handed out by the reader *)
  written : Z;            (** bytes passed to [fileStream.write] *)
  cancelled : bool;       (** [reader.cancel()] was called *)
  drains : nat;           (** times the loop waited for ['drain'] *)
  timer_cleared : bool    (** [clearTimeout] ran *)
}.

Definition initial : state :=
  {| file := NotOpened; transferred := 0; written := 0; cancelled := false;
     drains := 0; timer_cleared := false |}.

Definition set_file (h : handle) (st : state) : state :=
  {| file := h; transferred := transferred st; written := written st;
     cancelled := cancelled st; drains := drains st; timer_cleared := timer_cleared st |}.

Definition receive (c : chunk) (st : state) : state :=
  {| file := file st; transferred := transferred st + size c; written := written st;
     cancelled := cancelled st; drains := drains st; timer_cleared := timer_cleared st |}.

Definition write (c : chunk) (st : state) : state :=
  {| file := file st; transferred := transferred st; written := written st + size c;
     cancelled := cancelled st;
     drains := if canWrite c then drains st else S (drains st);
     timer_cleared := timer_cleared st |}.

Definition cancel (st : state) : state :=
  {| file := file st; transferred := transferred st; written := written st;
     cancelled := true; drains := drains st; timer_cleared := timer_cleared st |}.

Definition clear_timer (st : state) : state :=
  {| file := file st; transferred := transferred st; written := written st;
     cancelled := cancelled st; drains := drains st; timer_cleared := true |}.

Definition show (z : Z) : string := NilZero.string_of_int (Z.to_int z).

(** The [while (true)] loop over [reader.read()], shared by both
    downloaders up to the error message [too_large]. *)
Fixpoint read_loop (too_large : string) (maxBytes : Z) (chunks : list chunk) (e : body_end)
                   (downloaded : Z) (st : state) : result unit * state :=
  match chunks with
  | [] =>
      match e with
      | BodyDone => (Ok tt, st)
      | BodyFails message => (Throw message, st)
      end
  | c :: rest =>
      let st := receive c st in
      let downloaded := downloaded + size c in
      if downloaded >? maxBytes then (Throw too_large, cancel st)
      else read_loop too_large maxBytes rest e downloaded (write c st)
  end.

(** [fileStream.end()] and the wait for ['finish'] or ['error']. *)
Definition end_and_wait (fin : finish_outcome) (st : state) : result unit * state :=
  let st := set_file Ended st in
  match fin with
  | Finished => (Ok tt, st)
  | StreamError message => (Throw message, st)
  end.

(** [try { ... } finally { clearTimeout(timeout) }] *)
Definition with_timer (r : result unit * state) : result unit * state :=
  (fst r, clear_timer (snd r)).

(** [downloadVideo] of execution.ts (lines 509-543). *)
Definition downloadVideo (f : fetch_outcome) (fin : finish_outcome) (maxBytes : Z)
  : result unit * state :=
  with_timer
    match f with
    | FetchFails message => (Throw message, initial)
    | Responds r =>
        if negb (ok r) then (Throw ("Failed to download: " ++ statusText r), initial)
        else
          let st := set_file Open initial in
          match body r with
          | None => (Throw "No response body", st)
          | Some (chunks, e) =>
              match read_loop "Video too large" maxBytes chunks e 0 st with
              | (Ok _, st) => end_and_wait fin st
              | failed => failed
              end
          end
    end.

(** [contentLength && parseInt(contentLength) > maxBytes] *)
Definition declared_too_large (content_length : option string) (maxBytes : Z) : bool :=
  match content_length with
  | None | Some "" => false
  | Some text =>
      match parseInt text with
      | Some n => n >? maxBytes
      | None => false
      end
  end.

(** [downloadVideo] of the extract-frame task (lines 145-208). *)
Definition downloadVideo_task (f : fetch_outcome) (fin : finish_outcome) (maxBytes : Z)
  : result unit * state :=
  with_timer
    match f with
    | FetchFails message => (Throw message, initial)
    | Responds r =>
        if negb (ok r) then
          (Throw ("Failed to download video: " ++ show (status r) ++ " " ++ statusText r), initial)
        else if declared_too_large (content_length r) maxBytes then
          (Throw ("Video size (" ++ match content_length r with Some t => t | None => "" end
                  ++ " bytes) exceeds limit of " ++ show maxBytes ++ " bytes."), initial)
        else
          match body r with
          | None => (Throw "No response body", initial)
          | Some (chunks, e) =>
              let st := set_file Open initial in
              match read_loop ("Download exceeded max size limit of " ++ show maxBytes ++ " bytes.")
                              maxBytes chunks e 0 st with
              | (Ok _, st) => end_and_wait fin st
              | failed => failed
              end
          end
    end.

(** The running byte count stays within the cap after every chunk. *)
Fixpoint within_cap (maxBytes downloaded : Z) (chunks : list chunk) : bool :=
  match chunks with
  | [] => true
  | c :: rest => (downloaded + size c <=? maxBytes)%Z && within_cap maxBytes (downloaded + size c) rest
  end.

Definition total (chunks : list chunk) : Z := fold_right (fun c acc => size c + acc) 0 chunks.

(** The byte cap the executors pass: 100 MiB. *)
Definition cap : Z := 100 * 1024 * 1024.

(** A response that declares 200 MiB and delivers it in chunks of 64 MiB. *)
Definition declares_200MiB : response :=
  {| ok := true; status := 200; statusText := "OK";
     content_length := Some "209715200";
     body := Some ([ {| size := 67108864; canWrite := true |};
                     {| size := 67108864; canWrite := true |};
                     {| size := 67108864; canWrite := true |};
                     {| size := 8388608; canWrite := true |} ], BodyDone) |}.

(** The same body without a declared length. *)
Definition undeclared_200MiB : response :=
  {| ok := true; status := 200; statusText := "OK";
     content_length := None;
     body := body declares_200MiB |}.

End Download.

(* ===================================================================== *)
(** * The execution engine                                                *)
(* ===================================================================== *)

Module Engine.
Import JS.
Local Open Scope string_scope.

Record WorkflowNode : Type := {
  id : string;
  type : string;
  data : gmap string value
}.

Record WorkflowEdge : Type := {
  source : string;
  target : string;
  sourceHandle : option string;
  targetHandle : option string
}.

(** [node.data?.k]: undefined when the field is absent. *)
Definition field (node : WorkflowNode) (k : string) : value :=
  default VUndefined (data node !! k).

(** One entry of [upstreamData]. *)
Record upstream : Type := {
  nodeId : string;
  output : value;
  handle : option string
}.

(** ** Passthrough executors *)

(** [executeTextNode] (lines 245-251). *)
Definition executeTextNode (node : WorkflowNode) (_upstreamData : list upstream) : result value :=
  let userMessage := or_else (field node "userMessage") (VStr "") in
  Ok userMessage.

(** [executeImageUploadNode] (lines 256-262). *)
Definition executeImageUploadNode (node : WorkflowNode) : result value :=
  let imageUrl := field node "imageUrl" in
  if negb (truthy imageUrl) then Throw "No image uploaded" else Ok imageUrl.

(** [executeVideoUploadNode] (lines 267-273). *)
Definition executeVideoUploadNode (node : WorkflowNode) : result value :=
  let videoUrl := field node "videoUrl" in
  if negb (truthy videoUrl) then Throw "No video uploaded" else Ok videoUrl.

(** ** Executors that call collaborators *)

(** What the outside world answers to a node: the image pipeline behind
    the crop executor, the collaborators of frame extraction, and the model
    calls of the LLM executor. *)
Record collaborators : Type := {
  crop : WorkflowNode -> string -> result value;
  frame_world : WorkflowNode -> Frame.world;
  llm : WorkflowNode -> list upstream -> result value
}.

(** [upstreamData[0]?.output] *)
Definition first_output (upstreamData : list upstream) : value :=
  match upstreamData with
  | u :: _ => output u
  | [] => VUndefined
  end.

(** [executeCropImageNode]: the input check, then the image pipeline. *)
Definition executeCropImageNode (c : collaborators) (node : WorkflowNode)
           (upstreamData : list upstream) : result value :=
  let imageInput := first_output upstreamData in
  if negb (truthy imageInput) then Throw "No image input connected"
  else match imageInput with
       | VStr s => crop c node s
       | _ => Throw "imageInput.startsWith is not a function"
       end.

(** [executeExtractFrameNode], through the model of module [Frame]; a
    value that is not a string fails at its first string method. *)
Definition executeExtractFrameNode (c : collaborators) (node : WorkflowNode)
           (upstreamData : list upstream) : result value :=
  let videoInput := first_output upstreamData in
  if negb (truthy videoInput) then Throw "No video input connected"
  else match videoInput with
       | VStr v =>
           let timestamp := field node "timestamp" in
           if truthy timestamp then
             match timestamp with
             | VStr t =>
                 match fst (Frame.executeExtractFrameNode (frame_world c node) (Some v) (Some t)) with
                 | Ok url => Ok (VStr url)
                 | Throw message => Throw message
                 end
             | _ => Throw "timestamp.endsWith is not a function"
             end
           else
             match fst (Frame.executeExtractFrameNode (frame_world c node) (Some v) None) with
             | Ok url => Ok (VStr url)
             | Throw message => Throw message
             end
       | _ => Throw "videoInput.includes is not a function"
       end.

(** Template-literal rendering of a value; fractions are written as a
    quotient, which only matters for the text of one error message. *)
Definition template (v : value) : string :=
  match v with
  | VUndefined => "undefined"
  | VNull => "null"
  | VBool true => "true"
  | VBool false => "false"
  | VNum NaN => "NaN"
  | VNum PInf => "Infinity"
  | VNum NInf => "-Infinity"
  | VNum (Fin q) =>
      if (Z.pos (Qden q) =? 1)%Z then Download.show (Qnum q)
      else Download.show (Qnum q) ++ "/" ++ Download.show (Z.pos (Qden q))
  | VStr s => s
  end.

Definition is_type (v : value) (name : string) : bool :=
  match v with
  | VStr s => String.eqb s name
  | _ => false
  end.

(** [executeNode] (lines 211-240): the closed dispatch on the node type. *)
Definition executeNode (c : collaborators) (node : WorkflowNode) (upstreamData : list upstream)
  : result value :=
  let nodeType := or_else (field node "type") (VStr (type node)) in
  if is_type nodeType "textNode" then executeTextNode node upstreamData
  else if is_type nodeType "imageUploadNode" then executeImageUploadNode node
  else if is_type nodeType "cropImageNode" then executeCropImageNode c node upstreamData
  else if is_type nodeType "videoUploadNode" then executeVideoUploadNode node
  else if is_type nodeType "extractFrameNode" then executeExtractFrameNode c node upstreamData
  else if is_type nodeType "llmNode" then llm c node upstreamData
  else Throw ("Unknown node type: " ++ template nodeType).

(** ** The log collaborator *)

Inductive NodeStatus : Type := IDLE | PENDING | RUNNING | SUCCESS | FAILED | SKIPPED.

Inductive RunStatus : Type := RUN_PENDING | RUN_RUNNING | COMPLETED | RUN_FAILED | CANCELLED.

Record NodeLog : Type := {
  status : NodeStatus;
  log_output : option value;
  error : option string;
  duration : option Z;
  startedAt : Z;
  completedAt : option Z
}.

(** [sanitizeOutput] (lines 755-762). *)
Definition sanitizeOutput (v : value) : value :=
  match v with
  | VStr s =>
      if (1000 <? String.length s)%nat then
        VStr (substring 0 100 s ++ "... [TRUNCATED "
              ++ Download.show (Z.of_nat (String.length s) - 100) ++ " chars]")
      else v
  | _ => v
  end.

(** [updateNodeLog] (lines 734-753): [updateMany] changes the rows that
    exist and leaves a field alone when its argument is undefined. *)
Definition updateNodeLog (nodeId : string) (st : NodeStatus) (out : option value)
           (err : option string) (dur : option Z) (now : Z)
           (logs : gmap string NodeLog) : gmap string NodeLog :=
  alter (fun l =>
           {| status := st;
              log_output := match out with
                            | Some v => Some (sanitizeOutput v)
                            | None => log_output l
                            end;
              error := match err with Some e => Some e | None => error l end;
              duration := match dur with Some d => Some d | None => duration l end;
              startedAt := match st with RUNNING => now | _ => startedAt l end;
              completedAt := match st with
                             | SUCCESS | FAILED => Some now
                             | _ => completedAt l
                             end |}) nodeId logs.

(** The rows created by [POST /api/runs] before the engine starts
    (lines 110-122): one PENDING log per node to execute. *)
Definition pending_logs (nodes : list WorkflowNode) (now : Z) : gmap string NodeLog :=
  fold_left (fun m n =>
               <[id n := {| status := PENDING; log_output := None; error := None;
                            duration := None; startedAt := now; completedAt := None |}]> m)
            nodes ∅.

(** The row a node gets before the engine starts. *)
Definition pending_log (now : Z) : NodeLog :=
  {| status := PENDING; log_output := None; error := None;
     duration := None; startedAt := now; completedAt := None |}.

(** ** The engine as a transition system *)

(** One invocation of the async callback inside [group.map]. *)
Inductive task_state : Type :=
| Starting                                           (** awaiting the RUNNING update *)
| Executing (startTime : Z) (upstreamData : list upstream)
| Fulfilled (out : value) (elapsed : Z)
| Rejected (message : string) (elapsed : Z).

Record task : Type := {
  group : nat;
  node : WorkflowNode;
  st : task_state
}.

Inductive phase : Type :=
| AtGroup      (** at the head of the [for] loop *)
| Awaiting     (** inside [await Promise.all(...)] *)
| Finished.    (** the run record has been given its final status *)

Record config : Type := {
  now_phase : phase;
  groupIndex : nat;
  tasks : list task;
  outputs : gmap string value;
  logs : gmap string NodeLog;
  run : RunStatus
}.

(** [new Map(nodes.map(n => [n.id, n]))]: a later node with the same id
    replaces an earlier one. *)
Definition nodeMap (nodes : list WorkflowNode) : gmap string WorkflowNode :=
  fold_left (fun m n => <[id n := n]> m) nodes ∅.

(** The callbacks started by [group.map]; an id without a node returns at
    once and leaves nothing to wait for. *)
Definition spawn (nodes : list WorkflowNode) (i : nat) (grp : list string) : list task :=
  omap (fun nodeId => match nodeMap nodes !! nodeId with
                      | Some n => Some {| group := i; node := n; st := Starting |}
                      | None => None
                      end) grp.

(** [edges.filter(e => e.target === nodeId).map(...)] *)
Definition collect_upstream (edges : list WorkflowEdge) (outs : gmap string value)
           (nodeId : string) : list upstream :=
  map (fun e => {| nodeId := source e;
                   output := default VUndefined (outs !! source e);
                   handle := sourceHandle e |})
      (List.filter (fun e => String.eqb (target e) nodeId) edges).

Definition taskid (t : task) : string := id (node t).

(** What the log of a node has to say for the state its task is in. *)
Definition log_matches (entry : option NodeLog) (s : task_state) : Prop :=
  match s with
  | Starting => is_Some entry
  | Executing _ _ => exists l, entry = Some l /\ status l = RUNNING
  | Fulfilled out elapsed =>
      exists l, entry = Some l /\ status l = SUCCESS /\
                log_output l = Some (sanitizeOutput out) /\ duration l = Some elapsed
  | Rejected message elapsed =>
      exists l, entry = Some l /\ status l = FAILED /\
                error l = Some message /\ duration l = Some elapsed
  end.

Definition settled_ok (t : task) : bool :=
  match st t with Fulfilled _ _ => true | _ => false end.

Definition settled_failed (t : task) : bool :=
  match st t with Rejected _ _ => true | _ => false end.

Definition in_group (i : nat) (t : task) : bool := (group t =? i)%nat.

Section Steps.
Variable c : collaborators.
Variable nodes : list WorkflowNode.
Variable edges : list WorkflowEdge.
Variable parallelGroups : list (list string).

Definition initial (now : Z) : config :=
  {| now_phase := AtGroup; groupIndex := 0; tasks := [];
     outputs := ∅; logs := pending_logs nodes now; run := RUN_RUNNING |}.

(** [group.map(async (nodeId) => ...)]: every callback of the group is
    started, then the engine waits in [Promise.all]. *)
Definition dispatch (cf : config) (grp : list string) : config :=
  {| now_phase := Awaiting; groupIndex := groupIndex cf;
     tasks := tasks cf ++ spawn nodes (groupIndex cf) grp;
     outputs := outputs cf; logs := logs cf; run := run cf |}.

(** Task [k] resumes after [await updateNodeLog(..., 'RUNNING')], reads
    the clock and collects its upstream outputs (lines 141-151). Each step
    reads the clock once: [now] also stands for the timestamp the log
    collaborator took a moment earlier. *)
Definition begin (cf : config) (k : nat) (t : task) (now : Z) : config :=
  {| now_phase := now_phase cf; groupIndex := groupIndex cf;
     tasks := <[k := {| group := group t; node := node t;
                        st := Executing now
                                (collect_upstream edges (outputs cf) (id (node t))) |}]>
                (tasks cf);
     outputs := outputs cf;
     logs := updateNodeLog (id (node t)) RUNNING None None None now (logs cf);
     run := run cf |}.

(** The executor of task [k] returned [out] (lines 158-168). *)
Definition succeed (cf : config) (k : nat) (t : task) (startTime now : Z) (out : value) : config :=
  {| now_phase := now_phase cf; groupIndex := groupIndex cf;
     tasks := <[k := {| group := group t; node := node t;
                        st := Fulfilled out (now - startTime) |}]> (tasks cf);
     outputs := <[id (node t) := out]> (outputs cf);
     logs := updateNodeLog (id (node t)) SUCCESS (Some out) None
                           (Some (now - startTime)) now (logs cf);
     run := run cf |}.

(** The executor of task [k] threw (lines 169-177). *)
Definition fail (cf : config) (k : nat) (t : task) (startTime now : Z) (message : string) : config :=
  {| now_phase := now_phase cf; groupIndex := groupIndex cf;
     tasks := <[k := {| group := group t; node := node t;
                        st := Rejected message (now - startTime) |}]> (tasks cf);
     outputs := outputs cf;
     logs := updateNodeLog (id (node t)) FAILED None (Some message)
                           (Some (now - startTime)) now (logs cf);
     run := run cf |}.

(** [Promise.all] resolved: on to the next group. *)
Definition advance (cf : config) : config :=
  {| now_phase := AtGroup; groupIndex := S (groupIndex cf);
     tasks := tasks cf; outputs := outputs cf; logs := logs cf; run := run cf |}.

(** The run record gets its final status (lines 186-193 and 198-204). *)
Definition finish (cf : config) (final : RunStatus) : config :=
  {| now_phase := Finished; groupIndex := groupIndex cf;
     tasks := tasks cf; outputs := outputs cf; logs := logs cf; run := final |}.

(** The steps of [executeWorkflowNodes] (lines 125-206). *)
Inductive step : config -> config -> Prop :=
| step_dispatch (cf : config) (grp : list string) :
    now_phase cf = AtGroup ->
    parallelGroups !! groupIndex cf = Some grp ->
    step cf (dispatch cf grp)
| step_begin (cf : config) (k : nat) (t : task) (now : Z) :
    tasks cf !! k = Some t ->
    st t = Starting ->
    step cf (begin cf k t now)
| step_success (cf : config) (k : nat) (t : task) (startTime now : Z)
               (upstreamData : list upstream) (out : value) :
    tasks cf !! k = Some t ->
    st t = Executing startTime upstreamData ->
    executeNode c (node t) upstreamData = Ok out ->
    step cf (succeed cf k t startTime now out)
| step_failure (cf : config) (k : nat) (t : task) (startTime now : Z)
               (upstreamData : list upstream) (message : string) :
    tasks cf !! k = Some t ->
    st t = Executing startTime upstreamData ->
    executeNode c (node t) upstreamData = Throw message ->
    step cf (fail cf k t startTime now message)
| step_next (cf : config) :
    now_phase cf = Awaiting ->
    forallb settled_ok (List.filter (in_group (groupIndex cf)) (tasks cf)) = true ->
    step cf (advance cf)
| step_complete (cf : config) :
    now_phase cf = AtGroup ->
    parallelGroups !! groupIndex cf = None ->
    step cf (finish cf COMPLETED)
| step_abort (cf : config) :
    now_phase cf = Awaiting ->
    existsb settled_failed (List.filter (in_group (groupIndex cf)) (tasks cf)) = true ->
    step cf (finish cf RUN_FAILED).

(** The configurations a run started at clock reading [start] can reach. *)
Inductive reachable (start : Z) : config -> Prop :=
| reachable_initial : reachable start (initial start)
| reachable_step (cf cf' : config) : reachable start cf -> step cf cf' -> reachable start cf'.

(** What holds of every configuration a run can reach, when no node id
    occurs twice in the groups. *)
Record invariant (start : Z) (cf : config) : Prop := {
  inv_bound : forall t, t ∈ tasks cf ->
    (group t < groupIndex cf)%nat \/ (group t = groupIndex cf /\ now_phase cf <> AtGroup);
  inv_earlier : forall t, t ∈ tasks cf -> (group t < groupIndex cf)%nat -> settled_ok t = true;
  inv_origin : forall t, t ∈ tasks cf ->
    node t ∈ nodes /\ exists grp, parallelGroups !! group t = Some grp /\ taskid t ∈ grp;
  inv_distinct : NoDup (taskid <$> tasks cf);
  inv_logs : forall t, t ∈ tasks cf -> log_matches (logs cf !! taskid t) (st t);
  inv_domain : forall n, n ∈ nodes -> is_Some (logs cf !! id n);
  inv_untouched : forall x, x ∉ taskid <$> tasks cf ->
    logs cf !! x = pending_logs nodes start !! x;
  inv_run :
    match now_phase cf with
    | Finished =>
        (run cf = RUN_FAILED /\ exists t, t ∈ tasks cf /\ settled_failed t = true) \/
        (run cf = COMPLETED /\ forall t, t ∈ tasks cf -> settled_ok t = true)
    | _ => run cf = RUN_RUNNING
    end
}.

End Steps.

(** ** An example run: a text node and a crop node without input in the
    first wave, an LLM node behind the crop in the second. *)

Definition text_node : WorkflowNode :=
  {| id := "text-1"; type := "textNode"; data := {[ "userMessage" := VStr "hello" ]} |}.

Definition crop_node : WorkflowNode :=
  {| id := "crop-1"; type := "cropImageNode"; data := ∅ |}.

Definition llm_node : WorkflowNode :=
  {| id := "llm-1"; type := "llmNode"; data := ∅ |}.

Definition example_nodes : list WorkflowNode := [text_node; crop_node; llm_node].

Definition example_edges : list WorkflowEdge :=
  [ {| source := "crop-1"; target := "llm-1"; sourceHandle := None; targetHandle := None |} ].

Definition example_groups : list (list string) := [["text-1"; "crop-1"]; ["llm-1"]].

Definition example_collaborators : collaborators :=
  {| crop := fun _ _ => Throw "unused";
     frame_world := fun _ => Frame.demo_world;
     llm := fun _ _ => Throw "unused" |}.

Definition text_task (s : task_state) : task := {| group := 0; node := text_node; st := s |}.
Definition crop_task (s : task_state) : task := {| group := 0; node := crop_node; st := s |}.

(** Both nodes of the first wave are dispatched and started; the text node
    succeeds after 5 ms, the crop node fails after 7 ms. *)
Definition example_run : config :=
  let cf0 := initial example_nodes 0 in
  let cf1 := dispatch example_nodes cf0 ["text-1"; "crop-1"] in
  let cf2 := begin example_edges cf1 0 (text_task Starting) 10 in
  let cf3 := begin example_edges cf2 1 (crop_task Starting) 11 in
  let cf4 := succeed cf3 0 (text_task (Executing 10 [])) 10 15 (VStr "hello") in
  fail cf4 1 (crop_task (Executing 11 [])) 11 18 "No image input connected".

(** The engine then marks the run FAILED. *)
Definition example_final : config := finish example_run RUN_FAILED.

End Engine.

(* ===================================================================== *)
(** * Graph queries and the execution subgraph (src/lib/dag.ts)           *)
(* ===================================================================== *)

Module DagQueries.
Import Dag.

(** Lines 169-173: the reverse adjacency (target -> sources) over the
    edges whose endpoints both are node ids. *)
Definition add_source (nodeIds : list string) (reverseAdjacency : gmap string (list string))
           (edge : DAGEdge) : gmap string (list string) :=
  if has nodeIds (source edge) && has nodeIds (target edge) then
    alter (fun sources => sources ++ [source edge]) (target edge) reverseAdjacency
  else reverseAdjacency.

Definition reverse_adjacency (nodeIds : list string) (edges : list DAGEdge)
  : gmap string (list string) :=
  fold_left (add_source nodeIds) edges (init_map [] nodeIds ∅).

(** Lines 206-210: the forward adjacency (source -> targets). *)
Definition add_target (nodeIds : list string) (adjacencyList : gmap string (list string))
           (edge : DAGEdge) : gmap string (list string) :=
  if has nodeIds (source edge) && has nodeIds (target edge) then
    alter (fun targets => targets ++ [target edge]) (source edge) adjacencyList
  else adjacencyList.

Definition forward_adjacency (nodeIds : list string) (edges : list DAGEdge)
  : gmap string (list string) :=
  fold_left (add_target nodeIds) edges (init_map [] nodeIds ∅).

(** The inner [for] loop of the search (lines 184-188 and 221-225): a
    neighbor that is not visited joins the queue. *)
Definition enqueue (visited : list string) (queue : list string) (neighbor : string)
  : list string :=
  if negb (has visited neighbor) then queue ++ [neighbor] else queue.

(** The [while (queue.length > 0)] loop (lines 179-189 and 216-226, the
    same loop over the reverse and over the forward adjacency). [fuel]
    bounds the number of iterations; [None] means the bound was too small. *)
Fixpoint search (fuel : nat) (adjacency : gmap string (list string))
         (visited queue : list string) : option (list string) :=
  match queue with
  | [] => Some visited
  | current :: queue =>
      match fuel with
      | O => None
      | S fuel' =>
          if has visited current then search fuel' adjacency visited queue
          else
            let visited := add visited current in
            search fuel' adjacency visited
                   (fold_left (enqueue visited) (default [] (adjacency !! current)) queue)
      end
  end.

(** [getUpstreamNodes] (lines 162-194). Every iteration either drops a
    queue entry or visits a new node and pushes one entry per incoming
    edge of it, so one more than the number of edges bounds the
    iterations. *)
Definition getUpstreamNodes (nodeId : string) (nodes : list DAGNode) (edges : list DAGEdge)
  : option (list string) :=
  let nodeIds := set_of (map id nodes) in
  let reverseAdjacency := reverse_adjacency nodeIds edges in
  match search (S (List.length edges)) reverseAdjacency [] [nodeId] with
  | Some visited => Some (remove nodeId visited)
  | None => None
  end.

(** [getDownstreamNodes] (lines 199-231). *)
Definition getDownstreamNodes (nodeId : string) (nodes : list DAGNode) (edges : list DAGEdge)
  : option (list string) :=
  let nodeIds := set_of (map id nodes) in
  let adjacencyList := forward_adjacency nodeIds edges in
  match search (S (List.length edges)) adjacencyList [] [nodeId] with
  | Some visited => Some (remove nodeId visited)
  | None => None
  end.

(** [getExecutionSubgraph<T extends DAGNode>] (lines 254-273). The
    function reads the id of a node and the endpoints of an edge and hands
    back the objects it was given, so the model is generic in both. *)
Section ExecutionSubgraph.
Context {T E : Type}.
Variable node_id : T -> string.
Variable edge_source edge_target : E -> string.

Definition as_node (n : T) : DAGNode := {| id := node_id n |}.

Definition as_edge (e : E) : DAGEdge :=
  {| source := edge_source e; target := edge_target e |}.

(** One round of the loop of lines 262-265. *)
Definition require_upstream (nodes : list T) (edges : list E)
           (allRequired : option (list string)) (nodeId : string) : option (list string) :=
  match allRequired with
  | Some allRequired =>
      match getUpstreamNodes nodeId (map as_node nodes) (map as_edge edges) with
      | Some upstream => Some (fold_left add upstream allRequired)
      | None => None
      end
  | None => None
  end.

Definition getExecutionSubgraph (selectedNodeIds : list string) (nodes : list T)
           (edges : list E) : option (list T * list E) :=
  match fold_left (require_upstream nodes edges) selectedNodeIds
                  (Some (set_of selectedNodeIds)) with
  | Some allRequired =>
      let filteredNodes := List.filter (fun n => has allRequired (node_id n)) nodes in
      let filteredEdges :=
        List.filter (fun e => has allRequired (edge_source e) && has allRequired (edge_target e))
                    edges in
      Some (filteredNodes, filteredEdges)
  | None => None
  end.

End ExecutionSubgraph.

(** ** Vocabulary of the search's correctness argument *)

(** The sources of the valid edges that enter [v], in edge order. *)
Definition predecessors (nodeIds : list string) (edges : list DAGEdge) (v : string) : list string :=
  map source (List.filter (fun e => valid_edge nodeIds e && String.eqb (target e) v) edges).

(** The number of queue entries the nodes not in [visited] can still
    cause, over the reverse and over the forward adjacency. *)
Definition unexplored_in (nodeIds : list string) (edges : list DAGEdge) (visited : list string) : nat :=
  List.length (List.filter (fun e => valid_edge nodeIds e && negb (has visited (target e))) edges).

Definition unexplored_out (nodeIds : list string) (edges : list DAGEdge) (visited : list string) : nat :=
  List.length (List.filter (fun e => valid_edge nodeIds e && negb (has visited (source e))) edges).

(** A selected id, or a node from which a selected id can be reached. *)
Definition required (nodes : list DAGNode) (edges : list DAGEdge) (selected : list string)
           (x : string) : Prop :=
  exists s, s ∈ selected /\ rtc (edge_rel nodes edges) x s.

End DagQueries.

(* ===================================================================== *)
(** * Planning a run (src/app/api/runs/route.ts, POST)                    *)
(* ===================================================================== *)

Module Runs.
Import Dag DagQueries.
Local Open Scope string_scope.

(** The graph functions read [id], [source] and [target] of the objects
    of the request body. *)
Definition dag_nodes (nodes : list Engine.WorkflowNode) : list DAGNode :=
  map (as_node Engine.id) nodes.

Definition dag_edges (edges : list Engine.WorkflowEdge) : list DAGEdge :=
  map (as_edge Engine.source Engine.target) edges.

(** What the handler has decided when it reaches line 85: a 400 response,
    or the nodes, edges and groups it hands to the engine. *)
Inductive planned : Type :=
| BadRequest (error : string)
| Execute (nodesToExecute : list Engine.WorkflowNode)
          (edgesToExecute : list Engine.WorkflowEdge)
          (parallelGroups : list (list string)).

(** [selectedNodes?.length > 0] *)
Definition has_selection (selectedNodes : option (list string)) : bool :=
  match selectedNodes with
  | Some l => (0 <? List.length l)%nat
  | None => false
  end.

(** Lines 61-83 of [POST]; [scope] defaults to ['FULL']. *)
Definition plan (nodes : list Engine.WorkflowNode) (edges : list Engine.WorkflowEdge)
           (scope : option string) (selectedNodes : option (list string)) : option planned :=
  let scope := default "FULL" scope in
  match validateDAG (dag_nodes nodes) (dag_edges edges) with
  | None => None
  | Some (Invalid error) =>
      Some (BadRequest (if String.eqb error "" then "Invalid workflow graph" else error))
  | Some Valid =>
      let subgraph :=
        if negb (String.eqb scope "FULL") && has_selection selectedNodes then
          getExecutionSubgraph Engine.id Engine.source Engine.target
                               (default [] selectedNodes) nodes edges
        else Some (nodes, edges) in
      match subgraph with
      | None => None
      | Some (nodesToExecute, edgesToExecute) =>
          match getParallelGroups (dag_nodes nodesToExecute) (dag_edges edgesToExecute) with
          | Some parallelGroups => Some (Execute nodesToExecute edgesToExecute parallelGroups)
          | None => None
          end
      end
  end.

End Runs.

(* ===================================================================== *)
(** * The execution engine: data flow, completion and a bound on its steps *)
(* ===================================================================== *)

Module Flow.
Import JS Engine.
Local Open Scope string_scope.

Section Vocabulary.
Variable nodes : list WorkflowNode.
Variable edges : list WorkflowEdge.
Variable parallelGroups : list (list string).

(** Every edge into a scheduled node comes from a node of a strictly
    earlier group. *)
Definition ordered : Prop :=
  forall e, e ∈ edges ->
    forall j, Dag.in_wave parallelGroups j (target e) ->
      exists i, (i < j)%nat /\ Dag.in_wave parallelGroups i (source e).

(** Group [i] has been dispatched. *)
Definition dispatched (cf : config) (i : nat) : Prop :=
  (i < groupIndex cf)%nat \/ (i = groupIndex cf /\ now_phase cf <> AtGroup).

(** What holds of every configuration a run can reach, beyond
    [Engine.invariant]: the output map holds the outputs of the tasks that
    succeeded and nothing else; every node of a dispatched group has its
    task; a task that has not started yet still has its PENDING log; and
    the run is COMPLETED only past the last group. *)
Record flow (start : Z) (cf : config) : Prop := {
  flow_outputs : forall x v,
    outputs cf !! x = Some v <->
    exists t elapsed, t ∈ tasks cf /\ taskid t = x /\ st t = Fulfilled v elapsed;
  flow_cover : forall i grp x,
    parallelGroups !! i = Some grp -> x ∈ grp -> dispatched cf i ->
    is_Some (nodeMap nodes !! x) ->
    exists t, t ∈ tasks cf /\ group t = i /\ taskid t = x;
  flow_starting : forall t,
    t ∈ tasks cf -> st t = Starting -> logs cf !! taskid t = Some (pending_log start);
  flow_done : run cf = COMPLETED -> parallelGroups !! groupIndex cf = None
}.

(** The upstream data a running task was given is what the output map
    still says. *)
Definition inputs_current (cf : config) : Prop :=
  forall t startTime upstreamData,
    t ∈ tasks cf -> st t = Executing startTime upstreamData ->
    upstreamData = collect_upstream edges (outputs cf) (taskid t).

(** ** A measure that every step decreases *)

Definition task_weight (t : task) : nat :=
  match st t with
  | Starting => 2
  | Executing _ _ => 1
  | Fulfilled _ _ | Rejected _ _ => 0
  end.

Definition phase_weight (p : phase) : nat :=
  match p with
  | AtGroup => 1
  | Awaiting => 2
  | Finished => 0
  end.

Definition group_weight (grp : list string) : nat :=
  2 * List.length (spawn nodes 0 grp) + 2.

(** The groups the loop has not reached yet. *)
Definition undispatched (cf : config) : list (list string) :=
  skipn (match now_phase cf with
        | AtGroup => groupIndex cf
        | _ => S (groupIndex cf)
        end) parallelGroups.

Definition potential (cf : config) : nat :=
  phase_weight (now_phase cf)
  + sum_list_with task_weight (tasks cf)
  + sum_list_with group_weight (undispatched cf).

End Vocabulary.

(** The order in which the status of a log may change. *)
Definition status_succ (a b : NodeStatus) : Prop :=
  (a = PENDING /\ b = RUNNING) \/ (a = RUNNING /\ b = SUCCESS) \/ (a = RUNNING /\ b = FAILED).

(** ** An example run: a text node feeding an LLM node that echoes its
    first input. *)

Definition pipeline_nodes : list WorkflowNode := [text_node; llm_node].

Definition pipeline_edges : list WorkflowEdge :=
  [ {| source := "text-1"; target := "llm-1"; sourceHandle := None; targetHandle := None |} ].

Definition pipeline_groups : list (list string) := [["text-1"]; ["llm-1"]].

Definition echo : collaborators :=
  {| crop := fun _ _ => Throw "unused";
     frame_world := fun _ => Frame.demo_world;
     llm := fun _ upstreamData => Ok (first_output upstreamData) |}.

Definition llm_task (s : task_state) : task := {| group := 1; node := llm_node; st := s |}.

Definition llm_input : list upstream :=
  [ {| nodeId := "text-1"; output := VStr "hello"; handle := None |} ].

(** The text node has succeeded and the LLM node is running. *)
Definition pipeline_running : config :=
  let cf0 := initial pipeline_nodes 0 in
  let cf1 := dispatch pipeline_nodes cf0 ["text-1"] in
  let cf2 := begin pipeline_edges cf1 0 (text_task Starting) 10 in
  let cf3 := succeed cf2 0 (text_task (Executing 10 [])) 10 15 (VStr "hello") in
  let cf4 := advance cf3 in
  let cf5 := dispatch pipeline_nodes cf4 ["llm-1"] in
  begin pipeline_edges cf5 1 (llm_task Starting) 20.

(** The log of the LLM node while it runs. *)
Definition llm_running_log : NodeLog :=
  {| status := RUNNING; log_output := None; error := None; duration := None;
     startedAt := 20; completedAt := None |}.

(** The LLM node has succeeded as well. *)
Definition pipeline_succeeded : config :=
  succeed pipeline_running 1 (llm_task (Executing 20 llm_input)) 20 30 (VStr "hello").

(** The engine has left the loop and marked the run COMPLETED. *)
Definition pipeline_completed : config := finish (advance pipeline_succeeded) COMPLETED.

End Flow.

(* ===================================================================== *)
(** * Frame extraction: the calls to the collaborators                    *)
(* ===================================================================== *)

Module FrameCalls.
Import JS Frame.
Local Open Scope string_scope.

(** The call that puts the video into the temporary directory. *)
Definition materializes (videoInput : string) (e : event) : Prop :=
  (exists base64, e = EvWriteVideo base64) \/ e = EvDownload videoInput (100 * 1024 * 1024).

(** The calls of a local extraction that runs to its end. *)
Definition full_run (first : event) (seek : Q) : list event :=
  [first; EvProbe; EvExtract seek; EvStoreFrame].

(** A plain HTTP video and the seek position of its middle frame in the
    10 s clip of [demo_world]. *)
Definition demo_video : string := "https://example.com/videos/name.mp4".

Definition demo_seek : Q :=
  Eval vm_compute in match seekSeconds "50%" 10 with Ok s => s | Throw _ => 0%Q end.

End FrameCalls.

(* ===================================================================== *)
(** * The extract-frame task (its [run] function)                         *)
(* ===================================================================== *)

Module FrameTask.
Import JS.
Local Open Scope string_scope.

(** Calls made to the collaborators, in the order they are issued. *)
Inductive call : Type :=
| Mkdir
| Download (url : string) (maxBytes : Z)
| Probe
| Extract (seekTime : Q)
| ReadFrame
| Cleanup.

(** What the collaborators answer during one run; the probe answers a
    finite duration. *)
Record world : Type := {
  mkdir_outcome : result unit;
  download_outcome : result unit;
  probe_outcome : result Q;
  extract_outcome : result unit;
  (** [imageBuffer.toString("base64")] of the frame that was read *)
  read_outcome : result string;
  (** [x.toFixed(3)] of the runtime *)
  toFixed3 : Q -> string
}.

(** [ExtractionResult] *)
Record ExtractionResult : Type := {
  nodeId : string;
  runId : string;
  output : string;
  extractedAt : string;
  duration : Q;
  success : bool;
  error : option string
}.

Definition M (A : Type) : Type := (result A * list call)%type.

Definition ret {A} (a : A) : M A := (Ok a, []).
Definition throw {A} (message : string) : M A := (Throw message, []).
Definition ask {A} (c : call) (answer : result A) : M A := (answer, [c]).
Definition lift {A} (r : result A) : M A := (r, []).
Definition bind {A B} (m : M A) (f : A -> M B) : M B :=
  match m with
  | (Ok a, t) => let '(r, t') := f a in (r, (t ++ t')%list)
  | (Throw e, t) => (Throw e, t)
  end.

(** [MAX_VIDEO_SIZE_BYTES] *)
Definition MAX_VIDEO_SIZE_BYTES : Z := 100 * 1024 * 1024.

(** The body of the [try] block (lines 59-106). *)
Definition attempt (w : world) (videoUrl timestamp node run outputFormat : string)
  : M ExtractionResult :=
  bind (ask Mkdir (mkdir_outcome w)) (fun _ =>
  bind (ask (Download videoUrl MAX_VIDEO_SIZE_BYTES) (download_outcome w)) (fun _ =>
  bind (ask Probe (probe_outcome w)) (fun d =>
  bind (lift (Frame.seekTime timestamp d)) (fun seekTime =>
  bind (ask (Extract seekTime) (extract_outcome w)) (fun _ =>
  bind (ask ReadFrame (read_outcome w)) (fun base64 =>
  ret {| nodeId := node; runId := run;
         output := "data:image/" ++ outputFormat ++ ";base64," ++ base64;
         extractedAt := toFixed3 w seekTime; duration := d;
         success := true; error := None |})))))).

(** [run] (lines 41-138): validation, then
    [try { ... } catch { return failure } finally { cleanup }]. *)
Definition run (w : world) (videoUrl timestamp : option string) (node run : string)
           (outputFormat : option string) : M ExtractionResult :=
  let outputFormat := default "jpg" outputFormat in
  match videoUrl with
  | None | Some "" => throw "Invalid video URL provided."
  | Some videoUrl =>
      if negb (startsWith "http" videoUrl) then throw "Invalid video URL provided."
      else
        match timestamp with
        | None | Some "" => throw "Timestamp is required."
        | Some timestamp =>
            let '(r, calls) := attempt w videoUrl timestamp node run outputFormat in
            (match r with
             | Ok result => Ok result
             | Throw errorMessage =>
                 Ok {| nodeId := node; runId := run; output := ""; extractedAt := "";
                       duration := 0; success := false; error := Some errorMessage |}
             end, (calls ++ [Cleanup])%list)
        end
  end.

(** The calls of a run that extracts a frame. *)
Definition full_run (videoUrl : string) (seekTime : Q) : list call :=
  [Mkdir; Download videoUrl MAX_VIDEO_SIZE_BYTES; Probe; Extract seekTime; ReadFrame].

End FrameTask.

(* ===================================================================== *)
(** * Node types and the connections between them (lib/types.ts)          *)
(* ===================================================================== *)

Module Types.
Local Open Scope string_scope.

(** [NodeTypes] *)
Definition TEXT : string := "textNode".
Definition IMAGE_UPLOAD : string := "imageUploadNode".
Definition CROP_IMAGE : string := "cropImageNode".
Definition VIDEO_UPLOAD : string := "videoUploadNode".
Definition EXTRACT_FRAME : string := "extractFrameNode".
Definition LLM : string := "llmNode".

(** [getNodeOutputTypes]: a [switch] over the node type. *)
Definition getNodeOutputTypes (nodeType : string) : list string :=
  if String.eqb nodeType TEXT then ["text"]
  else if String.eqb nodeType LLM then ["text"; "image_url"]
  else if String.eqb nodeType IMAGE_UPLOAD || String.eqb nodeType CROP_IMAGE
          || String.eqb nodeType EXTRACT_FRAME then ["image_url"]
  else if String.eqb nodeType VIDEO_UPLOAD then ["video_url"]
  else ["text"].

(** [getNodeInputTypes] *)
Definition getNodeInputTypes (nodeType : string) : list string :=
  if String.eqb nodeType TEXT then []
  else if String.eqb nodeType IMAGE_UPLOAD then []
  else if String.eqb nodeType CROP_IMAGE then ["image_url"]
  else if String.eqb nodeType VIDEO_UPLOAD then []
  else if String.eqb nodeType EXTRACT_FRAME then ["video_url"]
  else if String.eqb nodeType LLM then ["text"; "image_url"]
  else [].

(** [canConnect]: [outputTypes.some(ot => acceptedInputs.includes(ot))]. *)
Definition canConnect (sourceType targetType : string) : bool :=
  let outputTypes := getNodeOutputTypes sourceType in
  let acceptedInputs := getNodeInputTypes targetType in
  existsb (fun ot => existsb (String.eqb ot) acceptedInputs) outputTypes.

End Types.

(* ===================================================================== *)
(** * The editor's store: editing the graph and its history (lib/store.ts) *)
(* ===================================================================== *)

Module Store.
Import Dag DagQueries.
Local Open Scope string_scope.

(** What the actions below read of a node: its id, its [type] and
    [data.type]. *)
Record WorkflowNode : Type := {
  id : string;
  type : string;
  data_type : string
}.

Record Edge : Type := {
  edge_id : string;
  source : string;
  target : string;
  sourceHandle : option string;
  targetHandle : option string
}.

Record Connection : Type := {
  c_source : string;
  c_target : string;
  c_sourceHandle : option string;
  c_targetHandle : option string
}.

Record HistoryState : Type := {
  h_nodes : list WorkflowNode;
  h_edges : list Edge
}.

(** The fields of [WorkflowState] that the editing actions touch. *)
Record state : Type := {
  nodes : list WorkflowNode;
  edges : list Edge;
  selectedNodes : list string;
  history : list HistoryState;
  historyIndex : Z
}.

(** The store as it is created, and after [resetWorkflow]. *)
Definition empty : state :=
  {| nodes := []; edges := []; selectedNodes := []; history := []; historyIndex := -1 |}.

(** [loadWorkflow] *)
Definition loadWorkflow (ns : list WorkflowNode) (es : list Edge) : state :=
  {| nodes := ns; edges := es; selectedNodes := [];
     history := [ {| h_nodes := ns; h_edges := es |} ]; historyIndex := 0 |}.

(** The graph functions read [id], [source] and [target]. *)
Definition dag_nodes (ns : list WorkflowNode) : list DAGNode := map (as_node id) ns.
Definition dag_edges (es : list Edge) : list DAGEdge := map (as_edge source target) es.

(** [a.slice(0, stop)]: a negative [stop] counts from the end. *)
Definition slice0 {A} (stop : Z) (a : list A) : list A :=
  if (stop <? 0)%Z then take (Z.to_nat (Z.of_nat (List.length a) + stop)) a
  else take (Z.to_nat stop) a.

(** [a[i]], [undefined] outside the array. *)
Definition at_index {A} (a : list A) (i : Z) : option A :=
  if (i <? 0)%Z then None else a !! Z.to_nat i.

(** [pushHistory] (lines 370-384). *)
Definition pushHistory (s : state) : state :=
  let newHistory := slice0 (historyIndex s + 1) (history s) in
  let newHistory := (newHistory ++ [ {| h_nodes := nodes s; h_edges := edges s |} ])%list in
  let newHistory := if (50 <? List.length newHistory)%nat then tail newHistory else newHistory in
  {| nodes := nodes s; edges := edges s; selectedNodes := selectedNodes s;
     history := newHistory;
     historyIndex := Z.of_nat (List.length newHistory) - 1 |}.

(** [getDefaultNodeData(type).type] *)
Definition default_data_type (type : string) : string :=
  if String.eqb type Types.TEXT || String.eqb type Types.IMAGE_UPLOAD
     || String.eqb type Types.CROP_IMAGE || String.eqb type Types.VIDEO_UPLOAD
     || String.eqb type Types.EXTRACT_FRAME || String.eqb type Types.LLM
  then type else Types.TEXT.

Section Actions.
(** [addEdge] of the canvas library: the store takes the edges it hands
    back as they are. *)
Variable addEdge : Connection -> list Edge -> list Edge.

(** [onConnect] (lines 154-187). [None] stands for an exception. *)
Definition onConnect (connection : Connection) (s : state) : option state :=
  let sourceNode := List.find (fun n => String.eqb (id n) (c_source connection)) (nodes s) in
  let targetNode := List.find (fun n => String.eqb (id n) (c_target connection)) (nodes s) in
  match sourceNode, targetNode with
  | Some sourceNode, Some targetNode =>
      if negb (Types.canConnect (data_type sourceNode) (data_type targetNode)) then Some s
      else
        let newEdges := addEdge connection (edges s) in
        match validateDAG (dag_nodes (nodes s)) (dag_edges newEdges) with
        | None => None
        | Some (Invalid _) => Some s
        | Some Valid =>
            let s := pushHistory s in
            Some {| nodes := nodes s; edges := newEdges; selectedNodes := selectedNodes s;
                    history := history s; historyIndex := historyIndex s |}
        end
  | _, _ => Some s
  end.

(** [addNode] (lines 189-207); [uuid] is what [uuidv4()] answers. *)
Definition addNode (uuid type : string) (s : state) : state :=
  let s := pushHistory s in
  let newNode := {| id := uuid; type := type; data_type := default_data_type type |} in
  {| nodes := (nodes s ++ [newNode])%list; edges := edges s; selectedNodes := selectedNodes s;
     history := history s; historyIndex := historyIndex s |}.

(** [deleteNode] (lines 219-230). *)
Definition deleteNode (nodeId : string) (s : state) : state :=
  let s := pushHistory s in
  {| nodes := List.filter (fun node => negb (String.eqb (id node) nodeId)) (nodes s);
     edges := List.filter (fun edge => negb (String.eqb (source edge) nodeId)
                                       && negb (String.eqb (target edge) nodeId)) (edges s);
     selectedNodes := List.filter (fun i => negb (String.eqb i nodeId)) (selectedNodes s);
     history := history s; historyIndex := historyIndex s |}.

(** [deleteEdge] (lines 232-239). *)
Definition deleteEdge (edgeId : string) (s : state) : state :=
  let s := pushHistory s in
  {| nodes := nodes s;
     edges := List.filter (fun edge => negb (String.eqb (edge_id edge) edgeId)) (edges s);
     selectedNodes := selectedNodes s;
     history := history s; historyIndex := historyIndex s |}.

(** [undo] (lines 346-356): reading [prevState.nodes] of a missing entry
    throws. *)
Definition undo (s : state) : option state :=
  if (0 <? historyIndex s)%Z then
    match at_index (history s) (historyIndex s - 1) with
    | Some prevState =>
        Some {| nodes := h_nodes prevState; edges := h_edges prevState;
                selectedNodes := selectedNodes s;
                history := history s; historyIndex := historyIndex s - 1 |}
    | None => None
    end
  else Some s.

(** [redo] (lines 358-368). *)
Definition redo (s : state) : option state :=
  if (historyIndex s <? Z.of_nat (List.length (history s)) - 1)%Z then
    match at_index (history s) (historyIndex s + 1) with
    | Some nextState =>
        Some {| nodes := h_nodes nextState; edges := h_edges nextState;
                selectedNodes := selectedNodes s;
                history := history s; historyIndex := historyIndex s + 1 |}
    | None => None
    end
  else Some s.

(** The editing actions of the store. *)
Inductive action : Type :=
| OnConnect (connection : Connection)
| AddNode (uuid type : string)
| DeleteNode (nodeId : string)
| DeleteEdge (edgeId : string)
| PushHistory
| Undo
| Redo.

Definition apply (a : action) (s : state) : option state :=
  match a with
  | OnConnect connection => onConnect connection s
  | AddNode uuid type => Some (addNode uuid type s)
  | DeleteNode nodeId => Some (deleteNode nodeId s)
  | DeleteEdge edgeId => Some (deleteEdge edgeId s)
  | PushHistory => Some (pushHistory s)
  | Undo => undo s
  | Redo => redo s
  end.

(** A session: the actions one after the other. *)
Fixpoint run (actions : list action) (s : state) : option state :=
  match actions with
  | [] => Some s
  | a :: actions =>
      match apply a s with
      | Some s => run actions s
      | None => None
      end
  end.

End Actions.

(** The graph passes the validator. *)
Definition valid_graph (ns : list WorkflowNode) (es : list Edge) : Prop :=
  validateDAG (dag_nodes ns) (dag_edges es) = Some Valid.

(** What the editing actions keep: the graph on the canvas passes the
    validator, so does every snapshot of the history, the history holds at
    most 50 snapshots, and the index points into it (or is -1 for the
    empty history). *)
Record consistent (s : state) : Prop := {
  graph_valid : valid_graph (nodes s) (edges s);
  snapshots_valid : forall h, h ∈ history s -> valid_graph (h_nodes h) (h_edges h);
  history_capped : (List.length (history s) <= 50)%nat;
  index_in_history : -1 <= historyIndex s < Z.of_nat (List.length (history s))
}.

(** An [addEdge] for examples: the new edge goes to the end, with an id
    made of its endpoints. *)
Definition append_edge (connection : Connection) (es : list Edge) : list Edge :=
  (es ++ [ {| edge_id := (c_source connection ++ "-" ++ c_target connection)%string;
              source := c_source connection; target := c_target connection;
              sourceHandle := c_sourceHandle connection;
              targetHandle := c_targetHandle connection |} ])%list.

(** A session for examples: a video node and an extract-frame node are
    added and connected, and the video node is deleted again. *)
Definition demo_session : list action :=
  [ AddNode "v" Types.VIDEO_UPLOAD; AddNode "f" Types.EXTRACT_FRAME;
    OnConnect {| c_source := "v"; c_target := "f";
                 c_sourceHandle := None; c_targetHandle := None |};
    DeleteNode "v"; Undo; Redo ].

End Store.

(* ===================================================================== *)
(** * Topological order (src/lib/dag.ts, topologicalSort)                 *)
(* ===================================================================== *)

Module DagSort.
Import JS Dag.

(** The two maps of lines 65-66. [inDegree] is iterated, so its keys are
    kept in insertion order beside it. *)
Record built : Type := {
  adjacencyList : gmap string (list string);
  inDegree : gmap string Z;
  keys : list string
}.

(** Lines 69-72. *)
Definition initialize (nodeIds : list string) : built :=
  {| adjacencyList := init_map [] nodeIds ∅;
     inDegree := init_map 0 nodeIds ∅;
     keys := set_of nodeIds |}.

(** One round of the loop of lines 75-78. There is no test that the
    endpoints are nodes: [adjacencyList.get(edge.source)!.push] throws a
    TypeError for a source without an entry, and a target without a count
    gets one. *)
Definition add_edge_unchecked (g : result built) (edge : DAGEdge) : result built :=
  match g with
  | Throw message => Throw message
  | Ok g =>
      match adjacencyList g !! source edge with
      | None => Throw "Cannot read properties of undefined (reading 'push')"
      | Some targets =>
          Ok {| adjacencyList := <[source edge := targets ++ [target edge]]> (adjacencyList g);
                inDegree := <[target edge := default 0 (inDegree g !! target edge) + 1]>
                              (inDegree g);
                keys := add (keys g) (target edge) |}
      end
  end.

(** Lines 92-97 for one neighbor, which is the target of an edge and so
    has a count. *)
Definition relax (s : gmap string Z * list string) (neighbor : string)
  : gmap string Z * list string :=
  let inDegree := alter (fun d => d - 1) neighbor s.1 in
  (inDegree, if bool_decide (inDegree !! neighbor = Some 0) then s.2 ++ [neighbor] else s.2).

(** The [while (queue.length > 0)] loop (lines 88-98). [fuel] bounds the
    number of iterations; [None] means the bound was too small. *)
Fixpoint drain (fuel : nat) (adjacencyList : gmap string (list string))
         (inDegree : gmap string Z) (queue sorted : list string) : option (list string) :=
  match queue with
  | [] => Some sorted
  | nodeId :: queue =>
      match fuel with
      | O => None
      | S fuel' =>
          let sorted := sorted ++ [nodeId] in
          let s := fold_left relax (default [] (adjacencyList !! nodeId)) (inDegree, queue) in
          drain fuel' adjacencyList s.1 s.2 sorted
      end
  end.

(** [topologicalSort] (lines 63-101). An id enters the queue when its
    count is or becomes zero, so the number of counted ids bounds the
    iterations. *)
Definition topologicalSort (nodes : list DAGNode) (edges : list DAGEdge)
  : option (result (list string)) :=
  let nodeIds := map id nodes in
  match fold_left add_edge_unchecked edges (Ok (initialize nodeIds)) with
  | Throw message => Some (Throw message)
  | Ok g =>
      let queue := zero_in_degree (inDegree g) (keys g) in
      match drain (List.length (keys g)) (adjacencyList g) (inDegree g) queue [] with
      | Some sorted => Some (Ok sorted)
      | None => None
      end
  end.

(** ** Vocabulary *)

(** Some edge leads from [u] to [v]. *)
Definition link (edges : list DAGEdge) (u v : string) : Prop :=
  exists e, e ∈ edges /\ source e = u /\ target e = v.

(** [u] stands before [v] in the list. *)
Definition before (l : list string) (u v : string) : Prop :=
  exists i j, (i < j)%nat /\ l !! i = Some u /\ l !! j = Some v.

(** The targets of the edges that leave [u], and the number of edges
    into [v]. *)
Definition targets_of (edges : list DAGEdge) (u : string) : list string :=
  map target (List.filter (fun e => String.eqb (source e) u) edges).

Definition count_into (edges : list DAGEdge) (v : string) : nat :=
  List.length (List.filter (fun e => String.eqb (target e) v) edges).

(** Every predecessor of a listed id is listed before it. *)
Definition precede (ids : list string) (edges : list DAGEdge) (s : list string) : Prop :=
  forall j v, s !! j = Some v ->
    forall u, arrow ids edges u v -> exists i, (i < j)%nat /\ s !! i = Some u.

(** The state of the loop: [R] holds the ids that are not sorted yet. *)
Definition queue_inv (ids : list string) (edges : list DAGEdge)
           (R : list string) (d : gmap string Z) (q s : list string) : Prop :=
  wave_inv ids edges R d /\
  NoDup q /\
  (forall v, v ∈ q <-> v ∈ R /\ forall u, u ∈ R -> ~ arrow ids edges u v) /\
  NoDup s /\
  (forall x, x ∈ ids <-> x ∈ s \/ x ∈ R) /\
  (forall x, x ∈ s -> x ∉ R) /\
  precede ids edges s.

End DagSort.

(* ===================================================================== *)
(** * PART II: properties                                                 *)
(* ===================================================================== *)

Section CropProperties.
Import JS Crop.

Lemma round_integer (q : Q) (z : Z) : (q == inject_Z z)%Q -> round q = z.
Proof.
  intros Hq. unfold round.
  assert (E : (q + (1 # 2) == inject_Z z + (1 # 2))%Q) by (rewrite Hq; reflexivity).
  rewrite (Qfloor_comp _ _ E).
  unfold Qfloor, inject_Z, Qplus; simpl.
  rewrite Z.mul_1_r. symmetry. apply Z.div_unique with (r := 1); lia.
Qed.

Lemma round_nonneg (q : Q) : (0 <= q)%Q -> 0 <= round q.
Proof.
  intros Hq. unfold round.
  change 0 with (Qfloor 0). apply Qfloor_resp_le.
  apply Qle_trans with q; [exact Hq|].
  rewrite <- (Qplus_0_r q) at 1. apply Qplus_le_r. discriminate.
Qed.

(** Both implementations apply the same rule once the percentages are
    fixed: the client applies it to its parameters as given. *)
Lemma cropImageClient_spec (W H : Z) (x y w h : Q) :
  cropImageClient W H x y w h = spec_rect W H x y w h.
Proof. reflexivity. Qed.

(** The engine applies it to the defaulted percentages and dimensions. *)
Lemma executeCropImageNode_region_defaulted (d : crop_data) (mw mh : option Z) :
  executeCropImageNode_region d mw mh =
  spec_rect (dimension_or mw 1024) (dimension_or mh 1024)
            (number_or (xPercent d) 0) (number_or (yPercent d) 0)
            (number_or (widthPercent d) 100) (number_or (heightPercent d) 100).
Proof. reflexivity. Qed.

Lemma number_or_nonzero (q d : Q) : ~ (q == 0)%Q -> number_or (Some q) d = q.
Proof.
  intros Hq. unfold number_or.
  destruct (Qeq_bool q 0) eqn:E; [|reflexivity].
  apply Qeq_bool_eq in E. contradiction.
Qed.

Lemma spec_offset_range (p : Q) (size : Z) :
  1 <= size -> 0 <= round ((p / 100) * inject_Z size) ->
  0 <= spec_offset p size <= size - 1.
Proof. unfold spec_offset. lia. Qed.

Lemma spec_extent_range (p : Q) (size off : Z) :
  0 <= off <= size - 1 ->
  1 <= spec_extent p size off /\ off + spec_extent p size off <= size.
Proof. unfold spec_extent. lia. Qed.

Lemma spec_offset_comp (p p' : Q) (size : Z) :
  (p == p')%Q -> spec_offset p size = spec_offset p' size.
Proof.
  intros Hp. unfold spec_offset, round. f_equal.
  apply Qfloor_comp. rewrite Hp. reflexivity.
Qed.

Lemma number_or_zero_default (q : Q) : (number_or (Some q) 0 == q)%Q.
Proof.
  unfold number_or. destruct (Qeq_bool q 0) eqn:E; [|reflexivity].
  apply Qeq_bool_eq in E. symmetry. exact E.
Qed.

Lemma percent_scaled_nonneg (p : Q) (size : Z) :
  (0 <= p)%Q -> 1 <= size -> 0 <= round ((p / 100) * inject_Z size).
Proof.
  intros Hp Hs. apply round_nonneg.
  apply Qmult_le_0_compat.
  - apply Qle_shift_div_l; [reflexivity|]. rewrite Qmult_0_l. exact Hp.
  - change 0%Q with (inject_Z 0). rewrite <- Zle_Qle. lia.
Qed.

(** Away from a zero width or height the engine follows the rule of the
    specification, and the rectangle stays inside the image and keeps at
    least one pixel per axis. *)
Lemma executeCropImageNode_region_rule (W H : Z) (x y w h : Q) :
  1 <= W -> 1 <= H ->
  (0 <= x)%Q -> (0 <= y)%Q -> ~ (w == 0)%Q -> ~ (h == 0)%Q ->
  let r := executeCropImageNode_region
             {| xPercent := Some x; yPercent := Some y;
                widthPercent := Some w; heightPercent := Some h |}
             (Some W) (Some H) in
  r = spec_rect W H x y w h /\
  0 <= left r /\ 0 <= top r /\ 1 <= cropWidth r /\ 1 <= cropHeight r /\
  left r + cropWidth r <= W /\ top r + cropHeight r <= H.
Proof.
  intros HW HH Hx Hy Hw Hh r.
  assert (Er : r = spec_rect W H x y w h).
  { subst r. rewrite executeCropImageNode_region_defaulted. cbn [xPercent yPercent widthPercent heightPercent].
    rewrite (number_or_nonzero w), (number_or_nonzero h) by assumption.
    unfold dimension_or.
    destruct (Z.eqb_spec W 0); [lia|]. destruct (Z.eqb_spec H 0); [lia|].
    unfold spec_rect.
    rewrite (spec_offset_comp _ x W (number_or_zero_default x)).
    rewrite (spec_offset_comp _ y H (number_or_zero_default y)).
    reflexivity. }
  split; [exact Er|]. rewrite Er. cbn [left top cropWidth cropHeight spec_rect].
  pose proof (spec_offset_range x W HW (percent_scaled_nonneg x W Hx HW)) as Hl.
  pose proof (spec_offset_range y H HH (percent_scaled_nonneg y H Hy HH)) as Ht.
  pose proof (spec_extent_range w W _ Hl). pose proof (spec_extent_range h H _ Ht).
  lia.
Qed.

(** The client-side crop follows the rule for every input, zero included. *)
Lemma cropImageClient_rule (W H : Z) (x y w h : Q) :
  1 <= W -> 1 <= H -> (0 <= x)%Q -> (0 <= y)%Q ->
  let r := cropImageClient W H x y w h in
  r = spec_rect W H x y w h /\
  0 <= left r /\ 0 <= top r /\ 1 <= cropWidth r /\ 1 <= cropHeight r /\
  left r + cropWidth r <= W /\ top r + cropHeight r <= H.
Proof.
  intros HW HH Hx Hy r. split; [reflexivity|].
  subst r. rewrite cropImageClient_spec. cbn [left top cropWidth cropHeight spec_rect].
  pose proof (spec_offset_range x W HW (percent_scaled_nonneg x W Hx HW)) as Hl.
  pose proof (spec_offset_range y H HH (percent_scaled_nonneg y H Hy HH)) as Ht.
  pose proof (spec_extent_range w W _ Hl). pose proof (spec_extent_range h H _ Ht).
  lia.
Qed.

(** x=0, y=0, width=100, height=100 selects the whole image. *)
Lemma executeCropImageNode_region_full (W H : Z) :
  1 <= W -> 1 <= H ->
  executeCropImageNode_region
    {| xPercent := Some 0%Q; yPercent := Some 0%Q;
       widthPercent := Some 100%Q; heightPercent := Some 100%Q |} (Some W) (Some H)
  = {| left := 0; top := 0; cropWidth := W; cropHeight := H |}.
Proof.
  intros HW HH. rewrite executeCropImageNode_region_defaulted.
  cbn [xPercent yPercent widthPercent heightPercent].
  change (number_or (Some 0%Q) 0) with 0%Q.
  change (number_or (Some 100%Q) 100) with 100%Q.
  unfold dimension_or.
  destruct (Z.eqb_spec W 0); [lia|]. destruct (Z.eqb_spec H 0); [lia|].
  unfold spec_rect, spec_extent, spec_offset.
  rewrite (round_integer ((0 / 100) * inject_Z W) 0), (round_integer ((0 / 100) * inject_Z H) 0)
    by (unfold Qeq; simpl; lia).
  rewrite (round_integer ((100 / 100) * inject_Z W) W), (round_integer ((100 / 100) * inject_Z H) H)
    by (unfold Qeq; simpl; lia).
  f_equal; lia.
Qed.

(** 100x100 image, x=90, width=50: left=90 and cropWidth=10. *)
Lemma executeCropImageNode_region_90_50 :
  let r := executeCropImageNode_region
             {| xPercent := Some 90%Q; yPercent := None;
                widthPercent := Some 50%Q; heightPercent := None |} (Some 100) (Some 100) in
  left r = 90 /\ cropWidth r = 10.
Proof. vm_compute. split; reflexivity. Qed.

(** C5 (divergence between the engine and the stated rule). A width of
    0 percent is in the stated range [0,100]; the rule gives a crop one
    pixel wide, and the client-side crop computes exactly that, but the
    engine reads the parameter through [|| 100], so the zero is replaced by
    100 and the crop takes the full remaining width. *)
Theorem executeCropImageNode_zero_width_is_full_width :
  let data := {| xPercent := Some 0%Q; yPercent := Some 0%Q;
                 widthPercent := Some 0%Q; heightPercent := Some 50%Q |} in
  cropWidth (executeCropImageNode_region data (Some 100) (Some 100)) = 100 /\
  cropWidth (spec_rect 100 100 0 0 0 50) = 1 /\
  cropWidth (cropImageClient 100 100 0 0 0 50) = 1.
Proof. vm_compute. repeat split; reflexivity. Qed.

End CropProperties.

(* --------------------------------------------------------------------- *)
(** ** Frame extraction: the seek position                                *)
(* --------------------------------------------------------------------- *)

Section FrameSeek.
Import JS Frame.
Local Open Scope string_scope.

Lemma Qltb_true (a b : Q) : Qltb a b = true <-> (a < b)%Q.
Proof.
  unfold Qltb. rewrite negb_true_iff. split.
  - intros H. apply Qnot_le_lt. intros Hle. apply Qle_bool_iff in Hle. congruence.
  - intros H. destruct (Qle_bool b a) eqn:E; [|reflexivity].
    apply Qle_bool_iff in E. exfalso. exact (Qlt_not_le _ _ H E).
Qed.

Lemma Qltb_false (a b : Q) : Qltb a b = false <-> (b <= a)%Q.
Proof.
  unfold Qltb. rewrite negb_false_iff. apply Qle_bool_iff.
Qed.

(** The outcome of the percentage branch, common to both executors. *)
Lemma percent_branch_rule (percent absolute : num) (duration : Q) (message : string) :
  seek_rule true percent absolute duration
    match percent with
    | Fin p => if Qltb p 0 || Qltb 100 p then Throw message else Ok ((p / 100) * duration)%Q
    | _ => Throw message
    end.
Proof.
  destruct percent as [| | |p];
    try (apply seek_percent_invalid; [reflexivity|intros p; discriminate]).
  destruct (Qltb p 0) eqn:E1; [|destruct (Qltb 100 p) eqn:E2]; simpl.
  - apply seek_percent_invalid; [reflexivity|]. intros p' [= <-]. left. now apply Qltb_true.
  - apply seek_percent_invalid; [reflexivity|]. intros p' [= <-]. right. now apply Qltb_true.
  - apply seek_percent with (p := p); try reflexivity; now apply Qltb_false.
Qed.

(** The outcome of the absolute branch, common to both executors. *)
Lemma absolute_branch_rule (percent absolute : num) (duration : Q) (message : string) :
  seek_rule false percent absolute duration
    match absolute with
    | NaN | NInf => Throw message
    | PInf => Ok (duration - (1 # 10))%Q
    | Fin t => if Qltb t 0 then Throw message
               else if Qltb duration t then Ok (duration - (1 # 10))%Q else Ok t
    end.
Proof.
  destruct absolute as [| | |t].
  - apply seek_absolute_invalid; [reflexivity|]. now left.
  - apply seek_absolute_clamped; [reflexivity|]. now left.
  - apply seek_absolute_invalid; [reflexivity|]. right. now left.
  - destruct (Qltb t 0) eqn:E1; [|destruct (Qltb duration t) eqn:E2].
    + apply seek_absolute_invalid; [reflexivity|]. right. right. exists t. split; [reflexivity|].
      now apply Qltb_true.
    + apply seek_absolute_clamped; [reflexivity|]. right. exists t.
      split; [reflexivity|]. split; [now apply Qltb_false|now apply Qltb_true].
    + apply seek_absolute with (t := t); try reflexivity; now apply Qltb_false.
Qed.

(** C2, as stated, fails on its closing example: 9.95 does not exceed
    10.0, so neither executor re-seeks it to 9.9. *)
Lemma seek_9_95_on_10_is_not_reseeked :
  ~ (exists s, seekSeconds "9.95" 10 = Ok s /\ (s == 99 # 10)%Q) /\
  ~ (exists s, seekSeconds "9.95s" 10 = Ok s /\ (s == 99 # 10)%Q) /\
  ~ (exists s, seekTime "9.95" 10 = Ok s /\ (s == 99 # 10)%Q).
Proof.
  repeat split; intros [s [E H]]; vm_compute in E; injection E as <-; vm_compute in H; discriminate.
Qed.

(** C2 (amended). Both executors follow the seek rule: a percentage is
    accepted exactly when it parses to a number in [0,100] and then seeks
    to percent/100 * duration; an absolute timestamp is accepted exactly
    when it parses to a number that is not negative, is kept when it does
    not exceed the duration and replaced by duration - 0.1 when it does.
    On a 10.0 s clip, 50 percent seeks to 5.0 s, 110 percent is rejected,
    9.95 s is kept as it is and 10.5 s is re-seeked to 9.9 s. *)
Theorem frame_seek_follows_rule (timestamp : string) (duration : Q) :
  seek_rule (endsWith "%" timestamp)
            (parseFloat (replace_first "%" "" timestamp))
            (parseFloat (replace_first "s" "" timestamp))
            duration (seekSeconds timestamp duration) /\
  seek_rule (endsWith "%" timestamp)
            (parseFloat (replace_first "%" "" timestamp))
            (parseFloat timestamp)
            duration (seekTime timestamp duration) /\
  (exists s, seekSeconds "50%" 10 = Ok s /\ (s == 5)%Q) /\
  seekSeconds "110%" 10 = Throw "Invalid percentage timestamp: 110%" /\
  (exists s, seekSeconds "9.95s" 10 = Ok s /\ (s == 995 # 100)%Q) /\
  (exists s, seekSeconds "10.5s" 10 = Ok s /\ (s == 99 # 10)%Q).
Proof.
  split; [|split].
  - unfold seekSeconds. destruct (endsWith "%" timestamp).
    + apply percent_branch_rule.
    + apply absolute_branch_rule.
  - unfold seekTime. destruct (endsWith "%" timestamp).
    + apply percent_branch_rule.
    + apply absolute_branch_rule.
  - repeat split; try (eexists; split; [vm_compute; reflexivity|reflexivity]).
Qed.

End FrameSeek.

(* --------------------------------------------------------------------- *)
(** ** Frame extraction: the Cloudinary shortcut                          *)
(* --------------------------------------------------------------------- *)

Section FrameShortcut.
Import JS Frame.
Local Open Scope string_scope.

Lemma append_snoc_nonempty (acc : string) (c : ascii) : acc ++ String c EmptyString <> "".
Proof. destruct acc; discriminate. Qed.

Lemma lazy_capture_nonempty (s acc g : string) : lazy_capture acc s = Some g -> g <> "".
Proof.
  revert acc. induction s as [|c s IH]; intros acc; simpl; [discriminate|].
  destruct (is_line_terminator c); [discriminate|].
  destruct (extension_to_end s).
  - intros [= <-]. apply append_snoc_nonempty.
  - apply IH.
Qed.

Lemma upload_here_nonempty (s g : string) : upload_here s = Some g -> g <> "".
Proof.
  unfold upload_here. destruct (String.prefix "/upload/" s); [|discriminate].
  destruct (version_segment (drop 8 s)) as [r'|].
  - destruct (lazy_capture "" r') eqn:E.
    + intros [= <-]. eapply lazy_capture_nonempty; eassumption.
    + apply lazy_capture_nonempty.
  - apply lazy_capture_nonempty.
Qed.

Lemma match_upload_nonempty (s g : string) : match_upload s = Some g -> g <> "".
Proof.
  induction s as [|c s IH].
  - discriminate.
  - change (match_upload (String c s))
      with (match upload_here (String c s) with
            | Some g => Some g
            | None => match_upload s
            end).
    destruct (upload_here (String c s)) eqn:E.
    + intros [= <-]. eapply upload_here_nonempty; eassumption.
    + exact IH.
Qed.

(** C10, as stated, fails when the Cloudinary URL builder throws: the
    executor catches the error and falls back to the local path, which
    downloads the video, probes it and rejects the timestamp "110%". *)
Lemma cloudinary_shortcut_lost_when_builder_throws :
  includes "cloudinary.com" cloudinary_video = true /\
  match_upload cloudinary_video = Some "folder/name" /\
  executeExtractFrameNode failing_builder_world (Some cloudinary_video) (Some "110%")
  = (Throw "Invalid percentage timestamp: 110%",
     [EvDownload cloudinary_video (100 * 1024 * 1024); EvProbe; EvCleanup]).
Proof. repeat split. Qed.

(** C10 (amended). For an HTTP video reference that contains
    [cloudinary.com] and matches the upload public-id pattern, what the
    executor does is decided by the Cloudinary URL builder, called with the
    public id (its first [.mp4] and then its first [.mov] replaced by
    [.jpg]), the number the timestamp parses to and whether the timestamp
    ends in a percent sign. When the builder returns, the executor returns
    that very URL at once: nothing is downloaded, probed, extracted or
    cleaned up and the timestamp is not validated, whatever it is. When the
    builder throws, the executor falls back to the local path: it starts
    with the download capped at 100 MiB, and once the download and the probe
    have succeeded a timestamp that the seek computation rejects is
    rejected with that error, after the cleanup. *)
Theorem cloudinary_shortcut_or_fallback
  (w : world) (videoInput publicId : string) (timestamp : option string) :
  startsWith "http" videoInput = true ->
  includes "cloudinary.com" videoInput = true ->
  match_upload videoInput = Some publicId ->
  let ts := effective_timestamp timestamp in
  let out := executeExtractFrameNode w (Some videoInput) timestamp in
  match cloudinary_url w (replace_first ".mov" ".jpg" (replace_first ".mp4" ".jpg" publicId))
                       (parseFloat ts) (endsWith "%" ts) with
  | Ok frameUrl => out = (Ok frameUrl, [])
  | Throw _ =>
      (exists calls, snd out = EvDownload videoInput (100 * 1024 * 1024) :: calls) /\
      forall d message,
        download_outcome w = Ok tt -> probe_outcome w = Ok d ->
        seekSeconds ts d = Throw message ->
        out = (Throw message, [EvDownload videoInput (100 * 1024 * 1024); EvProbe; EvCleanup])
  end.
Proof.
  intros Hhttp Hinc Hmatch ts out.
  pose proof (match_upload_nonempty _ _ Hmatch) as Hne.
  subst out. unfold executeExtractFrameNode.
  destruct videoInput as [|c v]; [discriminate Hinc|].
  fold (effective_timestamp timestamp). fold ts.
  rewrite Hinc, Hmatch.
  destruct (String.eqb_spec publicId ""); [contradiction|].
  unfold getVideoFrameUrl.
  destruct (cloudinary_url w _ (parseFloat ts) (endsWith "%" ts)) as [frameUrl|e];
    [reflexivity|].
  assert (Hdata : startsWith "data:" (String c v) = false).
  { unfold startsWith in *.
    change (String.prefix "http" (String c v))
      with (if Ascii.ascii_dec "h" c then String.prefix "ttp" v else false) in Hhttp.
    destruct (Ascii.ascii_dec "h" c) as [<-|Hc]; [reflexivity|discriminate Hhttp]. }
  rewrite Hdata, Hhttp. split.
  - unfold finally, bind, emit, lift. simpl.
    destruct (download_outcome w) as [[]|m]; simpl; [|eauto].
    destruct (probe_outcome w) as [d|m]; simpl; [|eauto].
    destruct (seekSeconds ts d) as [seek|m]; simpl; [|eauto].
    destruct (extract_outcome w) as [[]|m]; simpl; [|eauto].
    destruct (frame_exists w); simpl; eauto.
  - intros d message Hd Hp Hs. unfold finally, bind, emit, lift. simpl.
    rewrite Hd. simpl. rewrite Hp. simpl. rewrite Hs. reflexivity.
Qed.

(** An instance: with a builder that returns, the timestamp "110%" gives
    a frame URL and no call, while the local path rejects it on a plain
    HTTP video. *)
Lemma cloudinary_shortcut_110_percent :
  executeExtractFrameNode cloudinary_world (Some cloudinary_video) (Some "110%")
  = (Ok "https://res.cloudinary.com/demo/video/upload/so_110p/folder/name.jpg", []) /\
  fst (executeExtractFrameNode cloudinary_world (Some "https://example.com/videos/name.mp4")
                               (Some "110%"))
  = Throw "Invalid percentage timestamp: 110%".
Proof.
  split.
  - apply (cloudinary_shortcut_or_fallback cloudinary_world cloudinary_video "folder/name"
                                           (Some "110%"));
      reflexivity.
  - reflexivity.
Defined.

End FrameShortcut.

(* --------------------------------------------------------------------- *)
(** ** Probing the duration                                               *)
(* --------------------------------------------------------------------- *)

Section ProbeProperties.
Import JS Probe.
Local Open Scope string_scope.

(** Whenever the diagnostic text carries no duration token and does not
    mention invalid data, the ['close'] handler settles the promise with 0
    before it reaches its [reject]. *)
Lemma on_close_without_token_resolves_zero (stderr : string) :
  duration_match stderr = None ->
  includes "Invalid data found" stderr = false ->
  on_close stderr Pending = Resolved (Fin 0).
Proof.
  intros Hm Hi. unfold on_close. rewrite Hm, Hi. reflexivity.
Qed.

(** The wrapper of the extract-frame task does reject in that situation:
    a close with exit code 0 and text that is not a number. *)
Lemma getVideoDuration_task_rejects_nan (path stdout stderr : string) :
  parseFloat (trim stdout) = NaN ->
  getVideoDuration_task (Some path) [ProbeClose (Some 0) stdout stderr]
  = Rejected ("Invalid duration output from ffprobe: " ++ stdout).
Proof. intros H. simpl. rewrite H. reflexivity. Qed.

(** C7 (divergence). On a diagnostic stream without any duration token the
    engine's wrapper resolves with the number 0: [resolve(0)] runs before
    [reject], and the first settlement of a promise wins. *)
Theorem getVideoDuration_without_token_resolves_zero :
  getVideoDuration (Some "/usr/bin/ffmpeg")
    [ChildClose "input_video: No such file or directory"] = Resolved (Fin 0).
Proof. reflexivity. Qed.

End ProbeProperties.

(* --------------------------------------------------------------------- *)
(** ** The bounded downloader                                             *)
(* --------------------------------------------------------------------- *)

Section DownloadProperties.
Import JS Download.
Local Open Scope string_scope.

(** The loop reads to the end exactly when the running count never
    exceeds the cap; everything read has then been written. *)
Lemma read_loop_within (msg : string) (maxBytes : Z) (chunks : list chunk) (e : body_end)
      (downloaded : Z) (st : state) :
  within_cap maxBytes downloaded chunks = true ->
  exists st',
    read_loop msg maxBytes chunks e downloaded st =
      (match e with BodyDone => Ok tt | BodyFails m => Throw m end, st') /\
    file st' = file st /\ cancelled st' = cancelled st /\
    transferred st' = transferred st + total chunks /\
    written st' = written st + total chunks.
Proof.
  revert downloaded st. induction chunks as [|c rest IH]; intros downloaded st H; simpl in *.
  - exists st. destruct e; repeat split; lia.
  - apply andb_true_iff in H as [Hc Hrest].
    apply Z.leb_le in Hc.
    destruct (Z.gtb_spec (downloaded + size c) maxBytes) as [Hgt|_]; [lia|].
    destruct (IH _ (write c (receive c st)) Hrest) as (st' & E & Hf & Hcan & Ht & Hw).
    exists st'. rewrite E. simpl in *. repeat split; try assumption; lia.
Qed.

(** As soon as the running count exceeds the cap the loop cancels the
    reader and throws. *)
Lemma read_loop_exceeds (msg : string) (maxBytes : Z) (chunks : list chunk) (e : body_end)
      (downloaded : Z) (st : state) :
  within_cap maxBytes downloaded chunks = false ->
  exists st',
    read_loop msg maxBytes chunks e downloaded st = (Throw msg, st') /\
    file st' = file st /\ cancelled st' = true /\
    maxBytes < downloaded + (transferred st' - transferred st).
Proof.
  revert downloaded st. induction chunks as [|c rest IH]; intros downloaded st H; simpl in *.
  - discriminate.
  - destruct (Z.gtb_spec (downloaded + size c) maxBytes) as [Hgt|Hle].
    + exists (cancel (receive c st)). simpl. repeat split; lia.
    + apply andb_false_iff in H as [Hc|Hrest]; [apply Z.leb_gt in Hc; lia|].
      destruct (IH _ (write c (receive c st)) Hrest) as (st' & E & Hf & Hcan & Ht).
      exists st'. rewrite E. simpl in *. repeat split; try assumption; lia.
Qed.

(** The chunk that crosses the cap is never written: what reaches the
    destination stays within the cap. *)
Lemma read_loop_written_bound (msg : string) (maxBytes : Z) (chunks : list chunk) (e : body_end)
      (downloaded : Z) (st : state) :
  downloaded <= maxBytes ->
  downloaded + (written (snd (read_loop msg maxBytes chunks e downloaded st)) - written st)
  <= maxBytes.
Proof.
  revert downloaded st. induction chunks as [|c rest IH]; intros downloaded st Hd; simpl.
  - destruct e; simpl; lia.
  - destruct (Z.gtb_spec (downloaded + size c) maxBytes) as [Hgt|Hle]; simpl; [lia|].
    specialize (IH _ (write c (receive c st)) Hle). simpl in IH. lia.
Qed.

(** The task's downloader refuses a response whose declared length exceeds
    the cap before it opens the destination or reads the body. *)
Lemma downloadVideo_task_rejects_declared (r : response) (fin : finish_outcome) (maxBytes : Z) :
  ok r = true ->
  declared_too_large (content_length r) maxBytes = true ->
  let out := downloadVideo_task (Responds r) fin maxBytes in
  (exists message, fst out = Throw message) /\
  file (snd out) = NotOpened /\ transferred (snd out) = 0 /\ written (snd out) = 0.
Proof.
  intros Hok Hdecl. unfold downloadVideo_task. rewrite Hok, Hdecl. simpl.
  repeat split. eexists. reflexivity.
Qed.

(** A download that succeeds has read the whole body within the cap. *)
Lemma downloadVideo_success_within_cap (f : fetch_outcome) (fin : finish_outcome) (maxBytes : Z) :
  fst (downloadVideo f fin maxBytes) = Ok tt \/ fst (downloadVideo_task f fin maxBytes) = Ok tt ->
  exists r chunks, f = Responds r /\ body r = Some (chunks, BodyDone) /\
                   within_cap maxBytes 0 chunks = true.
Proof.
  unfold downloadVideo, downloadVideo_task.
  destruct f as [m|r]; simpl; [intros [H|H]; discriminate|].
  destruct (ok r); simpl; [|intros [H|H]; discriminate].
  destruct (body r) as [[chunks e]|] eqn:Hb; simpl;
    [|destruct (declared_too_large _ _); simpl; intros [H|H]; discriminate].
  intros H. exists r, chunks. split; [reflexivity|].
  destruct (within_cap maxBytes 0 chunks) eqn:Hw.
  - destruct e as [|m]; [auto|]. exfalso.
    destruct H as [H|H].
    + destruct (read_loop_within "Video too large" maxBytes chunks (BodyFails m) 0
                  (set_file Open initial) Hw) as (st' & E & _).
      rewrite E in H. discriminate.
    + destruct (declared_too_large _ _); [discriminate|].
      destruct (read_loop_within
                  ("Download exceeded max size limit of " ++ show maxBytes ++ " bytes.")
                  maxBytes chunks (BodyFails m) 0 (set_file Open initial) Hw) as (st' & E & _).
      rewrite E in H. discriminate.
  - exfalso. destruct H as [H|H].
    + destruct (read_loop_exceeds "Video too large" maxBytes chunks e 0
                  (set_file Open initial) Hw) as (st' & E & _).
      rewrite E in H. discriminate.
    + destruct (declared_too_large _ _); [discriminate|].
      destruct (read_loop_exceeds
                  ("Download exceeded max size limit of " ++ show maxBytes ++ " bytes.")
                  maxBytes chunks e 0 (set_file Open initial) Hw) as (st' & E & _).
      rewrite E in H. discriminate.
Qed.

(** C3 (divergence). The engine's downloader never looks at the declared
    content length: for a response that declares 200 MiB against the
    100 MiB cap it opens the destination, reads 128 MiB of body and writes
    64 MiB of it before the running count stops it. The downloader of the
    extract-frame task refuses the same response before reading anything. *)
Theorem downloadVideo_reads_body_despite_declared_length :
  declared_too_large (content_length declares_200MiB) cap = true /\
  downloadVideo (Responds declares_200MiB) Finished cap =
    (Throw "Video too large",
     {| file := Open; transferred := 134217728; written := 67108864;
        cancelled := true; drains := 0; timer_cleared := true |}) /\
  downloadVideo_task (Responds declares_200MiB) Finished cap =
    (Throw "Video size (209715200 bytes) exceeds limit of 104857600 bytes.",
     {| file := NotOpened; transferred := 0; written := 0;
        cancelled := false; drains := 0; timer_cleared := true |}).
Proof. repeat split; vm_compute; reflexivity. Qed.

(** C9, as stated, fails: when the byte cap is crossed in mid-stream both
    downloaders throw while the destination stream is still open. *)
Lemma download_cap_violation_leaves_handle_open :
  file (snd (downloadVideo (Responds undeclared_200MiB) Finished cap)) = Open /\
  file (snd (downloadVideo_task (Responds undeclared_200MiB) Finished cap)) = Open.
Proof. split; vm_compute; reflexivity. Qed.

(** C9 (amended). On every exit path both downloaders clear the timeout
    timer. The destination handle is closed exactly when the body was read
    to its end within the cap (whether or not the stream then reports an
    error); a call that succeeds has closed it. When the call fails before
    the body is read (failed fetch, non-OK status, and for the task a
    declared length above the cap or a missing body) no handle was opened.
    When the cap is crossed or a read fails in mid-stream, the call fails
    with the handle left open. *)
Theorem download_handle_on_exit (f : fetch_outcome) (fin : finish_outcome) (maxBytes : Z) :
  let engine := downloadVideo f fin maxBytes in
  let task := downloadVideo_task f fin maxBytes in
  timer_cleared (snd engine) = true /\ timer_cleared (snd task) = true /\
  (fst engine = Ok tt -> file (snd engine) = Ended) /\
  (fst task = Ok tt -> file (snd task) = Ended) /\
  ((forall r, f = Responds r -> ok r = false) ->
   file (snd engine) = NotOpened /\ file (snd task) = NotOpened) /\
  (forall r chunks e, f = Responds r -> ok r = true -> body r = Some (chunks, e) ->
     (within_cap maxBytes 0 chunks = true /\ e = BodyDone -> file (snd engine) = Ended) /\
     (within_cap maxBytes 0 chunks = false \/ e <> BodyDone ->
        file (snd engine) = Open /\ exists message, fst engine = Throw message) /\
     (declared_too_large (content_length r) maxBytes = true -> file (snd task) = NotOpened) /\
     (declared_too_large (content_length r) maxBytes = false ->
        (within_cap maxBytes 0 chunks = true /\ e = BodyDone -> file (snd task) = Ended) /\
        (within_cap maxBytes 0 chunks = false \/ e <> BodyDone ->
           file (snd task) = Open /\ exists message, fst task = Throw message))) /\
  (forall r, f = Responds r -> ok r = true -> body r = None ->
     file (snd engine) = Open /\ file (snd task) = NotOpened).
Proof.
  intros engine task. subst engine task. unfold downloadVideo, downloadVideo_task.
  destruct f as [m|r].
  { simpl. repeat split; intros; simplify_eq; done. }
  destruct (ok r) eqn:Hok; simpl.
  2:{ repeat split; intros; simplify_eq; congruence. }
  destruct (body r) as [[chunks e]|] eqn:Hb; simpl.
  2:{ destruct (declared_too_large (content_length r) maxBytes); simpl.
      all: repeat split; intros; simplify_eq; try done.
      all: match goal with H : forall r, Responds _ = Responds r -> _ |- _ =>
             specialize (H _ eq_refl); congruence end. }
  set (msg1 := "Video too large").
  set (msg2 := "Download exceeded max size limit of " ++ show maxBytes ++ " bytes.").
  assert (Hengine :
    (within_cap maxBytes 0 chunks = true /\ e = BodyDone ->
       exists st', read_loop msg1 maxBytes chunks e 0 (set_file Open initial) = (Ok tt, st')) /\
    (within_cap maxBytes 0 chunks = false \/ e <> BodyDone ->
       exists m st', read_loop msg1 maxBytes chunks e 0 (set_file Open initial) = (Throw m, st')
                     /\ file st' = Open)).
  { split.
    - intros [Hw ->]. destruct (read_loop_within msg1 _ _ BodyDone 0 (set_file Open initial) Hw) as (st' & E & _). eauto.
    - intros Hcase. destruct (within_cap maxBytes 0 chunks) eqn:Hw.
      + destruct Hcase as [Hcase|Hcase]; [discriminate|].
        destruct e as [|m]; [contradiction|].
        destruct (read_loop_within msg1 _ _ (BodyFails m) 0 (set_file Open initial) Hw)
          as (st' & E & Hf & _). eauto.
      + destruct (read_loop_exceeds msg1 _ _ e 0 (set_file Open initial) Hw)
          as (st' & E & Hf & _). eauto. }
  assert (Htask :
    (within_cap maxBytes 0 chunks = true /\ e = BodyDone ->
       exists st', read_loop msg2 maxBytes chunks e 0 (set_file Open initial) = (Ok tt, st')) /\
    (within_cap maxBytes 0 chunks = false \/ e <> BodyDone ->
       exists m st', read_loop msg2 maxBytes chunks e 0 (set_file Open initial) = (Throw m, st')
                     /\ file st' = Open)).
  { split.
    - intros [Hw ->]. destruct (read_loop_within msg2 _ _ BodyDone 0 (set_file Open initial) Hw) as (st' & E & _). eauto.
    - intros Hcase. destruct (within_cap maxBytes 0 chunks) eqn:Hw.
      + destruct Hcase as [Hcase|Hcase]; [discriminate|].
        destruct e as [|m]; [contradiction|].
        destruct (read_loop_within msg2 _ _ (BodyFails m) 0 (set_file Open initial) Hw)
          as (st' & E & Hf & _). eauto.
      + destruct (read_loop_exceeds msg2 _ _ e 0 (set_file Open initial) Hw)
          as (st' & E & Hf & _). eauto. }
  destruct Hengine as [He1 He2]. destruct Htask as [Ht1 Ht2].
  assert (Efin : forall st, file (snd (end_and_wait fin st)) = Ended)
    by (intros st; unfold end_and_wait; destruct fin; reflexivity).
  split; [|split; [|split; [|split; [|split; [|split]]]]].
  - destruct (read_loop msg1 maxBytes chunks e 0 (set_file Open initial)) as [[[]|m] st'];
      simpl; [destruct fin|]; reflexivity.
  - destruct (declared_too_large (content_length r) maxBytes); [reflexivity|].
    destruct (read_loop msg2 maxBytes chunks e 0 (set_file Open initial)) as [[[]|m] st'];
      simpl; [destruct fin|]; reflexivity.
  - destruct (read_loop msg1 maxBytes chunks e 0 (set_file Open initial)) as [[[]|m] st'];
      simpl; [destruct fin; intros; reflexivity|discriminate].
  - destruct (declared_too_large (content_length r) maxBytes); [discriminate|].
    destruct (read_loop msg2 maxBytes chunks e 0 (set_file Open initial)) as [[[]|m] st'];
      simpl; [destruct fin; intros; reflexivity|discriminate].
  - intros H. specialize (H r eq_refl). congruence.
  - intros r' chunks' e' [= <-] _ Hb'. rewrite Hb in Hb'. injection Hb' as <- <-.
    split; [|split; [|split]].
    + intros Hc. destruct (He1 Hc) as (st' & E). rewrite E. simpl. destruct fin; reflexivity.
    + intros Hc. destruct (He2 Hc) as (m & st' & E & Hf). rewrite E. simpl. eauto.
    + intros ->. reflexivity.
    + intros ->. split.
      * intros Hc. destruct (Ht1 Hc) as (st' & E). rewrite E. simpl. destruct fin; reflexivity.
      * intros Hc. destruct (Ht2 Hc) as (m & st' & E & Hf). rewrite E. simpl. eauto.
  - intros r' [= <-] _ Hnone. congruence.
Qed.

(** An instance with every case inhabited: the 200 MiB body, declared and
    undeclared. *)
Lemma download_handle_on_exit_instance :
  file (snd (downloadVideo (Responds undeclared_200MiB) Finished cap)) = Open /\
  file (snd (downloadVideo_task (Responds declares_200MiB) Finished cap)) = NotOpened /\
  file (snd (downloadVideo_task (Responds undeclared_200MiB) Finished (3 * cap))) = Ended.
Proof.
  pose proof (download_handle_on_exit (Responds undeclared_200MiB) Finished cap)
    as (_ & _ & _ & _ & _ & H1 & _).
  pose proof (download_handle_on_exit (Responds declares_200MiB) Finished cap)
    as (_ & _ & _ & _ & _ & H2 & _).
  pose proof (download_handle_on_exit (Responds undeclared_200MiB) Finished (3 * cap))
    as (_ & _ & _ & _ & _ & H3 & _).
  specialize (H1 undeclared_200MiB _ BodyDone eq_refl eq_refl eq_refl).
  specialize (H2 declares_200MiB _ BodyDone eq_refl eq_refl eq_refl).
  specialize (H3 undeclared_200MiB _ BodyDone eq_refl eq_refl eq_refl).
  destruct H1 as (_ & H1 & _). destruct H2 as (_ & _ & H2 & _). destruct H3 as (_ & _ & _ & H3).
  split; [|split].
  - destruct (H1 (or_introl eq_refl)) as [H _]. exact H.
  - exact (H2 eq_refl).
  - destruct (H3 eq_refl) as [H _]. apply H. split; reflexivity.
Defined.

End DownloadProperties.

(* --------------------------------------------------------------------- *)
(** ** Passthrough executors                                              *)
(* --------------------------------------------------------------------- *)

Section PassthroughProperties.
Import JS Engine.
Local Open Scope string_scope.

(** C8, as stated, fails for text nodes: without a configured message the
    executor succeeds with the empty string. *)
Lemma executeTextNode_absent_message_succeeds :
  executeTextNode {| id := "n1"; type := "textNode"; data := ∅ |} [] = Ok (VStr "") /\
  executeNode {| crop := fun _ _ => Throw "unused";
                 frame_world := fun _ => Frame.demo_world;
                 llm := fun _ _ => Throw "unused" |}
              {| id := "n1"; type := "textNode"; data := ∅ |} [] = Ok (VStr "").
Proof. split; reflexivity. Qed.

(** C8 (amended). An image-source or video-source node returns its
    configured reference and fails with "No image uploaded" or "No video
    uploaded" when the reference is absent or empty. A text node returns
    its configured message and never fails: an absent or empty message
    yields the empty string. *)
Theorem passthrough_executors (node : WorkflowNode) (upstreamData : list upstream) :
  (truthy (field node "userMessage") = true ->
     executeTextNode node upstreamData = Ok (field node "userMessage")) /\
  (truthy (field node "userMessage") = false ->
     executeTextNode node upstreamData = Ok (VStr "")) /\
  (truthy (field node "imageUrl") = true ->
     executeImageUploadNode node = Ok (field node "imageUrl")) /\
  (truthy (field node "imageUrl") = false ->
     executeImageUploadNode node = Throw "No image uploaded") /\
  (truthy (field node "videoUrl") = true ->
     executeVideoUploadNode node = Ok (field node "videoUrl")) /\
  (truthy (field node "videoUrl") = false ->
     executeVideoUploadNode node = Throw "No video uploaded") /\
  (data node !! "imageUrl" = None -> executeImageUploadNode node = Throw "No image uploaded") /\
  (data node !! "videoUrl" = None -> executeVideoUploadNode node = Throw "No video uploaded") /\
  (data node !! "userMessage" = None -> executeTextNode node upstreamData = Ok (VStr "")).
Proof.
  unfold executeTextNode, executeImageUploadNode, executeVideoUploadNode, or_else, field.
  repeat split; intros H; rewrite H; reflexivity.
Qed.

(** An instance: a configured image node, an unconfigured video node and
    an unconfigured text node. *)
Lemma passthrough_executors_instance :
  executeImageUploadNode
    {| id := "n2"; type := "imageUploadNode";
       data := {[ "imageUrl" := VStr "https://example.com/cat.png" ]} |}
  = Ok (VStr "https://example.com/cat.png") /\
  executeVideoUploadNode {| id := "n3"; type := "videoUploadNode"; data := ∅ |}
  = Throw "No video uploaded" /\
  executeTextNode {| id := "n1"; type := "textNode"; data := ∅ |} [] = Ok (VStr "").
Proof.
  pose proof (passthrough_executors
                {| id := "n2"; type := "imageUploadNode";
                   data := {[ "imageUrl" := VStr "https://example.com/cat.png" ]} |} [])
    as (_ & _ & H2 & _).
  pose proof (passthrough_executors {| id := "n3"; type := "videoUploadNode"; data := ∅ |} [])
    as (_ & _ & _ & _ & _ & H3 & _).
  pose proof (passthrough_executors {| id := "n1"; type := "textNode"; data := ∅ |} [])
    as (_ & H1 & _).
  split; [|split].
  - exact (H2 eq_refl).
  - exact (H3 eq_refl).
  - exact (H1 eq_refl).
Defined.

End PassthroughProperties.

(* --------------------------------------------------------------------- *)
(** ** Graphs: sets, sources and cycles                                   *)
(* --------------------------------------------------------------------- *)

Section GraphFacts.
Import Dag.

Lemma has_true (s : list string) (x : string) : has s x = true <-> x ∈ s.
Proof. unfold has. apply bool_decide_eq_true. Qed.

Lemma has_false (s : list string) (x : string) : has s x = false <-> x ∉ s.
Proof. unfold has. apply bool_decide_eq_false. Qed.

Lemma fold_add_spec (l acc : list string) :
  NoDup acc ->
  NoDup (fold_left add l acc) /\
  forall x, x ∈ fold_left add l acc <-> x ∈ acc \/ x ∈ l.
Proof.
  revert acc. induction l as [|a l IH]; intros acc Hnd; simpl.
  - split; [exact Hnd|]. intros x. rewrite elem_of_nil. tauto.
  - assert (Hadd : NoDup (add acc a) /\ forall x, x ∈ add acc a <-> x ∈ acc \/ x = a).
    { unfold add. destruct (has acc a) eqn:E.
      - apply has_true in E. split; [exact Hnd|]. intros x. split; [tauto|].
        intros [H| ->]; assumption.
      - apply has_false in E. split.
        + apply NoDup_app. repeat split; [exact Hnd| |apply NoDup_singleton].
          intros x Hx Hx'. apply list_elem_of_singleton in Hx'. subst. contradiction.
        + intros x. rewrite elem_of_app, list_elem_of_singleton. tauto. }
    destruct Hadd as [Hnd' Hel]. destruct (IH _ Hnd') as [H1 H2].
    split; [exact H1|]. intros x. rewrite H2, Hel, elem_of_cons. tauto.
Qed.

Lemma set_of_NoDup (l : list string) : NoDup (set_of l).
Proof. apply fold_add_spec. apply NoDup_nil_2. Qed.

Lemma set_of_elem (l : list string) (x : string) : x ∈ set_of l <-> x ∈ l.
Proof.
  unfold set_of. destruct (fold_add_spec l [] (NoDup_nil_2 (A:=string))) as [_ H].
  rewrite H, elem_of_nil. tauto.
Qed.

Lemma remove_elem (x y : string) (s : list string) : y ∈ remove x s <-> y ∈ s /\ y <> x.
Proof.
  unfold remove. rewrite !list_elem_of_In, filter_In, negb_true_iff.
  destruct (String.eqb_spec y x); split; intros [? ?]; split; congruence.
Qed.

Lemma remove_NoDup (x : string) (s : list string) : NoDup s -> NoDup (remove x s).
Proof.
  intros H. apply NoDup_ListNoDup. apply List.NoDup_filter. now apply NoDup_ListNoDup.
Qed.

(** In a non-empty finite set in which every member has a predecessor
    inside the set, some member lies on a cycle. *)
Lemma no_source_gives_cycle {A : Type} (L : list A) :
  forall R : relation A,
    L <> [] ->
    (forall x, x ∈ L -> exists y, y ∈ L /\ R y x) ->
    exists v, tc R v v.
Proof.
  induction L as [|x L IH]; intros R Hne Hpred; [congruence|].
  destruct (Hpred x) as (yx & Hyx & Ryx); [left|].
  apply elem_of_cons in Hyx as [->|Hyx]; [exists x; now apply tc_once|].
  set (R' := fun a b => R a b \/ (R a x /\ R x b)).
  assert (Hsub : forall a b, tc R' a b -> tc R a b).
  { induction 1 as [a b [H|[H1 H2]]|a b d [H|[H1 H2]] _ IHtc].
    - now apply tc_once.
    - eapply tc_l; [exact H1|]. now apply tc_once.
    - eapply tc_l; eassumption.
    - eapply tc_l; [exact H1|]. eapply tc_l; eassumption. }
  destruct (IH R') as (v & Hv).
  - intros ->. now apply elem_of_nil in Hyx.
  - intros z Hz. destruct (Hpred z) as (y & Hy & Ryz); [now right|].
    apply elem_of_cons in Hy as [->|Hy].
    + exists yx. split; [exact Hyx|]. right. split; assumption.
    + exists y. split; [exact Hy|]. now left.
  - exists v. now apply Hsub.
Qed.

End GraphFacts.

(* --------------------------------------------------------------------- *)
(** ** The graph built by getParallelGroups                               *)
(* --------------------------------------------------------------------- *)

Section BuildGraph.
Import Dag.

Lemma init_map_lookup {V : Type} (v : V) (ids : list string) (m : gmap string V) (k : string) :
  init_map v ids m !! k = if has ids k then Some v else m !! k.
Proof.
  unfold init_map. revert m. induction ids as [|i ids IH]; intros m; simpl.
  - reflexivity.
  - rewrite IH. destruct (has ids k) eqn:E.
    + apply has_true in E. assert (H : has (i :: ids) k = true) by (apply has_true; now right).
      now rewrite H.
    + apply has_false in E. destruct (decide (k = i)) as [->|Hne].
      * assert (H : has (i :: ids) i = true) by (apply has_true; left).
        rewrite H. apply lookup_insert_eq.
      * assert (H : has (i :: ids) k = false).
        { apply has_false. intros H. apply elem_of_cons in H as [?|?]; contradiction. }
        rewrite H. now apply lookup_insert_ne.
Qed.

Lemma valid_edge_true (ids : list string) (e : DAGEdge) :
  valid_edge ids e = true <-> source e ∈ ids /\ target e ∈ ids.
Proof. unfold valid_edge. now rewrite andb_true_iff, !has_true. Qed.

Lemma successors_snoc (ids : list string) (es : list DAGEdge) (e : DAGEdge) (u : string) :
  successors ids (es ++ [e]) u =
  successors ids es u ++ (if valid_edge ids e && String.eqb (source e) u then [target e] else []).
Proof.
  unfold successors. rewrite List.filter_app, map_app. simpl.
  destruct (valid_edge ids e && String.eqb (source e) u); reflexivity.
Qed.

Lemma in_degree_from_snoc (ids from : list string) (es : list DAGEdge) (e : DAGEdge) (v : string) :
  in_degree_from ids from (es ++ [e]) v =
  (in_degree_from ids from es v +
   (if valid_edge ids e && String.eqb (target e) v && has from (source e) then 1 else 0))%nat.
Proof.
  unfold in_degree_from. rewrite List.filter_app, length_app. simpl.
  destruct (valid_edge ids e && String.eqb (target e) v && has from (source e)); reflexivity.
Qed.

(** The adjacency list holds, for every node id, the successors over the
    valid edges; the in-degree map holds their number of valid incoming
    edges. Ids outside the node set have no entry. *)
Lemma build_graph_spec (ids : list string) (edges : list DAGEdge) (k : string) :
  (build_graph ids edges).1 !! k = (if has ids k then Some (successors ids edges k) else None) /\
  (build_graph ids edges).2 !! k =
    (if has ids k then Some (Z.of_nat (in_degree_from ids ids edges k)) else None).
Proof.
  unfold build_graph. induction edges as [|e es IH] using rev_ind.
  - simpl. rewrite !init_map_lookup. rewrite !lookup_empty.
    destruct (has ids k); split; reflexivity.
  - rewrite fold_left_app. simpl.
    set (g := fold_left (add_edge ids) es (init_map [] ids ∅, init_map 0 ids ∅)) in *.
    destruct IH as [IH1 IH2].
    rewrite successors_snoc, in_degree_from_snoc. unfold add_edge.
    fold (valid_edge ids e).
    destruct (valid_edge ids e) eqn:Hv; simpl.
    + apply valid_edge_true in Hv as [Hs Ht].
      split.
      * destruct (String.eqb_spec (source e) k) as [Heq|Hne].
        -- rewrite Heq, lookup_alter_eq, IH1.
           destruct (has ids k); reflexivity.
        -- rewrite lookup_alter_ne by exact Hne. rewrite IH1.
           destruct (has ids k); [now rewrite app_nil_r|reflexivity].
      * destruct (String.eqb_spec (target e) k) as [Heq|Hne].
        -- rewrite Heq, lookup_insert_eq, IH2.
           apply has_true in Hs, Ht. rewrite Heq in Ht. rewrite Ht, Hs. simpl. f_equal. rewrite Nat2Z.inj_add. reflexivity.
        -- rewrite lookup_insert_ne by exact Hne. rewrite IH2.
           destruct (has ids k); [|reflexivity]. simpl. now rewrite Nat.add_0_r.
    + rewrite IH1, IH2. destruct (has ids k); split; try reflexivity.
      * now rewrite app_nil_r.
      * simpl. now rewrite Nat.add_0_r.
Qed.

End BuildGraph.

(* --------------------------------------------------------------------- *)
(** ** The wave scheduler                                                 *)
(* --------------------------------------------------------------------- *)

Section WaveScheduler.
Import Dag.

Variable ids : list string.
Variable edges : list DAGEdge.

Local Abbreviation arrow := (Dag.arrow ids edges).
Local Abbreviation edges_between := (Dag.edges_between ids).
Local Abbreviation wave_inv := (Dag.wave_inv ids edges).
Local Abbreviation wave_post := (Dag.wave_post ids edges).

Lemma fold_decrement_lookup (R : list string) (ns : list string) (d : gmap string Z) (v : string) :
  fold_left (decrement R) ns d !! v =
  if has R v then (fun x => x - Z.of_nat (occurrences v ns)) <$> (d !! v) else d !! v.
Proof.
  revert d. induction ns as [|n ns IH]; intros d.
  - unfold occurrences. simpl.
    destruct (has R v); [|reflexivity]. destruct (d !! v); simpl; [f_equal; lia|reflexivity].
  - cbn [fold_left]. rewrite IH. unfold decrement, occurrences. cbn [List.filter].
    destruct (has R v) eqn:Hv.
    + destruct (String.eqb_spec v n) as [->|Hne].
      * rewrite Hv, lookup_alter_eq. destruct (d !! n); simpl; [|reflexivity].
        f_equal. lia.
      * destruct (has R n); [rewrite lookup_alter_ne by congruence|]; reflexivity.
    + destruct (has R n) eqn:Hn; [|reflexivity].
      rewrite lookup_alter_ne; [reflexivity|]. intros ->. congruence.
Qed.

Lemma occurrences_successors (es : list DAGEdge) (u v : string) :
  occurrences v (successors ids es u) = edges_between es u v.
Proof.
  unfold occurrences, successors, edges_between.
  induction es as [|e es IH]; simpl; [reflexivity|].
  destruct (valid_edge ids e); simpl; [|exact IH].
  destruct (String.eqb_spec (source e) u) as [Hs|Hs]; simpl.
  - rewrite (String.eqb_sym v (target e)).
    destruct (String.eqb (target e) v); simpl; [f_equal|]; exact IH.
  - rewrite andb_false_r. exact IH.
Qed.

Lemma in_degree_from_remove (R : list string) (es : list DAGEdge) (u v : string) :
  u ∈ R ->
  in_degree_from ids R es v = (in_degree_from ids (remove u R) es v + edges_between es u v)%nat.
Proof.
  intros Hu. unfold in_degree_from, edges_between.
  induction es as [|e es IH]; simpl; [reflexivity|].
  destruct (valid_edge ids e && String.eqb (target e) v); simpl; [|exact IH].
  destruct (String.eqb_spec (source e) u) as [Hs|Hs].
  - assert (H1 : has R (source e) = true) by (apply has_true; now rewrite Hs).
    assert (H2 : has (remove u R) (source e) = false).
    { apply has_false. rewrite remove_elem. tauto. }
    rewrite H1, H2. simpl. rewrite IH. lia.
  - assert (H : has (remove u R) (source e) = has R (source e)).
    { destruct (has R (source e)) eqn:E.
      - apply has_true. apply has_true in E. apply remove_elem. tauto.
      - apply has_false. apply has_false in E. rewrite remove_elem. tauto. }
    rewrite H. destruct (has R (source e)); simpl; rewrite IH; lia.
Qed.

Lemma in_degree_from_zero (R : list string) (v : string) :
  in_degree_from ids R edges v = 0%nat <->
  forall u, u ∈ R -> ~ arrow u v.
Proof.
  unfold in_degree_from, arrow. split.
  - intros H u Hu (e & He & Hv & Hs & Ht).
    assert (Hin : In e (List.filter (fun e => valid_edge ids e && String.eqb (target e) v
                                              && has R (source e)) edges)).
    { apply filter_In. split; [now apply list_elem_of_In|].
      rewrite Hv, Ht, Hs, String.eqb_refl. simpl. now apply has_true. }
    apply length_zero_iff_nil in H. rewrite H in Hin. exact Hin.
  - intros H. apply length_zero_iff_nil.
    destruct (List.filter _ edges) as [|e l] eqn:E; [reflexivity|exfalso].
    assert (Hin : In e (List.filter (fun e => valid_edge ids e && String.eqb (target e) v
                                              && has R (source e)) edges))
      by (rewrite E; left; reflexivity).
    apply filter_In in Hin as [Hin Hb].
    apply andb_true_iff in Hb as [Hb Hr]. apply andb_true_iff in Hb as [Hv Ht].
    apply has_true in Hr. apply String.eqb_eq in Ht.
    apply (H (source e) Hr). exists e. repeat split; try assumption.
    now apply list_elem_of_In.
Qed.

Variable adjacencyList : gmap string (list string).
Hypothesis adjacency_spec :
  forall u, u ∈ ids -> adjacencyList !! u = Some (successors ids edges u).

Lemma release_inv (R : list string) (d : gmap string Z) (u : string) :
  wave_inv R d -> u ∈ R ->
  wave_inv (release adjacencyList (R, d) u).1 (release adjacencyList (R, d) u).2 /\
  (release adjacencyList (R, d) u).1 = remove u R.
Proof.
  intros (Hnd & Hsub & Hdeg) Hu. unfold release. simpl. split; [|reflexivity].
  split; [now apply remove_NoDup|]. split.
  - intros x Hx. apply remove_elem in Hx as [Hx _]. now apply Hsub.
  - intros v Hv. rewrite fold_decrement_lookup.
    assert (Hh : has (remove u R) v = true) by now apply has_true.
    rewrite Hh. apply remove_elem in Hv as [Hv Hne].
    rewrite (Hdeg v Hv). simpl. f_equal.
    rewrite (adjacency_spec u (Hsub u Hu)). simpl.
    rewrite occurrences_successors, (in_degree_from_remove R edges u v Hu). lia.
Qed.

Lemma fold_release_inv (G : list string) :
  forall (R : list string) (d : gmap string Z),
    wave_inv R d -> NoDup G -> (forall x, x ∈ G -> x ∈ R) ->
    let s := fold_left (release adjacencyList) G (R, d) in
    wave_inv s.1 s.2 /\ forall x, x ∈ s.1 <-> x ∈ R /\ x ∉ G.
Proof.
  induction G as [|u G IH]; intros R d Hinv Hnd Hsub; simpl.
  - split; [exact Hinv|]. intros x. rewrite elem_of_nil. tauto.
  - apply NoDup_cons in Hnd as [Hu Hnd].
    destruct (release_inv R d u Hinv) as [Hinv' Heq]; [apply Hsub; left|].
    destruct (release adjacencyList (R, d) u) as [R' d'] eqn:E. simpl in *. subst R'.
    destruct (IH (remove u R) d' Hinv' Hnd) as [H1 H2].
    + intros x Hx. apply remove_elem. split; [apply Hsub; now right|].
      intros ->. contradiction.
    + split; [exact H1|]. intros x. rewrite H2, remove_elem, elem_of_cons. tauto.
Qed.

Lemma zero_in_degree_spec (R : list string) (d : gmap string Z) (v : string) :
  wave_inv R d ->
  (v ∈ zero_in_degree d R <-> v ∈ R /\ forall u, u ∈ R -> ~ arrow u v).
Proof.
  intros (Hnd & Hsub & Hdeg). unfold zero_in_degree.
  rewrite list_elem_of_In, filter_In, <- list_elem_of_In, bool_decide_eq_true.
  split; intros [Hv H]; (split; [exact Hv|]).
  - apply in_degree_from_zero. rewrite (Hdeg v Hv) in H. injection H as H. lia.
  - rewrite (Hdeg v Hv). apply in_degree_from_zero in H. now rewrite H.
Qed.

Lemma zero_in_degree_NoDup (R : list string) (d : gmap string Z) :
  NoDup R -> NoDup (zero_in_degree d R).
Proof.
  intros H. apply NoDup_ListNoDup. apply List.NoDup_filter. now apply NoDup_ListNoDup.
Qed.

Lemma in_degree_from_pos (R : list string) (v : string) :
  in_degree_from ids R edges v <> 0%nat -> exists u, u ∈ R /\ arrow u v.
Proof.
  unfold in_degree_from. intros H.
  destruct (List.filter (fun e => valid_edge ids e && String.eqb (target e) v
                                  && has R (source e)) edges) as [|e l] eqn:E;
    [contradiction|].
  assert (Hin : In e (List.filter (fun e => valid_edge ids e && String.eqb (target e) v
                                            && has R (source e)) edges))
    by (rewrite E; left; reflexivity).
  apply filter_In in Hin as [Hin Hb].
  apply andb_true_iff in Hb as [Hb Hr]. apply andb_true_iff in Hb as [Hv Ht].
  apply has_true in Hr. apply String.eqb_eq in Ht.
  exists (source e). split; [exact Hr|]. exists e. repeat split; try assumption.
  now apply list_elem_of_In.
Qed.

Lemma wave_post_nil (R : list string) (d : gmap string Z) :
  wave_inv R d -> zero_in_degree d R = [] -> wave_post R [].
Proof.
  intros Hinv Hz. repeat split.
  - apply NoDup_nil_2.
  - intros x Hx. now apply elem_of_nil in Hx.
  - intros i v (g & Hg & _). now rewrite lookup_nil in Hg.
  - intros Hacyc x Hx. exfalso.
    destruct (no_source_gives_cycle R arrow) as (v & Hv).
    + intros ->. now apply elem_of_nil in Hx.
    + intros y Hy. apply in_degree_from_pos.
      intros H0. assert (Hin : y ∈ zero_in_degree d R).
      { apply (zero_in_degree_spec R d y Hinv). split; [exact Hy|].
        now apply in_degree_from_zero. }
      rewrite Hz in Hin. now apply elem_of_nil in Hin.
    + exact (Hacyc v Hv).
Qed.

Lemma in_wave_cons (G : list string) (new : list (list string)) (i : nat) (x : string) :
  in_wave (G :: new) i x <->
  (i = 0%nat /\ x ∈ G) \/ (exists i', i = S i' /\ in_wave new i' x).
Proof.
  unfold in_wave. destruct i as [|i]; simpl.
  - split.
    + intros (g & [= <-] & Hx). left. tauto.
    + intros [[_ Hx]|(i' & Hi & _)]; [eauto|discriminate].
  - split.
    + intros H. right. eauto.
    + intros [[Hi _]|(i' & [= <-] & H)]; [discriminate|exact H].
Qed.

Lemma waves_spec (fuel : nat) :
  forall (R : list string) (d : gmap string Z) (acc : list (list string)),
    wave_inv R d -> (List.length R <= fuel)%nat ->
    exists new, waves fuel adjacencyList R d acc = Some (acc ++ new) /\ wave_post R new.
Proof.
  induction fuel as [|fuel IH]; intros R d acc Hinv Hlen.
  - destruct R as [|r R]; [|simpl in Hlen; lia].
    exists []. rewrite app_nil_r. split; [reflexivity|].
    apply (wave_post_nil [] d Hinv). reflexivity.
  - destruct R as [|r R0] eqn:ER.
    { exists []. rewrite app_nil_r. split; [reflexivity|].
      apply (wave_post_nil [] d Hinv). reflexivity. }
    rewrite <- ER in *. assert (Hw : waves (S fuel) adjacencyList R d acc =
      match zero_in_degree d R with
      | [] => Some acc
      | currentGroup =>
          let s := fold_left (release adjacencyList) currentGroup (R, d) in
          waves fuel adjacencyList s.1 s.2 (acc ++ [currentGroup])
      end) by (rewrite ER; reflexivity).
    rewrite Hw. clear Hw.
    destruct (zero_in_degree d R) as [|g G'] eqn:EG.
    { exists []. rewrite app_nil_r. split; [reflexivity|]. now apply (wave_post_nil R d). }
    set (G := g :: G') in *.
    assert (HG : forall x, x ∈ G <-> x ∈ R /\ forall u, u ∈ R -> ~ arrow u x).
    { intros x. rewrite <- EG. now apply zero_in_degree_spec. }
    assert (HGnd : NoDup G).
    { rewrite <- EG. apply zero_in_degree_NoDup. apply Hinv. }
    destruct (fold_release_inv G R d Hinv HGnd) as [Hinv' Hel]; [intros x Hx; now apply HG|].
    set (s := fold_left (release adjacencyList) G (R, d)) in *.
    assert (Hlen' : (List.length s.1 <= fuel)%nat).
    { assert (Hsub : g :: s.1 ⊆+ R).
      { apply NoDup_submseteq.
        - apply NoDup_cons. split; [|apply Hinv'].
          intros Hg. apply Hel in Hg as [_ Hg]. apply Hg. left.
        - intros x Hx. apply elem_of_cons in Hx as [->|Hx].
          + apply HG. left.
          + now apply Hel in Hx. }
      apply submseteq_length in Hsub. simpl in Hsub. lia. }
    destruct (IH s.1 s.2 (acc ++ [G]) Hinv' Hlen') as (new' & E & Hnd & Hin & Hord & Hall).
    exists (G :: new'). split.
    { cbv zeta. unfold s in E. rewrite E. f_equal. now rewrite <- app_assoc. }
    repeat split.
    + change (concat (G :: new')) with (G ++ concat new').
      apply NoDup_app. repeat split; [exact HGnd| |exact Hnd].
      intros x Hx Hx'. apply Hin, Hel in Hx'. tauto.
    + change (concat (G :: new')) with (G ++ concat new').
      intros x Hx. apply elem_of_app in Hx as [Hx|Hx].
      * now apply HG in Hx.
      * now apply Hin, Hel in Hx.
    + intros i v Hv u Hu Huv. apply in_wave_cons in Hv as [[-> Hv]|(i' & -> & Hv)].
      * exfalso. apply HG in Hv as [_ Hv]. exact (Hv u Hu Huv).
      * destruct (decide (u ∈ G)) as [HuG|HuG].
        -- exists 0%nat. split; [lia|]. apply in_wave_cons. left. tauto.
        -- destruct (Hord i' v Hv u) as (j & Hj & Hju); [apply Hel; tauto|exact Huv|].
           exists (S j). split; [lia|]. apply in_wave_cons. right. eauto.
    + intros Hacyc x Hx. change (concat (G :: new')) with (G ++ concat new').
      apply elem_of_app.
      destruct (decide (x ∈ G)) as [HxG|HxG]; [now left|right].
      apply (Hall Hacyc). apply Hel. tauto.
Qed.

End WaveScheduler.

Section WaveSchedulerClaim.
Import Dag.

Lemma in_concat_in_wave (groups : list (list string)) (x : string) :
  x ∈ concat groups -> exists i, in_wave groups i x.
Proof.
  induction groups as [|g groups IH]; simpl; intros Hx.
  - now apply elem_of_nil in Hx.
  - apply elem_of_app in Hx as [Hx|Hx].
    + exists 0%nat. apply in_wave_cons. left. tauto.
    + destruct (IH Hx) as (i & Hi). exists (S i). apply in_wave_cons. right. eauto.
Qed.

Lemma arrow_edge_rel (nodes : list DAGNode) (edges : list DAGEdge) (u v : string) :
  arrow (set_of (map id nodes)) edges u v <-> edge_rel nodes edges u v.
Proof.
  unfold arrow, edge_rel. split.
  - intros (e & He & Hv & <- & <-). apply valid_edge_true in Hv as [Hs Ht].
    rewrite set_of_elem in Hs, Ht. destruct e as [a b]. simpl in *.
    split; [exact Hs|]. split; [exact Ht|exact He].
  - intros (Hu & Hv & He). exists {| source := u; target := v |}.
    repeat split; try assumption. apply valid_edge_true. simpl.
    split; now apply set_of_elem.
Qed.

Lemma tc_impl {A : Type} (R S : relation A) (x y : A) :
  (forall a b, R a b -> S a b) -> tc R x y -> tc S x y.
Proof.
  intros H. induction 1 as [a b Hab|a b d Hab _ IH].
  - apply tc_once. now apply H.
  - eapply tc_l; [apply H; exact Hab|exact IH].
Qed.

(** A strictly increasing rank excludes cycles. *)
Lemma ranked_acyclic {A : Type} (R : relation A) (rank : A -> nat) :
  (forall a b, R a b -> (rank a < rank b)%nat) -> forall v, ~ tc R v v.
Proof.
  intros Hr v Hv.
  assert (H : forall a b, tc R a b -> (rank a < rank b)%nat).
  { induction 1 as [a b Hab|a b d Hab _ IH].
    - now apply Hr.
    - apply Hr in Hab. lia. }
  apply H in Hv. lia.
Qed.

(** The scheduler answers on every input, cyclic or not, and what it
    returns satisfies the postcondition of the loop for the whole node
    set. *)
Lemma getParallelGroups_spec (nodes : list DAGNode) (edges : list DAGEdge) :
  exists groups,
    getParallelGroups nodes edges = Some groups /\
    wave_post (set_of (map id nodes)) edges (set_of (map id nodes)) groups.
Proof.
  unfold getParallelGroups.
  set (ids := set_of (map id nodes)).
  assert (Hinv : wave_inv ids edges ids (build_graph ids edges).2).
  { split; [apply set_of_NoDup|]. split; [auto|].
    intros v Hv. destruct (build_graph_spec ids edges v) as [_ H].
    apply has_true in Hv. now rewrite Hv in H. }
  assert (Hadj : forall u, u ∈ ids ->
                 (build_graph ids edges).1 !! u = Some (successors ids edges u)).
  { intros u Hu. destruct (build_graph_spec ids edges u) as [H _].
    apply has_true in Hu. now rewrite Hu in H. }
  exact (waves_spec ids edges _ Hadj (List.length ids) ids _ [] Hinv (le_n _)).
Qed.

(** Whatever the input, no node id occurs twice in the groups and every
    id in them is a node id: the groups are fit to drive the engine. *)
Lemma getParallelGroups_distinct (nodes : list DAGNode) (edges : list DAGEdge) :
  exists groups,
    getParallelGroups nodes edges = Some groups /\
    NoDup (concat groups) /\
    forall x, x ∈ concat groups -> x ∈ map id nodes.
Proof.
  destruct (getParallelGroups_spec nodes edges) as (groups & E & Hnd & Hin & _).
  exists groups. split; [exact E|]. split; [exact Hnd|].
  intros x Hx. apply Hin in Hx. now rewrite set_of_elem in Hx.
Qed.

(** C1. For every acyclic input the scheduler returns groups that
    partition the node set (every node id occurs in exactly one group,
    exactly once, and nothing else occurs), and for every edge between two
    nodes the source sits in a group of strictly smaller index than the
    target. *)
Theorem getParallelGroups_partitions_in_order (nodes : list DAGNode) (edges : list DAGEdge) :
  acyclic nodes edges ->
  exists groups,
    getParallelGroups nodes edges = Some groups /\
    NoDup (concat groups) /\
    (forall x, x ∈ concat groups <-> x ∈ map id nodes) /\
    (forall u v, edge_rel nodes edges u v ->
       exists i j, in_wave groups i u /\ in_wave groups j v /\ (i < j)%nat).
Proof.
  intros Hacyc.
  destruct (getParallelGroups_spec nodes edges) as (groups & E & Hnd & Hin & Hord & Hall).
  set (ids := set_of (map id nodes)) in *.
  assert (Hacyc' : forall v, ~ tc (arrow ids edges) v v).
  { intros v Hv. apply (Hacyc v). eapply tc_impl; [|exact Hv].
    intros a b. apply arrow_edge_rel. }
  exists groups. split; [exact E|]. split; [exact Hnd|]. split.
  - intros x. split.
    + intros Hx. apply Hin in Hx. unfold ids in Hx. now rewrite set_of_elem in Hx.
    + intros Hx. apply (Hall Hacyc'). unfold ids. now rewrite set_of_elem.
  - intros u v Huv. pose proof Huv as (Hu & Hv & _).
    apply arrow_edge_rel in Huv.
    destruct (in_concat_in_wave groups v) as (j & Hj).
    { apply (Hall Hacyc'). unfold ids. now rewrite set_of_elem. }
    destruct (Hord j v Hj u) as (i & Hi & Hiu);
      [unfold ids; now rewrite set_of_elem|exact Huv|].
    exists i, j. auto.
Qed.

Lemma diamond_acyclic : acyclic diamond_nodes diamond_edges.
Proof.
  unfold acyclic. apply ranked_acyclic with (rank := diamond_rank).
  intros a b (_ & _ & H). unfold diamond_edges in H.
  repeat (apply elem_of_cons in H as [H|H]; [injection H as -> ->; vm_compute; lia|]).
  now apply elem_of_nil in H.
Qed.

(** The diamond is scheduled as [[A],[B,C],[D]]. *)
Lemma getParallelGroups_diamond :
  getParallelGroups diamond_nodes diamond_edges = Some [["A"]; ["B"; "C"]; ["D"]]%string.
Proof. reflexivity. Qed.

Lemma getParallelGroups_partitions_diamond :
  acyclic diamond_nodes diamond_edges /\
  exists groups,
    getParallelGroups diamond_nodes diamond_edges = Some groups /\
    NoDup (concat groups) /\
    (forall x, x ∈ concat groups <-> x ∈ map id diamond_nodes) /\
    (forall u v, edge_rel diamond_nodes diamond_edges u v ->
       exists i j, in_wave groups i u /\ in_wave groups j v /\ (i < j)%nat).
Proof.
  split; [exact diamond_acyclic|].
  exact (getParallelGroups_partitions_in_order diamond_nodes diamond_edges diamond_acyclic).
Defined.

End WaveSchedulerClaim.

(* --------------------------------------------------------------------- *)
(** ** The depth-first search of validateDAG                              *)
(* --------------------------------------------------------------------- *)

Section DepthFirstSearch.
Import Dag.

Variable adjacencyList : gmap string (list string).
Variable universe : gset string.

Local Abbreviation next := (Dag.next adjacencyList).
Local Abbreviation closed := (Dag.closed adjacencyList).
Local Abbreviation finished_acyclic := (Dag.finished_acyclic adjacencyList).
Local Abbreviation good := (Dag.good adjacencyList universe).
Local Abbreviation exploring := (Dag.exploring adjacencyList universe).
Local Abbreviation hasCycle_contract := (Dag.hasCycle_contract adjacencyList universe).

Hypothesis next_in_universe : forall u w, next u w -> w ∈ universe.

Lemma closed_rtc (m : marks) (u w : string) :
  closed m -> rtc next u w -> u ∈ m.1 -> u ∉ m.2 -> w ∈ m.1 /\ w ∉ m.2.
Proof.
  intros Hc. induction 1 as [x|x y z Hxy _ IH]; intros H1 H2; [tauto|].
  destruct (Hc x y H1 H2 Hxy) as [H3 H4]. now apply IH.
Qed.

Lemma tc_first_step (x y : string) : tc next x y -> exists z, next x z /\ rtc next z y.
Proof.
  destruct 1 as [x y H|x z y H Htc].
  - exists y. split; [exact H|apply rtc_refl].
  - exists z. split; [exact H|now apply tc_rtc].
Qed.

Lemma size_unvisited_pos (n : string) (visited : gset string) :
  n ∈ universe -> n ∉ visited -> (size (universe ∖ visited) <= 0)%nat -> False.
Proof.
  intros Hn Hv Hs. assert (H0 : size (universe ∖ visited) = 0%nat) by lia.
  apply size_empty_inv in H0. set_solver.
Qed.

Lemma size_unvisited_step (n : string) (visited : gset string) (fuel : nat) :
  n ∈ universe -> n ∉ visited -> (size (universe ∖ visited) <= S fuel)%nat ->
  (size (universe ∖ ({[n]} ∪ visited)) <= fuel)%nat.
Proof.
  intros Hn Hv Hs.
  assert (E : universe ∖ visited = {[n]} ∪ universe ∖ ({[n]} ∪ visited)).
  { apply set_eq. intros x. destruct (decide (x = n)); set_solver. }
  rewrite E, size_union, size_singleton in Hs by set_solver. lia.
Qed.

Lemma size_unvisited_mono (v v' : gset string) (fuel : nat) :
  v ⊆ v' -> (size (universe ∖ v) <= fuel)%nat -> (size (universe ∖ v') <= fuel)%nat.
Proof.
  intros Hsub Hs. etransitivity; [|exact Hs]. apply subseteq_size. set_solver.
Qed.

Lemma neighbors_loop_spec (fuel : nat) (n : string) :
  hasCycle_contract fuel ->
  forall (ns : list string) (m : marks),
    (forall w, w ∈ ns -> next n w) -> exploring n m ->
    (size (universe ∖ m.1) <= fuel)%nat ->
    exists b m',
      neighbors_loop (hasCycle fuel adjacencyList) ns m = Some (b, m') /\
      (b = true -> exists v, tc next v v) /\
      (b = false -> exploring n m' /\ m'.2 = m.2 /\ m.1 ⊆ m'.1 /\
                    forall w, w ∈ ns -> w ∈ m'.1 /\ w ∉ m'.2).
Proof.
  intros IH. induction ns as [|w rest IHns]; intros m Hns Hex Hsize.
  - exists false, m. split; [reflexivity|]. split; [discriminate|].
    intros _. split; [exact Hex|]. split; [reflexivity|]. split; [set_solver|].
    intros w Hw. now apply elem_of_nil in Hw.
  - assert (Hw : next n w) by (apply Hns; left).
    assert (Hrest : forall x, x ∈ rest -> next n x) by (intros x Hx; apply Hns; now right).
    destruct Hex as (Hgood & Hn & Hreach).
    cbn [neighbors_loop]. destruct (decide (w ∈ m.1)) as [Hvis|Hvis].
    + rewrite (bool_decide_eq_true_2 _ Hvis). cbn [negb].
      destruct (decide (w ∈ m.2)) as [Hstack|Hstack].
      * rewrite (bool_decide_eq_true_2 _ Hstack).
        exists true, m. split; [reflexivity|]. split; [|discriminate].
        intros _. exists n. eapply tc_rtc_r; [apply tc_once; exact Hw|].
        now apply Hreach.
      * rewrite (bool_decide_eq_false_2 _ Hstack).
        destruct (IHns m Hrest (conj Hgood (conj Hn Hreach)) Hsize)
          as (b & m' & E & Ht & Hf).
        exists b, m'. split; [exact E|]. split; [exact Ht|].
        intros Hb. destruct (Hf Hb) as (Hex' & Hst & Hsub & Hall).
        split; [exact Hex'|]. split; [exact Hst|]. split; [exact Hsub|].
        intros x Hx. apply elem_of_cons in Hx as [->|Hx]; [|now apply Hall].
        split; [now apply Hsub|now rewrite Hst].
    + rewrite (bool_decide_eq_false_2 _ Hvis). cbn [negb].
      destruct (IH w m Hgood (next_in_universe n w Hw) Hvis) as (b & m1 & E & Ht & Hf).
      { intros s Hs. eapply rtc_r; [now apply Hreach|exact Hw]. }
      { exact Hsize. }
      rewrite E. destruct b.
      * exists true, m1. split; [reflexivity|]. split; [exact Ht|discriminate].
      * destruct (Hf eq_refl) as (Hgood1 & Hst1 & Hsub1 & Hw1).
        assert (Hex1 : exploring n m1).
        { split; [exact Hgood1|]. rewrite Hst1. split; assumption. }
        destruct (IHns m1 Hrest Hex1 (size_unvisited_mono _ _ _ Hsub1 Hsize))
          as (b & m' & E' & Ht' & Hf').
        exists b, m'. split; [exact E'|]. split; [exact Ht'|].
        intros Hb. destruct (Hf' Hb) as (Hex' & Hst & Hsub & Hall).
        split; [exact Hex'|]. split; [congruence|]. split; [set_solver|].
        intros x Hx. apply elem_of_cons in Hx as [->|Hx]; [|now apply Hall].
        split; [now apply Hsub|]. rewrite Hst, Hst1.
        destruct Hgood as (Hsv & _). set_solver.
Qed.

Lemma hasCycle_spec (fuel : nat) : hasCycle_contract fuel.
Proof.
  induction fuel as [|fuel IH]; intros n m Hgood Hn Hvis Hreach Hsize.
  - exfalso. exact (size_unvisited_pos n m.1 Hn Hvis Hsize).
  - destruct Hgood as (Hsv & Hvu & Hclosed & Hacyc).
    set (m1 := (({[n]} ∪ m.1, {[n]} ∪ m.2) : marks)).
    assert (Hex1 : exploring n m1).
    { split; [split; [|split; [|split]]|split].
      - subst m1. simpl. set_solver.
      - subst m1. simpl. set_solver.
      - intros u w Hu Hu' Huw. subst m1. simpl in *.
        assert (Hum : u ∈ m.1) by set_solver.
        assert (Hus : u ∉ m.2) by set_solver.
        destruct (Hclosed u w Hum Hus Huw) as [H1 H2]. set_solver.
      - intros u Hu Hu'. subst m1. simpl in *. apply Hacyc; set_solver.
      - subst m1. simpl. set_solver.
      - intros s Hs. subst m1. simpl in Hs.
        apply elem_of_union in Hs as [Hs|Hs]; [|now apply Hreach].
        apply elem_of_singleton in Hs as ->. apply rtc_refl. }
    destruct (neighbors_loop_spec fuel n IH (default [] (adjacencyList !! n)) m1)
      as (b & m' & E & Ht & Hf).
    { intros w Hw. exact Hw. }
    { exact Hex1. }
    { subst m1. simpl. now apply size_unvisited_step. }
    cbn [hasCycle]. fold m1. rewrite E. destruct b.
    + exists true, m'. split; [reflexivity|]. split; [exact Ht|discriminate].
    + destruct (Hf eq_refl) as ((Hgood' & Hn' & Hreach') & Hst & Hsub & Hall).
      destruct Hgood' as (Hsv' & Hvu' & Hclosed' & Hacyc').
      exists false, (m'.1, m'.2 ∖ {[n]}). split; [reflexivity|]. split; [discriminate|].
      intros _. subst m1. simpl in *. split; [split; [|split; [|split]]|split; [|split]].
      * set_solver.
      * exact Hvu'.
      * intros u w Hu Hu' Huw. simpl in *.
        destruct (decide (u = n)) as [->|Hne].
        -- destruct (Hall w Huw) as [H1 H2]. set_solver.
        -- assert (Hus : u ∉ m'.2) by set_solver.
           destruct (Hclosed' u w Hu Hus Huw) as [H1 H2]. set_solver.
      * intros u Hu Hu' Hcyc. simpl in *.
        destruct (decide (u = n)) as [->|Hne].
        -- destruct (tc_first_step n n Hcyc) as (w & Hw & Hwn).
           destruct (Hall w Hw) as [H1 H2].
           destruct (closed_rtc m' w n Hclosed' Hwn H1 H2) as [_ H3].
           contradiction.
        -- apply (Hacyc' u Hu); [set_solver|exact Hcyc].
      * rewrite Hst. set_solver.
      * set_solver.
      * set_solver.
Qed.

(** The loop over all node ids: with fuel for every node it answers, a
    positive answer exhibits a cycle, and after a negative answer every id
    is finished, so no id lies on a cycle. *)
Lemma search_all_spec (fuel : nat) (nodeIds : list string) :
  (size universe <= fuel)%nat ->
  forall m : marks,
    good m -> m.2 = ∅ -> (forall x, x ∈ nodeIds -> x ∈ universe) ->
    exists b,
      search_all fuel adjacencyList nodeIds m = Some b /\
      (b = true -> exists v, tc next v v) /\
      (b = false -> forall x, x ∈ nodeIds \/ x ∈ m.1 -> ~ tc next x x).
Proof.
  intros Hfuel. induction nodeIds as [|n rest IH]; intros m Hgood Hempty Hsub.
  - exists false. split; [reflexivity|]. split; [discriminate|].
    intros _ x [Hx|Hx]; [now apply elem_of_nil in Hx|].
    destruct Hgood as (_ & _ & _ & Hacyc). apply Hacyc; [exact Hx|]. rewrite Hempty. set_solver.
  - cbn [search_all]. destruct (decide (n ∈ m.1)) as [Hvis|Hvis].
    + rewrite (bool_decide_eq_true_2 _ Hvis). cbn [negb].
      destruct (IH m Hgood Hempty) as (b & E & Ht & Hf); [intros x Hx; apply Hsub; now right|].
      exists b. split; [exact E|]. split; [exact Ht|].
      intros Hb x [Hx|Hx]; [|apply (Hf Hb); now right].
      apply elem_of_cons in Hx as [->|Hx]; apply (Hf Hb); [now right|now left].
    + rewrite (bool_decide_eq_false_2 _ Hvis). cbn [negb].
      destruct (hasCycle_spec fuel n m Hgood) as (b & m' & E & Ht & Hf).
      { apply Hsub. left. }
      { exact Hvis. }
      { intros s Hs. rewrite Hempty in Hs. set_solver. }
      { etransitivity; [|exact Hfuel]. apply subseteq_size. set_solver. }
      rewrite E. destruct b.
      * exists true. split; [reflexivity|]. split; [exact Ht|discriminate].
      * destruct (Hf eq_refl) as (Hgood' & Hst & Hsubm & Hn).
        destruct (IH m' Hgood') as (b & E' & Ht' & Hf');
          [congruence|intros x Hx; apply Hsub; now right|].
        exists b. split; [exact E'|]. split; [exact Ht'|].
        intros Hb x [Hx|Hx]; apply (Hf' Hb).
        -- apply elem_of_cons in Hx as [->|Hx]; [now right|now left].
        -- right. now apply Hsubm.
Qed.

End DepthFirstSearch.

(* --------------------------------------------------------------------- *)
(** ** validateDAG                                                        *)
(* --------------------------------------------------------------------- *)

Section Validator.
Import Dag.

Lemma valid_edge_false (nodes : list DAGNode) (e : DAGEdge) :
  valid_edge (set_of (map id nodes)) e = false <-> dangling nodes e.
Proof.
  unfold valid_edge, dangling. rewrite andb_false_iff, !has_false, !set_of_elem. tauto.
Qed.

Lemma adjacency_checked_dangling (ids : list string) (edges : list DAGEdge) :
  (exists e, e ∈ edges /\ valid_edge ids e = false) ->
  forall a, adjacency_checked ids edges a = None.
Proof.
  induction edges as [|e edges IH]; intros (e' & He' & Hv) a.
  - now apply elem_of_nil in He'.
  - cbn [adjacency_checked].
    destruct (negb (has ids (source e)) || negb (has ids (target e))) eqn:E; [reflexivity|].
    apply IH. apply elem_of_cons in He' as [->|He']; [|eauto].
    unfold valid_edge in Hv. rewrite <- negb_andb, Hv in E. discriminate.
Qed.

Lemma adjacency_checked_valid (ids : list string) (edges : list DAGEdge) :
  (forall e, e ∈ edges -> valid_edge ids e = true) ->
  forall a d, adjacency_checked ids edges a = Some (fold_left (add_edge ids) edges (a, d)).1.
Proof.
  induction edges as [|e edges IH]; intros Hv a d; [reflexivity|].
  cbn [adjacency_checked fold_left].
  assert (He : valid_edge ids e = true) by (apply Hv; left).
  unfold add_edge at 2. fold (valid_edge ids e). rewrite He.
  unfold valid_edge in He. rewrite <- negb_andb, He. cbn [negb].
  apply IH. intros e' He'. apply Hv. now right.
Qed.

Lemma elem_successors (ids : list string) (edges : list DAGEdge) (u w : string) :
  w ∈ successors ids edges u <-> arrow ids edges u w.
Proof.
  unfold successors, arrow. rewrite list_elem_of_fmap. split.
  - intros (e & -> & He). apply list_elem_of_In, filter_In in He as [He Hb].
    apply andb_true_iff in Hb as [Hv Hs]. apply String.eqb_eq in Hs.
    exists e. repeat split; try assumption. now apply list_elem_of_In.
  - intros (e & He & Hv & Hs & Ht). exists e. split; [now symmetry|].
    apply list_elem_of_In, filter_In. split; [now apply list_elem_of_In|].
    rewrite Hv, Hs, String.eqb_refl. reflexivity.
Qed.

(** Over the adjacency list built from valid edges, the neighbor relation
    is the edge relation of the graph. *)
Lemma next_edge_rel (nodes : list DAGNode) (edges : list DAGEdge) (u w : string) :
  next (build_graph (set_of (map id nodes)) edges).1 u w <-> edge_rel nodes edges u w.
Proof.
  unfold next. destruct (build_graph_spec (set_of (map id nodes)) edges u) as [H _].
  rewrite H. rewrite <- arrow_edge_rel.
  destruct (has (set_of (map id nodes)) u) eqn:E; simpl.
  - apply elem_successors.
  - split; [intros Hw; now apply elem_of_nil in Hw|].
    intros (e & _ & Hv & <- & _). apply valid_edge_true in Hv as [Hs _].
    apply has_false in E. contradiction.
Qed.

(** The search the validator runs always answers, and its answer says
    whether the graph has a cycle. *)
Lemma search_decides_cycles (nodes : list DAGNode) (edges : list DAGEdge) :
  let ids := set_of (map id nodes) in
  exists b,
    search_all (List.length ids) (build_graph ids edges).1 ids (∅, ∅) = Some b /\
    (b = true <-> exists v, tc (edge_rel nodes edges) v v).
Proof.
  intros ids. set (adj := (build_graph ids edges).1).
  assert (Huniv : forall u w, next adj u w -> w ∈ (list_to_set ids : gset string)).
  { intros u w H. apply next_edge_rel in H as (_ & Hw & _).
    apply elem_of_list_to_set. unfold ids. now rewrite set_of_elem. }
  destruct (search_all_spec adj (list_to_set ids) Huniv (List.length ids) ids) with (m := (∅, ∅) : marks)
    as (b & E & Ht & Hf).
  - rewrite size_list_to_set; [reflexivity|apply set_of_NoDup].
  - repeat split; simpl; set_solver.
  - reflexivity.
  - intros x Hx. now apply elem_of_list_to_set.
  - exists b. split; [exact E|]. split.
    + intros Hb. destruct (Ht Hb) as (v & Hv). exists v.
      eapply tc_impl; [|exact Hv]. intros x y. apply next_edge_rel.
    + intros (v & Hv). destruct b; [reflexivity|exfalso].
      apply (Hf eq_refl v).
      * left. unfold ids. rewrite set_of_elem.
        inversion Hv as [x y (Hx & _)|x y z (Hx & _) _]; subst; exact Hx.
      * eapply tc_impl; [|exact Hv]. intros x y. apply next_edge_rel.
Qed.

(** C4, as stated, fails where its clauses overlap: a graph with a cycle
    and an edge to an absent node is rejected for the dangling edge, not
    with a cycle reason. *)
Lemma validateDAG_cycle_with_dangling_edge :
  (exists v, tc (edge_rel loop_and_dangling_nodes loop_and_dangling_edges) v v) /\
  validateDAG loop_and_dangling_nodes loop_and_dangling_edges
  = Some (Invalid "Edge references non-existent node") /\
  validateDAG loop_and_dangling_nodes loop_and_dangling_edges
  <> Some (Invalid "Workflow contains a cycle").
Proof.
  split; [|split; [reflexivity|discriminate]].
  exists "A"%string. apply tc_once. unfold edge_rel, loop_and_dangling_nodes, loop_and_dangling_edges.
  simpl. repeat split; left.
Qed.

(** C4 (amended). The validator always answers. If no edge names an absent
    node id and the edge relation is acyclic, the answer is valid. If some
    edge names an absent node id, the answer is invalid with the dangling
    edge reason, cycles or not. If no edge names an absent node id and the
    graph contains a cycle, the answer is invalid with the cycle reason. *)
Theorem validateDAG_decides (nodes : list DAGNode) (edges : list DAGEdge) :
  ((forall e, e ∈ edges -> ~ dangling nodes e) -> acyclic nodes edges ->
   validateDAG nodes edges = Some Valid) /\
  ((exists e, e ∈ edges /\ dangling nodes e) ->
   validateDAG nodes edges = Some (Invalid "Edge references non-existent node")) /\
  ((forall e, e ∈ edges -> ~ dangling nodes e) ->
   (exists v, tc (edge_rel nodes edges) v v) ->
   validateDAG nodes edges = Some (Invalid "Workflow contains a cycle")).
Proof.
  unfold validateDAG. set (ids := set_of (map id nodes)).
  assert (Hvalid : (forall e, e ∈ edges -> ~ dangling nodes e) ->
                   adjacency_checked ids edges (init_map [] ids ∅)
                   = Some (build_graph ids edges).1).
  { intros H. apply adjacency_checked_valid. intros e He.
    destruct (valid_edge ids e) eqn:E; [reflexivity|].
    apply valid_edge_false in E. now apply H in E. }
  destruct (search_decides_cycles nodes edges) as (b & E & Hb). fold ids in E.
  split; [|split].
  - intros Hnd Hacyc. rewrite (Hvalid Hnd), E.
    destruct b; [|reflexivity]. exfalso.
    destruct (proj1 Hb eq_refl) as (v & Hv). exact (Hacyc v Hv).
  - intros (e & He & Hd). rewrite adjacency_checked_dangling; [reflexivity|].
    exists e. split; [exact He|]. now apply valid_edge_false.
  - intros Hnd Hcyc. rewrite (Hvalid Hnd), E.
    apply Hb in Hcyc. now rewrite Hcyc.
Qed.

(** Instances: the diamond is valid, a two-node cycle is rejected as a
    cycle, and an edge to an absent node is rejected as such. *)
Lemma validateDAG_decides_instances :
  validateDAG diamond_nodes diamond_edges = Some Valid /\
  validateDAG loop_and_dangling_nodes loop_and_dangling_edges
  = Some (Invalid "Edge references non-existent node") /\
  validateDAG two_cycle_nodes two_cycle_edges = Some (Invalid "Workflow contains a cycle").
Proof.
  split; [|split].
  - apply (validateDAG_decides diamond_nodes diamond_edges); [|exact diamond_acyclic].
    intros e He [H|H]; apply H; unfold diamond_edges in He;
      repeat (apply elem_of_cons in He as [->|He]; [simpl; set_solver|]);
      now apply elem_of_nil in He.
  - apply (validateDAG_decides loop_and_dangling_nodes loop_and_dangling_edges).
    exists {| source := "A"; target := "Z" |}. split; [right; left|].
    right. simpl. set_solver.
  - apply (validateDAG_decides two_cycle_nodes two_cycle_edges).
    + intros e He [H|H]; apply H; unfold two_cycle_edges in He;
        repeat (apply elem_of_cons in He as [->|He]; [simpl; set_solver|]);
        now apply elem_of_nil in He.
    + exists "A"%string. apply tc_l with "B"%string; [|apply tc_once];
        unfold edge_rel; simpl; repeat split; set_solver.
Defined.

End Validator.

(* --------------------------------------------------------------------- *)
(** ** The execution engine                                               *)
(* --------------------------------------------------------------------- *)

Section EngineFacts.
Import JS Engine.

Lemma elem_of_insert_inv {A : Type} (l : list A) (k : nat) (x y : A) :
  y ∈ <[k := x]> l -> y = x \/ y ∈ l.
Proof.
  revert k. induction l as [|a l IH]; intros [|k]; simpl; intros H.
  - now right.
  - now right.
  - apply elem_of_cons in H as [->|H]; [now left|right; now right].
  - apply elem_of_cons in H as [->|H]; [right; left|].
    destruct (IH k H) as [->|H']; [now left|right; now right].
Qed.

Lemma elem_of_insert_keep {A : Type} (l : list A) (k : nat) (x x0 y : A) :
  l !! k = Some x0 -> y ∈ l -> y <> x0 -> y ∈ <[k := x]> l.
Proof.
  revert k. induction l as [|a l IH]; intros [|k]; simpl; intros Hk Hy Hne.
  - discriminate.
  - discriminate.
  - injection Hk as ->. apply elem_of_cons in Hy as [->|Hy]; [contradiction|now right].
  - apply elem_of_cons in Hy as [->|Hy]; [left|right; eapply IH; eassumption].
Qed.

Lemma fmap_insert_same {A B : Type} (f : A -> B) (l : list A) (k : nat) (x x0 : A) :
  l !! k = Some x0 -> f x = f x0 -> f <$> <[k := x]> l = f <$> l.
Proof.
  revert k. induction l as [|a l IH]; intros [|k]; simpl; intros Hk Hf; try reflexivity.
  - injection Hk as ->. now rewrite Hf.
  - f_equal. now apply IH.
Qed.

Lemma NoDup_concat_lookup {A : Type} (l : list (list A)) (i : nat) (a : list A) :
  NoDup (concat l) -> l !! i = Some a -> NoDup a.
Proof.
  revert i. induction l as [|b l IH]; intros [|i]; simpl; intros Hnd Hi; try discriminate.
  - injection Hi as ->. now apply NoDup_app in Hnd as (H & _).
  - apply NoDup_app in Hnd as (_ & _ & H). eapply IH; eassumption.
Qed.

Lemma elem_of_concat_lookup {A : Type} (l : list (list A)) (j : nat) (b : list A) (x : A) :
  l !! j = Some b -> x ∈ b -> x ∈ concat l.
Proof.
  revert j. induction l as [|g l IH]; intros [|j]; simpl; intros Hj Hx; try discriminate.
  - injection Hj as ->. apply elem_of_app. now left.
  - apply elem_of_app. right. eapply IH; eassumption.
Qed.

Lemma NoDup_concat_disjoint {A : Type} (l : list (list A)) (i j : nat) (a b : list A) (x : A) :
  NoDup (concat l) -> l !! i = Some a -> l !! j = Some b -> (i < j)%nat ->
  x ∈ a -> x ∈ b -> False.
Proof.
  revert i j. induction l as [|g l IH]; intros i j Hnd Hi Hj Hlt Ha Hb; [discriminate|].
  simpl in Hnd. apply NoDup_app in Hnd as (_ & Hdis & Hnd).
  destruct i as [|i], j as [|j]; simpl in *; try lia.
  - injection Hi as ->. apply (Hdis x Ha).
    eapply elem_of_concat_lookup; eassumption.
  - apply (IH i j Hnd Hi Hj); [lia|assumption|assumption].
Qed.

Lemma nodeMap_fold_lookup (l : list WorkflowNode) (m : gmap string WorkflowNode)
      (x : string) (n : WorkflowNode) :
  fold_left (fun m n => <[id n := n]> m) l m !! x = Some n ->
  (n ∈ l /\ id n = x) \/ m !! x = Some n.
Proof.
  revert m. induction l as [|a l IH]; intros m; simpl; [now right|].
  intros H. destruct (IH _ H) as [[H1 H2]|H1].
  - left. split; [now right|exact H2].
  - destruct (decide (id a = x)) as [<-|Hne].
    + rewrite lookup_insert_eq in H1. injection H1 as <-. left. split; [left|reflexivity].
    + rewrite lookup_insert_ne in H1 by exact Hne. now right.
Qed.

Lemma nodeMap_lookup (nodes : list WorkflowNode) (x : string) (n : WorkflowNode) :
  nodeMap nodes !! x = Some n -> n ∈ nodes /\ id n = x.
Proof.
  intros H. destruct (nodeMap_fold_lookup nodes ∅ x n H) as [H'|H']; [exact H'|].
  now rewrite lookup_empty in H'.
Qed.

Lemma pending_fold_lookup (l : list WorkflowNode) (now : Z) (m : gmap string NodeLog) (x : string) :
  fold_left (fun m n => <[id n := pending_log now]> m) l m !! x =
  if bool_decide (x ∈ map id l) then Some (pending_log now) else m !! x.
Proof.
  revert m. induction l as [|a l IH]; intros m; simpl; [reflexivity|].
  rewrite IH. destruct (decide (x ∈ map id l)) as [Hx|Hx].
  - rewrite (bool_decide_eq_true_2 _ Hx).
    now rewrite (bool_decide_eq_true_2 (x ∈ id a :: map id l)) by now right.
  - rewrite (bool_decide_eq_false_2 _ Hx). destruct (decide (id a = x)) as [<-|Hne].
    + rewrite lookup_insert_eq.
      now rewrite (bool_decide_eq_true_2 (id a ∈ id a :: map id l)) by left.
    + rewrite lookup_insert_ne by exact Hne.
      rewrite (bool_decide_eq_false_2 (x ∈ id a :: map id l)); [reflexivity|].
      intros H. apply elem_of_cons in H as [H|H]; [congruence|contradiction].
Qed.

(** Every node to execute starts with a PENDING log. *)
Lemma pending_logs_lookup (nodes : list WorkflowNode) (now : Z) (n : WorkflowNode) :
  n ∈ nodes -> pending_logs nodes now !! id n = Some (pending_log now).
Proof.
  intros Hn. unfold pending_logs. fold (pending_log now).
  rewrite pending_fold_lookup, bool_decide_eq_true_2; [reflexivity|].
  apply list_elem_of_fmap. eauto.
Qed.

Lemma updateNodeLog_other (n x : string) (st : NodeStatus) (out : option value)
      (err : option string) (dur : option Z) (now : Z) (logs : gmap string NodeLog) :
  x <> n -> updateNodeLog n st out err dur now logs !! x = logs !! x.
Proof. intros H. unfold updateNodeLog. apply lookup_alter_ne. congruence. Qed.

Lemma updateNodeLog_is_Some (n x : string) (st : NodeStatus) (out : option value)
      (err : option string) (dur : option Z) (now : Z) (logs : gmap string NodeLog) :
  is_Some (logs !! x) -> is_Some (updateNodeLog n st out err dur now logs !! x).
Proof.
  intros [l Hl]. unfold updateNodeLog. destruct (decide (n = x)) as [->|Hne].
  - rewrite lookup_alter_eq, Hl. simpl. eauto.
  - rewrite lookup_alter_ne by exact Hne. eauto.
Qed.

Lemma spawn_elem (nodes : list WorkflowNode) (i : nat) (grp : list string) (t : task) :
  t ∈ spawn nodes i grp ->
  group t = i /\ st t = Starting /\ taskid t ∈ grp /\ node t ∈ nodes.
Proof.
  unfold spawn. rewrite list_elem_of_omap. intros (x & Hx & H).
  destruct (nodeMap nodes !! x) as [n|] eqn:E; [|discriminate].
  injection H as <-. apply nodeMap_lookup in E as [Hn Hid]. unfold taskid. simpl.
  rewrite Hid. auto.
Qed.

Lemma spawn_ids_NoDup (nodes : list WorkflowNode) (i : nat) (grp : list string) :
  NoDup grp -> NoDup (taskid <$> spawn nodes i grp).
Proof.
  induction grp as [|x grp IH]; intros Hnd; [apply NoDup_nil_2|].
  apply NoDup_cons in Hnd as [Hx Hnd]. unfold spawn. simpl.
  destruct (nodeMap nodes !! x) as [n|] eqn:E; [|now apply IH].
  simpl. apply NoDup_cons. split; [|now apply IH].
  intros H. apply list_elem_of_fmap in H as (t & Ht & Hin).
  apply spawn_elem in Hin as (_ & _ & Hin & _).
  apply nodeMap_lookup in E as [_ Hid]. unfold taskid in *. simpl in Ht.
  rewrite <- Ht, Hid in Hin. contradiction.
Qed.

End EngineFacts.

Section EngineInvariant.
Import JS Engine.

Variable c : collaborators.
Variable nodes : list WorkflowNode.
Variable edges : list WorkflowEdge.
Variable parallelGroups : list (list string).
Variable start : Z.

(** The groups come from the scheduler: no node id occurs twice. *)
Hypothesis groups_distinct : NoDup (concat parallelGroups).

Local Abbreviation inv := (invariant nodes parallelGroups start).

Lemma elem_of_insert_cases {A : Type} (l : list A) (k : nat) (x y : A) :
  y ∈ <[k := x]> l -> y = x \/ exists j, j <> k /\ l !! j = Some y.
Proof.
  intros H. apply list_elem_of_lookup in H as (j & Hj).
  destruct (decide (j = k)) as [->|Hne].
  - left. destruct (decide (k < List.length l)%nat) as [Hlt|Hge].
    + rewrite list_lookup_insert_eq in Hj by exact Hlt. congruence.
    + rewrite list_insert_ge in Hj by lia. apply lookup_lt_Some in Hj. lia.
  - right. exists j. split; [exact Hne|]. now rewrite list_lookup_insert_ne in Hj.
Qed.

Lemma invariant_initial : inv (initial nodes start).
Proof.
  split; simpl.
  - intros t Ht. now apply elem_of_nil in Ht.
  - intros t Ht. now apply elem_of_nil in Ht.
  - intros t Ht. now apply elem_of_nil in Ht.
  - apply NoDup_nil_2.
  - intros t Ht. now apply elem_of_nil in Ht.
  - intros n Hn. rewrite (pending_logs_lookup nodes start n Hn). eauto.
  - reflexivity.
  - reflexivity.
Qed.

(** A task that is still running changes its state and the log of its own
    node. *)
Lemma invariant_update (cf : config) (k : nat) (t : task) (s' : task_state)
      (outs' : gmap string value) (logs' : gmap string NodeLog) :
  inv cf -> tasks cf !! k = Some t ->
  settled_ok t = false -> settled_failed t = false ->
  (forall x, x <> taskid t -> logs' !! x = logs cf !! x) ->
  (forall x, is_Some (logs cf !! x) -> is_Some (logs' !! x)) ->
  log_matches (logs' !! taskid t) s' ->
  inv {| now_phase := now_phase cf; groupIndex := groupIndex cf;
         tasks := <[k := {| group := group t; node := node t; st := s' |}]> (tasks cf);
         outputs := outs'; logs := logs'; run := run cf |}.
Proof.
  intros [Hb He Ho Hd Hl Hdom Hu Hr] Hk Hok Hfail Hother Hsome Hmatch.
  assert (Ht : t ∈ tasks cf) by (eapply list_elem_of_lookup_2; exact Hk).
  set (t' := {| group := group t; node := node t; st := s' |}).
  assert (Hids : taskid <$> <[k := t']> (tasks cf) = taskid <$> tasks cf)
    by (apply (fmap_insert_same taskid _ _ _ t Hk); reflexivity).
  assert (Hcases : forall x, x ∈ <[k := t']> (tasks cf) ->
            x = t' \/ (x ∈ tasks cf /\ taskid x <> taskid t)).
  { intros x Hx. apply elem_of_insert_cases in Hx as [->|(j & Hj & Hx)]; [now left|right].
    split; [eapply list_elem_of_lookup_2; exact Hx|].
    intros Heq. apply Hj. eapply (NoDup_lookup _ _ _ _ Hd).
    - rewrite list_lookup_fmap, Hx. simpl. rewrite Heq. reflexivity.
    - rewrite list_lookup_fmap, Hk. reflexivity. }
  split; simpl.
  - intros x Hx. destruct (Hcases x Hx) as [->|[Hx' _]]; [apply (Hb t Ht)|now apply Hb].
  - intros x Hx Hlt. destruct (Hcases x Hx) as [->|[Hx' _]]; [|now apply He].
    simpl in Hlt. rewrite (He t Ht Hlt) in Hok. discriminate.
  - intros x Hx. destruct (Hcases x Hx) as [->|[Hx' _]]; [apply (Ho t Ht)|now apply Ho].
  - now rewrite Hids.
  - intros x Hx. destruct (Hcases x Hx) as [->|[Hx' Hne]]; [exact Hmatch|].
    rewrite (Hother _ Hne). now apply Hl.
  - intros n Hn. apply Hsome. now apply Hdom.
  - intros x Hx. rewrite Hids in Hx. rewrite Hother; [now apply Hu|].
    intros ->. apply Hx. apply list_elem_of_fmap. eauto.
  - destruct (now_phase cf); try exact Hr.
    destruct Hr as [[Hrun (tr & Htr & Hf)]|[Hrun Hall]].
    + left. split; [exact Hrun|]. exists tr. split; [|exact Hf].
      eapply elem_of_insert_keep; [exact Hk|exact Htr|]. intros ->. congruence.
    + rewrite (Hall t Ht) in Hok. discriminate.
Qed.

Lemma invariant_dispatch (cf : config) (grp : list string) :
  inv cf -> now_phase cf = AtGroup -> parallelGroups !! groupIndex cf = Some grp ->
  inv (dispatch nodes cf grp).
Proof.
  intros [Hb He Ho Hd Hl Hdom Hu Hr] Hp Hg.
  assert (Hold : forall t, t ∈ tasks cf -> (group t < groupIndex cf)%nat).
  { intros t Ht. destruct (Hb t Ht) as [H|[_ H]]; [exact H|contradiction]. }
  split; simpl.
  - intros t Ht. apply elem_of_app in Ht as [Ht|Ht]; [left; now apply Hold|].
    apply spawn_elem in Ht as (Hgr & _). right. split; [exact Hgr|discriminate].
  - intros t Ht Hlt. apply elem_of_app in Ht as [Ht|Ht]; [now apply He|].
    apply spawn_elem in Ht as (Hgr & _). lia.
  - intros t Ht. apply elem_of_app in Ht as [Ht|Ht]; [now apply Ho|].
    apply spawn_elem in Ht as (Hgr & _ & Hin & Hn). split; [exact Hn|].
    exists grp. rewrite Hgr. auto.
  - rewrite fmap_app. apply NoDup_app. split; [exact Hd|]. split.
    + intros x Hx Hx'.
      apply list_elem_of_fmap in Hx as (t & -> & Ht).
      apply list_elem_of_fmap in Hx' as (t' & Heq & Ht').
      destruct (Ho t Ht) as (_ & g & Hg' & Hin).
      apply spawn_elem in Ht' as (_ & _ & Hin' & _). rewrite <- Heq in Hin'.
      exact (NoDup_concat_disjoint _ _ _ _ _ _ groups_distinct Hg' Hg (Hold t Ht) Hin Hin').
    + apply spawn_ids_NoDup. eapply NoDup_concat_lookup; eassumption.
  - intros t Ht. apply elem_of_app in Ht as [Ht|Ht]; [now apply Hl|].
    apply spawn_elem in Ht as (_ & Hst & _ & Hn). rewrite Hst. simpl.
    now apply Hdom.
  - exact Hdom.
  - intros x Hx. apply Hu. intros H. apply Hx. rewrite fmap_app. apply elem_of_app. now left.
  - now rewrite Hp in Hr.
Qed.

Lemma invariant_advance (cf : config) :
  inv cf -> now_phase cf = Awaiting ->
  forallb settled_ok (List.filter (in_group (groupIndex cf)) (tasks cf)) = true ->
  inv (advance cf).
Proof.
  intros [Hb He Ho Hd Hl Hdom Hu Hr] Hp Hall. split; simpl; try assumption.
  - intros t Ht. left. destruct (Hb t Ht) as [H|[H _]]; lia.
  - intros t Ht Hlt. destruct (decide (group t = groupIndex cf)) as [Heq|Hne].
    + rewrite forallb_forall in Hall. apply Hall. apply filter_In.
      split; [now apply list_elem_of_In|]. unfold in_group. now apply Nat.eqb_eq.
    + apply He; [exact Ht|lia].
  - now rewrite Hp in Hr.
Qed.

Lemma invariant_complete (cf : config) :
  inv cf -> now_phase cf = AtGroup -> inv (finish cf COMPLETED).
Proof.
  intros [Hb He Ho Hd Hl Hdom Hu Hr] Hp. split; simpl; try assumption.
  - intros t Ht. destruct (Hb t Ht) as [H|[_ H]]; [now left|contradiction].
  - right. split; [reflexivity|]. intros t Ht. apply He; [exact Ht|].
    destruct (Hb t Ht) as [H|[_ H]]; [exact H|contradiction].
Qed.

Lemma invariant_abort (cf : config) :
  inv cf -> now_phase cf = Awaiting ->
  existsb settled_failed (List.filter (in_group (groupIndex cf)) (tasks cf)) = true ->
  inv (finish cf RUN_FAILED).
Proof.
  intros [Hb He Ho Hd Hl Hdom Hu Hr] Hp Hex. split; simpl; try assumption.
  - intros t Ht. destruct (Hb t Ht) as [H|[H _]]; [now left|].
    right. split; [exact H|discriminate].
  - left. split; [reflexivity|]. apply existsb_exists in Hex as (t & Ht & Hf).
    apply filter_In in Ht as [Ht _]. exists t. split; [now apply list_elem_of_In|exact Hf].
Qed.

(** The three steps of a running task differ only in the new state and
    in the log update; the invariant is re-established the same way. *)
Ltac running_task_step Hinv Hk Hst :=
  match type of Hk with
  | tasks ?cf !! _ = Some ?t =>
      let Ht := fresh "Ht" in
      let Hm := fresh "Hm" in
      assert (Ht : t ∈ tasks cf) by (eapply list_elem_of_lookup_2; exact Hk);
      pose proof (inv_logs _ _ _ _ Hinv t Ht) as Hm;
      rewrite Hst in Hm; simpl in Hm;
      apply invariant_update; try assumption;
      [ unfold settled_ok; now rewrite Hst
      | unfold settled_failed; now rewrite Hst
      | intros x Hx; now apply updateNodeLog_other
      | intros x; apply updateNodeLog_is_Some
      | destruct Hm as (l & Hl); try destruct Hl as (Hl & _);
        simpl; unfold updateNodeLog; rewrite lookup_alter_eq;
        fold (taskid t); rewrite Hl; simpl; eauto 10 ]
  end.

Lemma invariant_step (cf cf' : config) :
  inv cf -> step c nodes edges parallelGroups cf cf' -> inv cf'.
Proof.
  intros Hinv Hstep.
  destruct Hstep as [cf grp Hp Hg|cf k t now Hk Hst|cf k t s0 now ud out Hk Hst Hex
                    |cf k t s0 now ud message Hk Hst Hex|cf Hp Hall|cf Hp Hg|cf Hp Hex].
  - now apply invariant_dispatch.
  - running_task_step Hinv Hk Hst.
  - running_task_step Hinv Hk Hst.
  - running_task_step Hinv Hk Hst.
  - now apply invariant_advance.
  - now apply invariant_complete.
  - now apply invariant_abort.
Qed.

Lemma reachable_invariant (cf : config) :
  reachable c nodes edges parallelGroups start cf -> inv cf.
Proof.
  induction 1 as [|cf cf' _ IH Hstep]; [apply invariant_initial|].
  eapply invariant_step; eassumption.
Qed.

End EngineInvariant.

Section EngineClaim.
Import JS Engine.

Variable c : collaborators.
Variable nodes : list WorkflowNode.
Variable edges : list WorkflowEdge.
Variable parallelGroups : list (list string).
Variable start : Z.

Hypothesis groups_distinct : NoDup (concat parallelGroups).

Local Abbreviation step := (step c nodes edges parallelGroups).
Local Abbreviation reachable := (reachable c nodes edges parallelGroups start).

Lemma reachable_rtc (cf cf' : config) : reachable cf -> rtc step cf cf' -> reachable cf'.
Proof.
  intros H Hsteps. induction Hsteps as [cf|cf cf1 cf2 Hs _ IH]; [exact H|].
  apply IH. eapply reachable_step; eassumption.
Qed.

(** A settled task stays in the task list as it is. *)
Lemma settled_task_persists (cf cf' : config) (t : task) :
  step cf cf' -> t ∈ tasks cf -> settled_ok t || settled_failed t = true -> t ∈ tasks cf'.
Proof.
  intros Hstep Ht Hs.
  destruct Hstep as [cf grp Hp Hg|cf k t0 now Hk Hst|cf k t0 s0 now ud out Hk Hst Hex
                    |cf k t0 s0 now ud message Hk Hst Hex|cf Hp Hall|cf Hp Hg|cf Hp Hex];
    simpl; try exact Ht.
  - apply elem_of_app. now left.
  - eapply elem_of_insert_keep; [exact Hk|exact Ht|].
    intros ->. unfold settled_ok, settled_failed in Hs. rewrite Hst in Hs. discriminate.
  - eapply elem_of_insert_keep; [exact Hk|exact Ht|].
    intros ->. unfold settled_ok, settled_failed in Hs. rewrite Hst in Hs. discriminate.
  - eapply elem_of_insert_keep; [exact Hk|exact Ht|].
    intros ->. unfold settled_ok, settled_failed in Hs. rewrite Hst in Hs. discriminate.
Qed.

Lemma settled_task_persists_rtc (cf cf' : config) (t : task) :
  rtc step cf cf' -> t ∈ tasks cf -> settled_ok t || settled_failed t = true -> t ∈ tasks cf'.
Proof.
  induction 1 as [cf|cf cf1 cf2 Hs _ IH]; intros Ht Hset; [exact Ht|].
  apply IH; [|exact Hset]. eapply settled_task_persists; eassumption.
Qed.

(** C6. Take any run and any moment at which the executor of a node has
    failed. From then on, in every configuration the run can reach: the log
    of that node says FAILED with the error message and the elapsed time; no
    task belongs to a later wave than the failed node's, so no later wave is
    ever dispatched; the run is never COMPLETED, it is FAILED once the engine
    has finished, and until then the step that marks it FAILED is enabled;
    every node that has not been dispatched still has its PENDING log; and
    every task that succeeded has a SUCCESS log with its output and elapsed
    time. *)
Theorem failed_run_audit_trail (cf : config) (t : task) (message : string) (elapsed : Z) :
  reachable cf -> t ∈ tasks cf -> st t = Rejected message elapsed ->
  forall cf', rtc step cf cf' ->
    (exists l, logs cf' !! taskid t = Some l /\ status l = FAILED /\
               error l = Some message /\ duration l = Some elapsed) /\
    (forall t', t' ∈ tasks cf' -> (group t' <= group t)%nat) /\
    run cf' <> COMPLETED /\
    (now_phase cf' = Finished -> run cf' = RUN_FAILED) /\
    (now_phase cf' <> Finished -> step cf' (finish cf' RUN_FAILED)) /\
    (forall n, n ∈ nodes -> id n ∉ taskid <$> tasks cf' ->
       logs cf' !! id n = Some (pending_log start)) /\
    (forall t' out d, t' ∈ tasks cf' -> st t' = Fulfilled out d ->
       exists l, logs cf' !! taskid t' = Some l /\ status l = SUCCESS /\
                 log_output l = Some (sanitizeOutput out) /\ duration l = Some d).
Proof.
  intros Hreach Ht Hst cf' Hsteps.
  assert (Hfailed : settled_failed t = true) by (unfold settled_failed; now rewrite Hst).
  assert (Hnot_ok : settled_ok t = false) by (unfold settled_ok; now rewrite Hst).
  assert (Ht' : t ∈ tasks cf').
  { eapply settled_task_persists_rtc; [exact Hsteps|exact Ht|]. now rewrite Hfailed, orb_true_r. }
  pose proof (reachable_invariant c nodes edges parallelGroups start groups_distinct cf'
                (reachable_rtc cf cf' Hreach Hsteps)) as [Hb He Ho Hd Hl Hdom Hu Hr].
  assert (Hgroup : group t = groupIndex cf' /\ now_phase cf' <> AtGroup).
  { destruct (Hb t Ht') as [Hlt|H]; [|exact H].
    rewrite (He t Ht' Hlt) in Hnot_ok. discriminate. }
  destruct Hgroup as [Hgi Hphase].
  split; [|split; [|split; [|split; [|split; [|split]]]]].
  - pose proof (Hl t Ht') as Hm. rewrite Hst in Hm. exact Hm.
  - intros t' Hin. destruct (Hb t' Hin) as [H|[H _]]; lia.
  - destruct (now_phase cf'); try (rewrite Hr; discriminate).
    destruct Hr as [[Hrun _]|[Hrun Hall]]; [rewrite Hrun; discriminate|].
    rewrite (Hall t Ht') in Hnot_ok. discriminate.
  - intros Hfin. rewrite Hfin in Hr.
    destruct Hr as [[Hrun _]|[Hrun Hall]]; [exact Hrun|].
    rewrite (Hall t Ht') in Hnot_ok. discriminate.
  - intros Hfin. apply step_abort.
    + destruct (now_phase cf'); [contradiction|reflexivity|contradiction].
    + apply existsb_exists. exists t. split; [|exact Hfailed].
      apply filter_In. split; [now apply list_elem_of_In|].
      unfold in_group. now apply Nat.eqb_eq.
  - intros n Hn Hnot. rewrite (Hu _ Hnot). now apply pending_logs_lookup.
  - intros t2 out d Hin Hst2. pose proof (Hl t2 Hin) as Hm. rewrite Hst2 in Hm. exact Hm.
Qed.

End EngineClaim.

Section EngineExample.
Import JS Engine.

Lemma example_groups_distinct : NoDup (concat example_groups).
Proof. apply (bool_decide_unpack _). vm_compute. exact I. Qed.

Lemma example_run_reachable :
  reachable example_collaborators example_nodes example_edges example_groups 0 example_run.
Proof.
  unfold example_run. cbv zeta.
  eapply reachable_step; [|eapply step_failure; reflexivity].
  eapply reachable_step; [|eapply step_success; reflexivity].
  eapply reachable_step; [|eapply step_begin; reflexivity].
  eapply reachable_step; [|eapply step_begin; reflexivity].
  eapply reachable_step; [|eapply step_dispatch; reflexivity].
  apply reachable_initial.
Qed.

(** The example of the specification: the crop node fails for want of an
    input, its sibling text node still shows SUCCESS, the LLM node of the
    second wave is still PENDING, and the run ends FAILED. *)
Lemma failed_run_audit_trail_example :
  (exists l, logs example_final !! "crop-1" = Some l /\ status l = FAILED /\
             error l = Some "No image input connected" /\ duration l = Some 7) /\
  (forall t', t' ∈ tasks example_final -> (group t' <= 0)%nat) /\
  run example_final = RUN_FAILED /\
  logs example_final !! "llm-1" = Some (pending_log 0) /\
  (exists l, logs example_final !! "text-1" = Some l /\ status l = SUCCESS /\
             log_output l = Some (VStr "hello") /\ duration l = Some 5).
Proof.
  assert (Hstep : step example_collaborators example_nodes example_edges example_groups
                       example_run example_final) by (apply step_abort; reflexivity).
  destruct (failed_run_audit_trail example_collaborators example_nodes example_edges
              example_groups 0 example_groups_distinct example_run
              (crop_task (Rejected "No image input connected" 7))
              "No image input connected" 7 example_run_reachable)
    with (cf' := example_final) as (H1 & H2 & _ & H4 & _ & H6 & H7).
  - right. left.
  - reflexivity.
  - apply rtc_once. exact Hstep.
  - split; [exact H1|]. split; [exact H2|]. split; [apply H4; reflexivity|].
    split.
    + apply (H6 llm_node).
      * right. right. left.
      * apply (bool_decide_unpack _). vm_compute. exact I.
    + apply (H7 (text_task (Fulfilled (VStr "hello") 5)) (VStr "hello") 5); [left|reflexivity].
Defined.

End EngineExample.

(* --------------------------------------------------------------------- *)
(** ** The breadth-first search of getUpstreamNodes and getDownstreamNodes *)
(* --------------------------------------------------------------------- *)

Section GraphSearch.
Import Dag DagQueries.

Lemma add_fresh (visited : list string) (x : string) :
  x ∉ visited -> add visited x = visited ++ [x].
Proof. intros H. unfold add. apply has_false in H. now rewrite H. Qed.

Lemma enqueue_fold_elem (visited ns queue : list string) (x : string) :
  x ∈ fold_left (enqueue visited) ns queue <-> x ∈ queue \/ (x ∈ ns /\ x ∉ visited).
Proof.
  revert queue. induction ns as [|n ns IH]; intros queue; simpl.
  - rewrite elem_of_nil. tauto.
  - rewrite IH. unfold enqueue. destruct (has visited n) eqn:E; simpl.
    + apply has_true in E. rewrite elem_of_cons. split; [tauto|].
      intros [H|[[->|H] Hx]]; tauto.
    + apply has_false in E. rewrite elem_of_app, list_elem_of_singleton, elem_of_cons.
      split; [|tauto]. intros [[H| ->]|H]; tauto.
Qed.

Lemma enqueue_fold_length (visited ns queue : list string) :
  (List.length (fold_left (enqueue visited) ns queue) <= List.length queue + List.length ns)%nat.
Proof.
  revert queue. induction ns as [|n ns IH]; intros queue; simpl; [lia|].
  etransitivity; [apply IH|]. unfold enqueue.
  destruct (negb (has visited n)); [rewrite length_app; simpl|]; lia.
Qed.

Lemma rtc_flip {A : Type} (R S : relation A) (x y : A) :
  (forall a b, R a b -> S b a) -> rtc R x y -> rtc S y x.
Proof.
  intros H. induction 1 as [|a b d Hab _ IH]; [constructor|].
  eapply rtc_r; [exact IH|]. now apply H.
Qed.

Variable adjacency : gmap string (list string).
Variable weight : list string -> nat.
Hypothesis weight_visit :
  forall (visited : list string) (x : string),
    x ∉ visited ->
    (weight (visited ++ [x]) + List.length (default [] (adjacency !! x)) <= weight visited)%nat.

Local Abbreviation next := (Dag.next adjacency).

Lemma closed_contains (visited : list string) (start : string) :
  start ∈ visited ->
  (forall v p, v ∈ visited -> next v p -> p ∈ visited) ->
  forall x, rtc next start x -> x ∈ visited.
Proof.
  intros Hstart Hclosed x Hx. induction Hx as [|a b d Hab _ IH]; [exact Hstart|].
  apply IH. now apply (Hclosed a b).
Qed.

(** With a queue that fits the fuel, the search returns exactly the nodes
    that [start] reaches along the adjacency, each once. *)
Lemma search_spec (fuel : nat) :
  forall (visited queue : list string) (start : string),
    NoDup visited ->
    (forall x, x ∈ visited \/ x ∈ queue -> rtc next start x) ->
    (start ∈ visited \/ start ∈ queue) ->
    (forall v p, v ∈ visited -> next v p -> p ∈ visited \/ p ∈ queue) ->
    (List.length queue + weight visited <= fuel)%nat ->
    exists res,
      search fuel adjacency visited queue = Some res /\
      NoDup res /\ forall x, x ∈ res <-> rtc next start x.
Proof.
  induction fuel as [|fuel IH]; intros visited queue start Hnd Hreach Hstart Hclosed Hfuel.
  - destruct queue as [|c queue]; [|simpl in Hfuel; lia].
    exists visited. split; [reflexivity|]. split; [exact Hnd|].
    intros x. split; [intros Hx; apply Hreach; now left|].
    apply closed_contains.
    + destruct Hstart as [H|H]; [exact H|now apply elem_of_nil in H].
    + intros v p Hv Hp.
      destruct (Hclosed v p Hv Hp) as [H|H]; [exact H|now apply elem_of_nil in H].
  - destruct queue as [|c queue].
    { exists visited. split; [reflexivity|]. split; [exact Hnd|].
      intros x. split; [intros Hx; apply Hreach; now left|].
      apply closed_contains.
      + destruct Hstart as [H|H]; [exact H|now apply elem_of_nil in H].
      + intros v p Hv Hp.
        destruct (Hclosed v p Hv Hp) as [H|H]; [exact H|now apply elem_of_nil in H]. }
    cbn [search]. destruct (has visited c) eqn:Ec.
    + apply has_true in Ec. apply IH; try assumption.
      * intros x [H|H]; apply Hreach; [now left|right; now right].
      * destruct Hstart as [H|H]; [now left|].
        apply elem_of_cons in H as [->|H]; [now left|now right].
      * intros v p Hv Hp. destruct (Hclosed v p Hv Hp) as [H|H]; [now left|].
        apply elem_of_cons in H as [->|H]; [now left|now right].
      * simpl in Hfuel. lia.
    + apply has_false in Ec. rewrite (add_fresh visited c Ec).
      apply IH.
      * apply NoDup_app. repeat split; [exact Hnd| |apply NoDup_singleton].
        intros x Hx Hx'. apply list_elem_of_singleton in Hx'. now subst.
      * intros x [H|H].
        -- apply elem_of_app in H as [H|H]; [apply Hreach; now left|].
           apply list_elem_of_singleton in H as ->. apply Hreach. right. left.
        -- apply enqueue_fold_elem in H as [H|[H _]]; [apply Hreach; right; now right|].
           eapply rtc_r; [apply Hreach; right; left|exact H].
      * destruct Hstart as [H|H]; [left; apply elem_of_app; now left|].
        apply elem_of_cons in H as [->|H].
        -- left. apply elem_of_app. right. now apply list_elem_of_singleton.
        -- right. apply enqueue_fold_elem. now left.
      * intros v p Hv Hp.
        destruct (decide (p ∈ visited ++ [c])) as [Hin|Hout]; [now left|right].
        apply enqueue_fold_elem.
        apply elem_of_app in Hv as [Hv|Hv].
        -- destruct (Hclosed v p Hv Hp) as [H|H].
           ++ exfalso. apply Hout. apply elem_of_app. now left.
           ++ apply elem_of_cons in H as [->|H]; [|now left].
              exfalso. apply Hout. apply elem_of_app. right. now apply list_elem_of_singleton.
        -- apply list_elem_of_singleton in Hv as ->. right. split; [exact Hp|exact Hout].
      * pose proof (enqueue_fold_length (visited ++ [c]) (default [] (adjacency !! c)) queue).
        pose proof (weight_visit visited c Ec). simpl in Hfuel. lia.
Qed.

End GraphSearch.

Section UpstreamDownstream.
Import Dag DagQueries.

Variable ids : list string.
Variable edges : list DAGEdge.

Lemma reverse_adjacency_lookup (k : string) :
  reverse_adjacency ids edges !! k = if has ids k then Some (predecessors ids edges k) else None.
Proof.
  unfold reverse_adjacency, predecessors. induction edges as [|e es IH] using rev_ind.
  - simpl. rewrite init_map_lookup, lookup_empty. destruct (has ids k); reflexivity.
  - rewrite fold_left_app, List.filter_app, map_app. cbn [fold_left List.filter].
    unfold add_source at 1. fold (valid_edge ids e).
    destruct (valid_edge ids e) eqn:Hv; cbn [andb].
    + apply valid_edge_true in Hv as [Hs Ht].
      destruct (String.eqb_spec (target e) k) as [Heq|Hne].
      * rewrite Heq, lookup_alter_eq, IH. destruct (has ids k); reflexivity.
      * rewrite lookup_alter_ne by exact Hne. rewrite IH.
        destruct (has ids k); [now rewrite app_nil_r|reflexivity].
    + rewrite IH. destruct (has ids k); [now rewrite app_nil_r|reflexivity].
Qed.

Lemma forward_adjacency_lookup (k : string) :
  forward_adjacency ids edges !! k = if has ids k then Some (successors ids edges k) else None.
Proof.
  unfold forward_adjacency, successors. induction edges as [|e es IH] using rev_ind.
  - simpl. rewrite init_map_lookup, lookup_empty. destruct (has ids k); reflexivity.
  - rewrite fold_left_app, List.filter_app, map_app. cbn [fold_left List.filter].
    unfold add_target at 1. fold (valid_edge ids e).
    destruct (valid_edge ids e) eqn:Hv; cbn [andb].
    + apply valid_edge_true in Hv as [Hs Ht].
      destruct (String.eqb_spec (source e) k) as [Heq|Hne].
      * rewrite Heq, lookup_alter_eq, IH. destruct (has ids k); reflexivity.
      * rewrite lookup_alter_ne by exact Hne. rewrite IH.
        destruct (has ids k); [now rewrite app_nil_r|reflexivity].
    + rewrite IH. destruct (has ids k); [now rewrite app_nil_r|reflexivity].
Qed.

Lemma elem_predecessors (u v : string) :
  u ∈ predecessors ids edges v <-> arrow ids edges u v.
Proof.
  unfold predecessors, arrow. rewrite list_elem_of_fmap. split.
  - intros (e & -> & He). apply list_elem_of_In, filter_In in He as [He Hb].
    apply andb_true_iff in Hb as [Hv Ht]. apply String.eqb_eq in Ht.
    exists e. repeat split; try assumption. now apply list_elem_of_In.
  - intros (e & He & Hv & Hs & Ht). exists e. split; [now symmetry|].
    apply list_elem_of_In, filter_In. split; [now apply list_elem_of_In|].
    rewrite Hv, Ht, String.eqb_refl. reflexivity.
Qed.

Lemma next_reverse (v u : string) :
  next (reverse_adjacency ids edges) v u <-> arrow ids edges u v.
Proof.
  unfold next. rewrite reverse_adjacency_lookup.
  destruct (has ids v) eqn:E; simpl; [apply elem_predecessors|].
  split; [intros H; now apply elem_of_nil in H|].
  intros (e & _ & Hv & _ & <-). apply valid_edge_true in Hv as [_ Ht].
  apply has_false in E. contradiction.
Qed.

Lemma next_forward (u v : string) :
  next (forward_adjacency ids edges) u v <-> arrow ids edges u v.
Proof.
  unfold next. rewrite forward_adjacency_lookup.
  destruct (has ids u) eqn:E; simpl; [apply elem_successors|].
  split; [intros H; now apply elem_of_nil in H|].
  intros (e & _ & Hv & <- & _). apply valid_edge_true in Hv as [Hs _].
  apply has_false in E. contradiction.
Qed.

Lemma has_snoc (visited : list string) (x y : string) :
  has (visited ++ [x]) y = has visited y || String.eqb y x.
Proof.
  destruct (has (visited ++ [x]) y) eqn:E; symmetry.
  - apply has_true, elem_of_app in E as [E|E].
    + apply has_true in E. now rewrite E.
    + apply list_elem_of_singleton in E as ->. rewrite String.eqb_refl. apply orb_true_r.
  - apply has_false in E. apply orb_false_iff. split.
    + apply has_false. intros H. apply E, elem_of_app. now left.
    + apply String.eqb_neq. intros ->. apply E, elem_of_app. right.
      now apply list_elem_of_singleton.
Qed.

(** Visiting a node uses up the queue entries its incoming edges can
    cause. *)
Lemma unexplored_in_visit (visited : list string) (x : string) :
  x ∉ visited ->
  (unexplored_in ids edges (visited ++ [x])
   + List.length (default [] (reverse_adjacency ids edges !! x))
   <= unexplored_in ids edges visited)%nat.
Proof.
  intros Hx. rewrite reverse_adjacency_lookup.
  assert (H : (unexplored_in ids edges (visited ++ [x])
               + List.length (predecessors ids edges x)
               <= unexplored_in ids edges visited)%nat).
  { unfold unexplored_in, predecessors. rewrite length_map.
    induction edges as [|e es IH]; simpl; [lia|].
    rewrite has_snoc. destruct (valid_edge ids e); simpl; [|exact IH].
    destruct (String.eqb_spec (target e) x) as [Heq|Hne].
    - rewrite orb_true_r. simpl. rewrite Heq.
      apply has_false in Hx. rewrite Hx. simpl. lia.
    - rewrite orb_false_r. destruct (has visited (target e)); simpl; lia. }
  destruct (has ids x); simpl; [exact H|lia].
Qed.

Lemma unexplored_out_visit (visited : list string) (x : string) :
  x ∉ visited ->
  (unexplored_out ids edges (visited ++ [x])
   + List.length (default [] (forward_adjacency ids edges !! x))
   <= unexplored_out ids edges visited)%nat.
Proof.
  intros Hx. rewrite forward_adjacency_lookup.
  assert (H : (unexplored_out ids edges (visited ++ [x])
               + List.length (successors ids edges x)
               <= unexplored_out ids edges visited)%nat).
  { unfold unexplored_out, successors. rewrite length_map.
    induction edges as [|e es IH]; simpl; [lia|].
    rewrite has_snoc. destruct (valid_edge ids e); simpl; [|exact IH].
    destruct (String.eqb_spec (source e) x) as [Heq|Hne].
    - rewrite orb_true_r. simpl. rewrite Heq.
      apply has_false in Hx. rewrite Hx. simpl. lia.
    - rewrite orb_false_r. destruct (has visited (source e)); simpl; lia. }
  destruct (has ids x); simpl; [exact H|lia].
Qed.

Lemma unexplored_in_bound (visited : list string) :
  (unexplored_in ids edges visited <= List.length edges)%nat.
Proof. unfold unexplored_in. apply List.filter_length_le. Qed.

Lemma unexplored_out_bound (visited : list string) :
  (unexplored_out ids edges visited <= List.length edges)%nat.
Proof. unfold unexplored_out. apply List.filter_length_le. Qed.

(** The search from [n] over the reverse adjacency returns the nodes that
    reach [n]; over the forward adjacency, the nodes that [n] reaches. *)
Lemma search_reverse (n : string) :
  exists visited,
    search (S (List.length edges)) (reverse_adjacency ids edges) [] [n] = Some visited /\
    NoDup visited /\ forall x, x ∈ visited <-> rtc (arrow ids edges) x n.
Proof.
  destruct (search_spec (reverse_adjacency ids edges) (unexplored_in ids edges)
              unexplored_in_visit (S (List.length edges)) [] [n] n)
    as (res & E & Hnd & Hel).
  - apply NoDup_nil_2.
  - intros x [H|H]; [now apply elem_of_nil in H|].
    apply list_elem_of_singleton in H as ->. constructor.
  - right. left.
  - intros v p Hv. now apply elem_of_nil in Hv.
  - pose proof (unexplored_in_bound []). simpl. lia.
  - exists res. split; [exact E|]. split; [exact Hnd|].
    intros x. rewrite Hel. split; apply rtc_flip; intros a b; apply next_reverse.
Qed.

Lemma search_forward (n : string) :
  exists visited,
    search (S (List.length edges)) (forward_adjacency ids edges) [] [n] = Some visited /\
    NoDup visited /\ forall x, x ∈ visited <-> rtc (arrow ids edges) n x.
Proof.
  destruct (search_spec (forward_adjacency ids edges) (unexplored_out ids edges)
              unexplored_out_visit (S (List.length edges)) [] [n] n)
    as (res & E & Hnd & Hel).
  - apply NoDup_nil_2.
  - intros x [H|H]; [now apply elem_of_nil in H|].
    apply list_elem_of_singleton in H as ->. constructor.
  - right. left.
  - intros v p Hv. now apply elem_of_nil in Hv.
  - pose proof (unexplored_out_bound []). simpl. lia.
  - exists res. split; [exact E|]. split; [exact Hnd|].
    intros x. rewrite Hel. split; apply rtc_subrel; intros a b; apply next_forward.
Qed.

End UpstreamDownstream.

(* --------------------------------------------------------------------- *)
(** ** getUpstreamNodes, getDownstreamNodes and getExecutionSubgraph      *)
(* --------------------------------------------------------------------- *)

Section GraphQueries.
Import Dag DagQueries.

Lemma rtc_arrow_edge_rel (nodes : list DAGNode) (edges : list DAGEdge) (x y : string) :
  rtc (arrow (set_of (map id nodes)) edges) x y <-> rtc (edge_rel nodes edges) x y.
Proof. split; apply rtc_subrel; intros a b; apply arrow_edge_rel. Qed.

Lemma getUpstreamNodes_elem (nodeId : string) (nodes : list DAGNode) (edges : list DAGEdge) :
  exists upstream,
    getUpstreamNodes nodeId nodes edges = Some upstream /\
    NoDup upstream /\
    forall x, x ∈ upstream <-> x <> nodeId /\ rtc (edge_rel nodes edges) x nodeId.
Proof.
  unfold getUpstreamNodes.
  destruct (search_reverse (set_of (map id nodes)) edges nodeId) as (visited & E & Hnd & Hel).
  rewrite E. exists (remove nodeId visited). split; [reflexivity|].
  split; [now apply remove_NoDup|].
  intros x. rewrite remove_elem, Hel, rtc_arrow_edge_rel. tauto.
Qed.

Lemma getDownstreamNodes_elem (nodeId : string) (nodes : list DAGNode) (edges : list DAGEdge) :
  exists downstream,
    getDownstreamNodes nodeId nodes edges = Some downstream /\
    NoDup downstream /\
    forall x, x ∈ downstream <-> x <> nodeId /\ rtc (edge_rel nodes edges) nodeId x.
Proof.
  unfold getDownstreamNodes.
  destruct (search_forward (set_of (map id nodes)) edges nodeId) as (visited & E & Hnd & Hel).
  rewrite E. exists (remove nodeId visited). split; [reflexivity|].
  split; [now apply remove_NoDup|].
  intros x. rewrite remove_elem, Hel, rtc_arrow_edge_rel. tauto.
Qed.

Lemma strict_rtc_tc {A : Type} (R : relation A) (x y : A) :
  x <> y -> (rtc R x y <-> tc R x y).
Proof.
  intros Hne. rewrite rtc_tc. split; [intros [H|H]; [contradiction|exact H]|now right].
Qed.

(** X1. [getUpstreamNodes] answers on every input (cyclic graphs and ids
    that name no node included); its answer has no duplicates and holds
    exactly the ids other than [nodeId] from which [nodeId] can be reached
    along one or more edges between existing nodes. *)
Theorem getUpstreamNodes_strict_ancestors
        (nodeId : string) (nodes : list DAGNode) (edges : list DAGEdge) :
  exists upstream,
    getUpstreamNodes nodeId nodes edges = Some upstream /\
    NoDup upstream /\
    forall x, x ∈ upstream <-> x <> nodeId /\ tc (edge_rel nodes edges) x nodeId.
Proof.
  destruct (getUpstreamNodes_elem nodeId nodes edges) as (ups & E & Hnd & Hel).
  exists ups. split; [exact E|]. split; [exact Hnd|].
  intros x. rewrite Hel. split; intros [Hne H]; (split; [exact Hne|]);
    now apply (strict_rtc_tc _ x nodeId Hne).
Qed.

(** X2. [getDownstreamNodes] answers on every input; its answer has no
    duplicates and holds exactly the ids other than [nodeId] that can be
    reached from [nodeId] along one or more edges between existing nodes. *)
Theorem getDownstreamNodes_strict_descendants
        (nodeId : string) (nodes : list DAGNode) (edges : list DAGEdge) :
  exists downstream,
    getDownstreamNodes nodeId nodes edges = Some downstream /\
    NoDup downstream /\
    forall x, x ∈ downstream <-> x <> nodeId /\ tc (edge_rel nodes edges) nodeId x.
Proof.
  destruct (getDownstreamNodes_elem nodeId nodes edges) as (downs & E & Hnd & Hel).
  exists downs. split; [exact E|]. split; [exact Hnd|].
  intros x. rewrite Hel. split; intros [Hne H]; (split; [exact Hne|]);
    apply (strict_rtc_tc _ nodeId x); congruence.
Qed.

(** X3. Upstream and downstream are converse: [x] is reported upstream of
    [y] exactly when [y] is reported downstream of [x]. *)
Theorem upstream_downstream_converse
        (x y : string) (nodes : list DAGNode) (edges : list DAGEdge) :
  exists upstream downstream,
    getUpstreamNodes y nodes edges = Some upstream /\
    getDownstreamNodes x nodes edges = Some downstream /\
    (x ∈ upstream <-> y ∈ downstream).
Proof.
  destruct (getUpstreamNodes_elem y nodes edges) as (ups & E1 & _ & H1).
  destruct (getDownstreamNodes_elem x nodes edges) as (downs & E2 & _ & H2).
  exists ups, downs. split; [exact E1|]. split; [exact E2|].
  rewrite H1, H2. split; intros [Hne H]; (split; [congruence|exact H]).
Qed.

Section Subgraph.
Context {T E : Type}.
Variable node_id : T -> string.
Variable edge_source edge_target : E -> string.

Local Abbreviation as_node := (as_node node_id).
Local Abbreviation as_edge := (as_edge edge_source edge_target).
Local Abbreviation getExecutionSubgraph :=
  (getExecutionSubgraph node_id edge_source edge_target).

Variable nodes : list T.
Variable edges : list E.

Local Abbreviation full_rel := (edge_rel (map as_node nodes) (map as_edge edges)).
Local Abbreviation required := (required (map as_node nodes) (map as_edge edges)).

Lemma fold_require_spec (selected : list string) :
  forall acc : list string,
    NoDup acc ->
    exists req,
      fold_left (require_upstream node_id edge_source edge_target nodes edges)
                selected (Some acc) = Some req /\
      NoDup req /\
      forall x, x ∈ req <-> x ∈ acc \/ exists s, s ∈ selected /\ x <> s /\ rtc full_rel x s.
Proof.
  induction selected as [|s selected IH]; intros acc Hnd.
  - exists acc. split; [reflexivity|]. split; [exact Hnd|].
    intros x. split; [now left|]. intros [H|(s & Hs & _)]; [exact H|].
    now apply elem_of_nil in Hs.
  - cbn [fold_left]. unfold require_upstream at 2.
    destruct (getUpstreamNodes_elem s (map as_node nodes) (map as_edge edges))
      as (ups & Eu & _ & Hu).
    rewrite Eu. destruct (fold_add_spec ups acc Hnd) as [Hnd' Hel'].
    destruct (IH _ Hnd') as (req & Er & Hndr & Hr).
    exists req. split; [exact Er|]. split; [exact Hndr|].
    intros x. rewrite Hr, Hel', Hu. split.
    + intros [[H|[Hne H]]|(s' & Hs' & H)].
      * now left.
      * right. exists s. split; [left|]. tauto.
      * right. exists s'. split; [now right|exact H].
    + intros [H|(s' & Hs' & Hne & H)]; [left; now left|].
      apply elem_of_cons in Hs' as [->|Hs'].
      * left. right. tauto.
      * right. exists s'. tauto.
Qed.

Lemma all_required_spec (selected : list string) :
  exists req,
    fold_left (require_upstream node_id edge_source edge_target nodes edges)
              selected (Some (set_of selected)) = Some req /\
    forall x, x ∈ req <-> required selected x.
Proof.
  destruct (fold_require_spec selected (set_of selected) (set_of_NoDup _))
    as (req & Er & _ & H).
  exists req. split; [exact Er|]. intros x. rewrite H, set_of_elem. unfold DagQueries.required.
  split.
  - intros [Hx|(s & Hs & _ & Hr)]; [exists x; split; [exact Hx|constructor]|eauto].
  - intros (s & Hs & Hr). destruct (decide (x = s)) as [->|Hne]; [now left|right; eauto].
Qed.

Lemma filter_sublist {A : Type} (f : A -> bool) (l : list A) : sublist (List.filter f l) l.
Proof.
  induction l as [|a l IH]; simpl; [constructor|].
  destruct (f a); [now apply sublist_skip|now apply sublist_cons].
Qed.

Lemma getExecutionSubgraph_elem (selected : list string) :
  exists ns es,
    getExecutionSubgraph selected nodes edges = Some (ns, es) /\
    (forall n, n ∈ ns <-> n ∈ nodes /\ required selected (node_id n)) /\
    (forall e, e ∈ es <->
       e ∈ edges /\ required selected (edge_source e) /\ required selected (edge_target e)) /\
    sublist ns nodes /\ sublist es edges.
Proof.
  unfold DagQueries.getExecutionSubgraph.
  destruct (all_required_spec selected) as (req & Er & Hreq). rewrite Er.
  eexists _, _. split; [reflexivity|]. split; [|split; [|split; apply filter_sublist]].
  - intros n. rewrite list_elem_of_In, filter_In, <- list_elem_of_In, has_true, Hreq. tauto.
  - intros e. rewrite list_elem_of_In, filter_In, <- list_elem_of_In, andb_true_iff,
      !has_true, !Hreq. tauto.
Qed.

Lemma elem_node_ids (l : list T) (x : string) :
  x ∈ map id (map as_node l) <-> exists n, n ∈ l /\ node_id n = x.
Proof.
  rewrite map_map. change (map (fun n => id (as_node n)) l) with (node_id <$> l).
  rewrite list_elem_of_fmap. split; intros (n & H1 & H2); eauto.
Qed.

Lemma elem_as_edges (l : list E) (u v : string) :
  {| source := u; target := v |} ∈ map as_edge l <->
  exists e, e ∈ l /\ edge_source e = u /\ edge_target e = v.
Proof.
  change (map as_edge l) with (as_edge <$> l). rewrite list_elem_of_fmap. split.
  - intros (e & Heq & He). injection Heq as -> ->. eauto.
  - intros (e & He & <- & <-). eauto.
Qed.

Lemma required_closed (selected : list string) (u v : string) :
  full_rel u v -> required selected v -> required selected u.
Proof. intros Huv (s & Hs & Hr). exists s. split; [exact Hs|]. eapply rtc_l; eassumption. Qed.

(** The edge relation of the subgraph is the edge relation of the graph
    between required ids. *)
Lemma subgraph_edge_rel (selected : list string) (ns : list T) (es : list E) :
  (forall n, n ∈ ns <-> n ∈ nodes /\ required selected (node_id n)) ->
  (forall e, e ∈ es <->
     e ∈ edges /\ required selected (edge_source e) /\ required selected (edge_target e)) ->
  forall u v,
    edge_rel (map as_node ns) (map as_edge es) u v <-> full_rel u v /\ required selected v.
Proof.
  intros Hns Hes u v. unfold edge_rel. rewrite !elem_node_ids, !elem_as_edges. split.
  - intros ((n & Hn & Hnu) & (m & Hm & Hmv) & (e & He & Heu & Hev)).
    apply Hns in Hn as [Hn Hrn], Hm as [Hm Hrm]. apply Hes in He as (He & _).
    rewrite Hmv in Hrm. split; [|exact Hrm]. split; [eauto|]. split; [eauto|].
    exists e. auto.
  - intros (((n & Hn & Hnu) & (m & Hm & Hmv) & (e & He & Heu & Hev)) & Hrv).
    assert (Hru : required selected u).
    { apply (required_closed selected u v); [|exact Hrv].
      unfold edge_rel. rewrite !elem_node_ids, elem_as_edges. eauto 10. }
    split; [|split].
    + exists n. split; [|exact Hnu]. apply Hns. rewrite Hnu. auto.
    + exists m. split; [|exact Hmv]. apply Hns. rewrite Hmv. auto.
    + exists e. split; [|auto]. apply Hes. rewrite Heu, Hev. auto.
Qed.

Lemma subgraph_tc (selected : list string) (ns : list T) (es : list E) :
  (forall u v, edge_rel (map as_node ns) (map as_edge es) u v
               <-> full_rel u v /\ required selected v) ->
  forall x v, required selected v ->
    (tc (edge_rel (map as_node ns) (map as_edge es)) x v <-> tc full_rel x v).
Proof.
  intros Hrel x v Hv. split.
  - apply tc_impl. intros a b Hab. now apply Hrel in Hab.
  - intros Hx. induction Hx as [a b Hab|a b d Hab Hbd IH].
    + apply tc_once. apply Hrel. auto.
    + specialize (IH Hv). eapply tc_l; [|exact IH]. apply Hrel. split; [exact Hab|].
      destruct Hv as (s & Hs & Hr). exists s. split; [exact Hs|].
      eapply rtc_trans; [apply tc_rtc; exact Hbd|exact Hr].
Qed.

(** X4. [getExecutionSubgraph] answers on every input. Its nodes are the
    given nodes, in their order, whose id is selected or reaches a
    selected id along edges between existing nodes; its edges are the
    given edges, in their order, whose two endpoints are such ids. *)
Theorem getExecutionSubgraph_contents (selected : list string) :
  exists ns es,
    getExecutionSubgraph selected nodes edges = Some (ns, es) /\
    (forall n, n ∈ ns <-> n ∈ nodes /\ required selected (node_id n)) /\
    (forall e, e ∈ es <->
       e ∈ edges /\ required selected (edge_source e) /\ required selected (edge_target e)) /\
    sublist ns nodes /\ sublist es edges.
Proof. exact (getExecutionSubgraph_elem selected). Qed.

(** X5. The subgraph loses no dependency: a node of the subgraph has in
    it the very incoming edges it has in the whole graph, and hence the
    same upstream nodes. *)
Theorem getExecutionSubgraph_keeps_dependencies (selected : list string) :
  exists ns es,
    getExecutionSubgraph selected nodes edges = Some (ns, es) /\
    forall v, v ∈ map node_id ns ->
      (forall u, edge_rel (map as_node ns) (map as_edge es) u v <-> full_rel u v) /\
      (forall x, tc (edge_rel (map as_node ns) (map as_edge es)) x v <-> tc full_rel x v).
Proof.
  destruct (getExecutionSubgraph_elem selected) as (ns & es & Es & Hns & Hes & _).
  exists ns, es. split; [exact Es|]. intros v Hv.
  assert (Hrv : required selected v).
  { change (map node_id ns) with (node_id <$> ns) in Hv.
    apply list_elem_of_fmap in Hv as (n & -> & Hn). now apply Hns in Hn. }
  pose proof (subgraph_edge_rel selected ns es Hns Hes) as Hrel.
  split.
  - intros u. rewrite Hrel. tauto.
  - intros x. now apply (subgraph_tc selected ns es Hrel).
Qed.

End Subgraph.

End GraphQueries.

(* --------------------------------------------------------------------- *)
(** ** The wave scheduler on arbitrary graphs                             *)
(* --------------------------------------------------------------------- *)

Section WaveSchedulerResidue.
Import Dag DagQueries.

Variable ids : list string.
Variable edges : list DAGEdge.

Local Abbreviation arrow := (Dag.arrow ids edges).
Local Abbreviation wave_inv := (Dag.wave_inv ids edges).

Lemma tc_target_in {A : Type} (R : relation A) (P : A -> Prop) (a b : A) :
  (forall x y, R x y -> P y) -> tc R a b -> P b.
Proof. intros H. induction 1 as [x y Hxy|x y z Hxy _ IH]; [now apply (H x y)|exact IH]. Qed.

(** When no remaining node has in-degree zero, every remaining node has
    a cycle upstream. *)
Lemma stuck_gives_upstream_cycle (R : list string) (d : gmap string Z) :
  wave_inv R d -> zero_in_degree d R = [] ->
  forall x, x ∈ R -> exists v, tc arrow v v /\ rtc arrow v x.
Proof.
  intros Hinv Hz x Hx.
  assert (Hpred : forall y, y ∈ R -> exists u, u ∈ R /\ arrow u y).
  { intros y Hy. apply in_degree_from_pos. intros H0.
    assert (Hin : y ∈ zero_in_degree d R).
    { apply (zero_in_degree_spec ids edges R d y Hinv). split; [exact Hy|].
      now apply in_degree_from_zero. }
    rewrite Hz in Hin. now apply elem_of_nil in Hin. }
  assert (Hinside : forall a b, a ∈ R -> b ∈ R -> arrow a b -> Dag.arrow R edges a b).
  { intros a b Ha Hb (e & He & _ & Hs & Ht). exists e. split; [exact He|].
    split; [|auto]. apply valid_edge_true. rewrite Hs, Ht. auto. }
  assert (Houtside : forall a b, Dag.arrow R edges a b -> arrow a b /\ a ∈ R /\ b ∈ R).
  { intros a b (e & He & Hv & Hs & Ht). apply valid_edge_true in Hv as [Hvs Hvt].
    rewrite Hs in Hvs. rewrite Ht in Hvt. split; [|auto].
    exists e. split; [exact He|]. split; [|auto].
    apply valid_edge_true. rewrite Hs, Ht.
    destruct Hinv as (_ & Hsub & _). auto. }
  destruct (search_reverse R edges x) as (L & _ & _ & HL).
  assert (HLR : forall y, y ∈ L -> y ∈ R).
  { intros y Hy. apply HL in Hy. inversion Hy as [|a b c Hab _]; subst; [exact Hx|].
    now apply Houtside in Hab. }
  destruct (no_source_gives_cycle L (fun a b => Dag.arrow R edges a b /\ b ∈ L)) as (v & Hv).
  - intros ->. assert (H : x ∈ @nil string) by (apply HL; constructor).
    now apply elem_of_nil in H.
  - intros z Hz'. destruct (Hpred z (HLR z Hz')) as (u & Hu & Huz).
    assert (HuzR : Dag.arrow R edges u z) by (apply Hinside; auto).
    exists u. split; [|auto]. apply HL. eapply rtc_l; [exact HuzR|now apply HL].
  - exists v. split.
    + eapply tc_impl; [|exact Hv]. intros a b [Hab _]. now apply Houtside in Hab.
    + assert (HvL : v ∈ L).
      { apply (tc_target_in _ (fun b => b ∈ L) v v) in Hv; [exact Hv|]. now intros a b [_ H]. }
      apply HL in HvL. eapply rtc_subrel; [|exact HvL].
      intros a b Hab. now apply Houtside in Hab.
Qed.

Variable adjacencyList : gmap string (list string).
Hypothesis adjacency_spec :
  forall u, u ∈ ids -> adjacencyList !! u = Some (successors ids edges u).

(** What the loop appends beyond [wave_post]: its first group holds the
    remaining nodes without a remaining predecessor; every node of a later
    group has a predecessor in the group just before; and a remaining node
    that is left out has a cycle upstream. *)
Lemma waves_tight (fuel : nat) :
  forall (R : list string) (d : gmap string Z) (acc : list (list string)),
    wave_inv R d -> (List.length R <= fuel)%nat ->
    exists new,
      waves fuel adjacencyList R d acc = Some (acc ++ new) /\
      (forall v, in_wave new 0 v <-> v ∈ R /\ forall u, u ∈ R -> ~ arrow u v) /\
      (forall j v, in_wave new (S j) v -> exists u, in_wave new j u /\ arrow u v) /\
      (forall x, x ∈ R -> x ∉ concat new -> exists v, tc arrow v v /\ rtc arrow v x).
Proof.
  assert (Hstop : forall R d, wave_inv R d -> zero_in_degree d R = [] ->
            (forall v, in_wave [] 0 v <-> v ∈ R /\ forall u, u ∈ R -> ~ arrow u v) /\
            (forall j v, in_wave [] (S j) v -> exists u, in_wave [] j u /\ arrow u v) /\
            (forall x, x ∈ R -> x ∉ concat (@nil (list string)) ->
                       exists v, tc arrow v v /\ rtc arrow v x)).
  { intros R d Hinv Hz. split; [|split].
    - intros v. split.
      + intros (g & Hg & _). now rewrite lookup_nil in Hg.
      + intros Hv. apply (zero_in_degree_spec ids edges R d v Hinv) in Hv.
        rewrite Hz in Hv. now apply elem_of_nil in Hv.
    - intros j v (g & Hg & _). now rewrite lookup_nil in Hg.
    - intros x Hx _. now apply (stuck_gives_upstream_cycle R d). }
  induction fuel as [|fuel IH]; intros R d acc Hinv Hlen.
  - destruct R as [|r R]; [|simpl in Hlen; lia].
    exists []. rewrite app_nil_r. split; [reflexivity|]. now apply (Hstop [] d).
  - destruct R as [|r R0] eqn:ER.
    { exists []. rewrite app_nil_r. split; [reflexivity|]. now apply (Hstop [] d). }
    rewrite <- ER in *. assert (Hw : waves (S fuel) adjacencyList R d acc =
      match zero_in_degree d R with
      | [] => Some acc
      | currentGroup =>
          let s := fold_left (release adjacencyList) currentGroup (R, d) in
          waves fuel adjacencyList s.1 s.2 (acc ++ [currentGroup])
      end) by (rewrite ER; reflexivity).
    rewrite Hw. clear Hw.
    destruct (zero_in_degree d R) as [|g G'] eqn:EG.
    { exists []. rewrite app_nil_r. split; [reflexivity|]. now apply (Hstop R d). }
    set (G := g :: G') in *.
    assert (HG : forall x, x ∈ G <-> x ∈ R /\ forall u, u ∈ R -> ~ arrow u x).
    { intros x. rewrite <- EG. now apply zero_in_degree_spec. }
    assert (HGnd : NoDup G).
    { rewrite <- EG. apply zero_in_degree_NoDup. apply Hinv. }
    destruct (fold_release_inv ids edges adjacencyList adjacency_spec G R d Hinv HGnd)
      as [Hinv' Hel]; [intros x Hx; now apply HG|].
    set (s := fold_left (release adjacencyList) G (R, d)) in *.
    assert (Hlen' : (List.length s.1 <= fuel)%nat).
    { assert (Hsub : g :: s.1 ⊆+ R).
      { apply NoDup_submseteq.
        - apply NoDup_cons. split; [|apply Hinv'].
          intros Hg. apply Hel in Hg as [_ Hg]. apply Hg. left.
        - intros x Hx. apply elem_of_cons in Hx as [->|Hx].
          + apply HG. left.
          + now apply Hel in Hx. }
      apply submseteq_length in Hsub. simpl in Hsub. lia. }
    destruct (IH s.1 s.2 (acc ++ [G]) Hinv' Hlen') as (new' & E & Hfirst & Htight & Hres).
    exists (G :: new'). split.
    { cbv zeta. unfold s in E. rewrite E. f_equal. now rewrite <- app_assoc. }
    split; [|split].
    + intros v. rewrite in_wave_cons, <- HG. split.
      * intros [[_ H]|(i' & Hi & _)]; [exact H|discriminate].
      * intros H. left. auto.
    + intros j v Hv. apply in_wave_cons in Hv as [[Hj _]|(j' & [= <-] & Hv)]; [discriminate|].
      destruct j as [|j].
      * apply Hfirst in Hv as [Hv Hnone]. apply Hel in Hv as [HvR HvG].
        destruct (in_degree_from_pos ids edges R v) as (u & Hu & Huv).
        { intros H0. apply HvG. apply HG. split; [exact HvR|]. now apply in_degree_from_zero. }
        exists u. split; [|exact Huv]. apply in_wave_cons. left. split; [reflexivity|].
        destruct (decide (u ∈ G)) as [HuG|HuG]; [exact HuG|exfalso].
        apply (Hnone u); [apply Hel; auto|exact Huv].
      * destruct (Htight j v Hv) as (u & Hu & Huv).
        exists u. split; [|exact Huv]. apply in_wave_cons. right. eauto.
    + intros x Hx Hout. change (concat (G :: new')) with (G ++ concat new') in Hout.
      apply Hres.
      * apply Hel. split; [exact Hx|]. intros H. apply Hout, elem_of_app. now left.
      * intros H. apply Hout, elem_of_app. now right.
Qed.

End WaveSchedulerResidue.

Section WaveSchedulerAnyGraph.
Import Dag DagQueries.

Lemma getParallelGroups_tight (nodes : list DAGNode) (edges : list DAGEdge) :
  let ids := set_of (map id nodes) in
  exists groups,
    getParallelGroups nodes edges = Some groups /\
    wave_post ids edges ids groups /\
    (forall v, in_wave groups 0 v <-> v ∈ ids /\ forall u, u ∈ ids -> ~ arrow ids edges u v) /\
    (forall j v, in_wave groups (S j) v ->
       exists u, in_wave groups j u /\ arrow ids edges u v) /\
    (forall x, x ∈ ids -> x ∉ concat groups ->
       exists v, tc (arrow ids edges) v v /\ rtc (arrow ids edges) v x).
Proof.
  intros ids.
  destruct (getParallelGroups_spec nodes edges) as (groups & Eg & Hpost). fold ids in Hpost.
  exists groups. split; [exact Eg|]. split; [exact Hpost|].
  unfold getParallelGroups in Eg. fold ids in Eg.
  assert (Hinv : wave_inv ids edges ids (build_graph ids edges).2).
  { split; [apply set_of_NoDup|]. split; [auto|].
    intros v Hv. destruct (build_graph_spec ids edges v) as [_ H].
    apply has_true in Hv. now rewrite Hv in H. }
  assert (Hadj : forall u, u ∈ ids ->
                 (build_graph ids edges).1 !! u = Some (successors ids edges u)).
  { intros u Hu. destruct (build_graph_spec ids edges u) as [H _].
    apply has_true in Hu. now rewrite Hu in H. }
  destruct (waves_tight ids edges _ Hadj (List.length ids) ids _ [] Hinv (le_n _))
    as (new & E & H).
  rewrite Eg in E. injection E as ->. exact H.
Qed.

(** In the groups, an ancestor sits strictly before its descendant. *)
Lemma ancestors_scheduled_before (ids : list string) (edges : list DAGEdge)
      (groups : list (list string)) :
  wave_post ids edges ids groups ->
  forall a b, tc (arrow ids edges) a b ->
    forall j, in_wave groups j b -> exists i, (i < j)%nat /\ in_wave groups i a.
Proof.
  intros (_ & _ & Hord & _) a b Hab.
  assert (Hsrc : forall u v, arrow ids edges u v -> u ∈ ids).
  { intros u v (e & _ & Hv & <- & _). now apply valid_edge_true in Hv. }
  induction Hab as [a b Hab|a c b Hac _ IH]; intros j Hj.
  - apply (Hord j b Hj a); [eapply Hsrc; exact Hab|exact Hab].
  - destruct (IH j Hj) as (k & Hk & Hck).
    destruct (Hord k c Hck a) as (i & Hi & Hia); [eapply Hsrc; exact Hac|exact Hac|].
    exists i. split; [lia|exact Hia].
Qed.

Lemma tc_arrow_edge_rel (nodes : list DAGNode) (edges : list DAGEdge) (x y : string) :
  tc (arrow (set_of (map id nodes)) edges) x y <-> tc (edge_rel nodes edges) x y.
Proof. split; apply tc_impl; intros a b; apply arrow_edge_rel. Qed.

(** X6. On every graph, cyclic or not, the scheduler places exactly the
    nodes that have no cycle upstream: a node that lies on a cycle, or
    that can be reached from one, is in no group, and every other node is
    in a group. *)
Theorem getParallelGroups_schedules_cycle_free (nodes : list DAGNode) (edges : list DAGEdge) :
  exists groups,
    getParallelGroups nodes edges = Some groups /\
    forall x, x ∈ concat groups <->
      x ∈ map id nodes /\
      forall v, rtc (edge_rel nodes edges) v x -> ~ tc (edge_rel nodes edges) v v.
Proof.
  destruct (getParallelGroups_tight nodes edges) as (groups & Eg & Hpost & _ & _ & Hres).
  set (ids := set_of (map id nodes)) in *.
  exists groups. split; [exact Eg|]. intros x. split.
  - intros Hx. pose proof Hpost as (Hnd & Hin & _ & _).
    split; [apply Hin in Hx; unfold ids in Hx; now rewrite set_of_elem in Hx|].
    intros v Hvx Hvv.
    assert (Hv : exists j, in_wave groups j v).
    { apply rtc_tc in Hvx as [->|Hvx]; [now apply in_concat_in_wave|].
      apply in_concat_in_wave in Hx as (j & Hj). apply tc_arrow_edge_rel in Hvx.
      destruct (ancestors_scheduled_before ids edges groups Hpost v x Hvx j Hj) as (i & _ & Hi).
      eauto. }
    destruct Hv as (j & Hj). apply tc_arrow_edge_rel in Hvv.
    destruct (ancestors_scheduled_before ids edges groups Hpost v v Hvv j Hj) as (i & Hi & Hiv).
    destruct Hj as (gj & Hgj & Hxj). destruct Hiv as (gi & Hgi & Hxi).
    exact (NoDup_concat_disjoint groups i j gi gj v Hnd Hgi Hgj Hi Hxi Hxj).
  - intros [Hx Hfree]. destruct (decide (x ∈ concat groups)) as [H|H]; [exact H|exfalso].
    destruct (Hres x) as (v & Hvv & Hvx); [unfold ids; now rewrite set_of_elem|exact H|].
    apply (Hfree v); [now apply rtc_arrow_edge_rel|now apply tc_arrow_edge_rel].
Qed.

(** X7. No node waits longer than its dependencies make it: the first
    group holds exactly the nodes without an incoming edge from a node,
    and every node of a later group has an edge from a node of the group
    just before its own. *)
Theorem getParallelGroups_groups_are_earliest (nodes : list DAGNode) (edges : list DAGEdge) :
  exists groups,
    getParallelGroups nodes edges = Some groups /\
    (forall v, in_wave groups 0 v <->
       v ∈ map id nodes /\ forall u, ~ edge_rel nodes edges u v) /\
    (forall j v, in_wave groups (S j) v ->
       exists u, in_wave groups j u /\ edge_rel nodes edges u v).
Proof.
  destruct (getParallelGroups_tight nodes edges) as (groups & Eg & _ & Hfirst & Htight & _).
  set (ids := set_of (map id nodes)) in *.
  exists groups. split; [exact Eg|]. split.
  - intros v. rewrite Hfirst. unfold ids. rewrite set_of_elem. split.
    + intros [Hv Hnone]. split; [exact Hv|]. intros u Huv. pose proof Huv as (Hu & _).
      apply (Hnone u); [now rewrite set_of_elem|now apply arrow_edge_rel].
    + intros [Hv Hnone]. split; [exact Hv|]. intros u _ Huv.
      apply (Hnone u). now apply arrow_edge_rel.
  - intros j v Hv. destruct (Htight j v Hv) as (u & Hu & Huv).
    exists u. split; [exact Hu|now apply arrow_edge_rel].
Qed.

End WaveSchedulerAnyGraph.

(* --------------------------------------------------------------------- *)
(** ** The engine: data flow between the waves                            *)
(* --------------------------------------------------------------------- *)

Section EngineFlow.
Import JS Engine Flow.

Variable c : collaborators.
Variable nodes : list WorkflowNode.
Variable edges : list WorkflowEdge.
Variable parallelGroups : list (list string).
Variable start : Z.

Hypothesis groups_distinct : NoDup (concat parallelGroups).

Local Abbreviation inv := (invariant nodes parallelGroups start).
Local Abbreviation flow := (Flow.flow nodes parallelGroups start).
Local Abbreviation dispatched := Flow.dispatched.
Local Abbreviation step := (step c nodes edges parallelGroups).
Local Abbreviation reachable := (reachable c nodes edges parallelGroups start).

Lemma nodeMap_fold_is_Some (l : list WorkflowNode) (m : gmap string WorkflowNode) (x : string) :
  x ∈ map id l \/ is_Some (m !! x) ->
  is_Some (fold_left (fun m n => <[id n := n]> m) l m !! x).
Proof.
  revert m. induction l as [|a l IH]; intros m; simpl.
  - intros [H|H]; [now apply elem_of_nil in H|exact H].
  - intros [H|H]; apply IH.
    + apply elem_of_cons in H as [->|H]; [right|now left].
      rewrite lookup_insert_eq. eauto.
    + right. destruct (decide (id a = x)) as [->|Hne].
      * rewrite lookup_insert_eq. eauto.
      * now rewrite lookup_insert_ne.
Qed.

Lemma nodeMap_is_Some (x : string) : x ∈ map id nodes -> is_Some (nodeMap nodes !! x).
Proof. intros H. apply nodeMap_fold_is_Some. now left. Qed.

Lemma spawn_intro (i : nat) (grp : list string) (x : string) (n : WorkflowNode) :
  x ∈ grp -> nodeMap nodes !! x = Some n ->
  {| group := i; node := n; st := Starting |} ∈ spawn nodes i grp.
Proof.
  intros Hx Hn. unfold spawn. apply list_elem_of_omap. exists x. split; [exact Hx|].
  now rewrite Hn.
Qed.

(** A task is either unsettled, and then belongs to the current group, or
    has succeeded or failed. *)
Lemma unsettled_in_current (cf : config) (t : task) :
  inv cf -> t ∈ tasks cf -> settled_ok t = false ->
  group t = groupIndex cf /\ now_phase cf <> AtGroup.
Proof.
  intros Hinv Ht Hok. destruct (inv_bound _ _ _ _ Hinv t Ht) as [Hlt|H]; [|exact H].
  rewrite (inv_earlier _ _ _ _ Hinv t Ht Hlt) in Hok. discriminate.
Qed.

Lemma same_id_same_task (cf : config) (t t' : task) :
  inv cf -> t ∈ tasks cf -> t' ∈ tasks cf -> taskid t = taskid t' -> t = t'.
Proof.
  intros Hinv Ht Ht' Heq.
  apply list_elem_of_lookup in Ht as (i & Hi), Ht' as (j & Hj).
  assert (i = j).
  { eapply (NoDup_lookup _ _ _ _ (inv_distinct _ _ _ _ Hinv)).
    - rewrite list_lookup_fmap, Hi. reflexivity.
    - rewrite list_lookup_fmap, Hj. simpl. now rewrite Heq. }
  subst. congruence.
Qed.

Lemma flow_initial : flow (initial nodes start).
Proof.
  split; simpl.
  - intros x v. rewrite lookup_empty. split; [discriminate|].
    intros (t & _ & Ht & _). now apply elem_of_nil in Ht.
  - intros i grp x _ _ Hdis. unfold Flow.dispatched in Hdis. simpl in Hdis.
    destruct Hdis as [H|[_ H]]; [lia|contradiction].
  - intros t Ht. now apply elem_of_nil in Ht.
  - discriminate.
Qed.

(** A running task moves on: its state changes, and the output map gains
    its output when it succeeds. *)
Lemma flow_update (cf : config) (k : nat) (t : task) (s' : task_state)
      (outs' : gmap string value) (logs' : gmap string NodeLog) :
  inv cf -> flow cf -> tasks cf !! k = Some t ->
  settled_ok t = false ->
  s' <> Starting ->
  (forall x, x <> taskid t -> logs' !! x = logs cf !! x) ->
  ((outs' = outputs cf /\ forall v elapsed, s' <> Fulfilled v elapsed) \/
   (exists v elapsed, s' = Fulfilled v elapsed /\ outs' = <[taskid t := v]> (outputs cf))) ->
  flow {| now_phase := now_phase cf; groupIndex := groupIndex cf;
          tasks := <[k := {| group := group t; node := node t; st := s' |}]> (tasks cf);
          outputs := outs'; logs := logs'; run := run cf |}.
Proof.
  intros Hinv [Ho Hc Hs Hd] Hk Hok Hs' Hlogs Houts.
  assert (Ht : t ∈ tasks cf) by (eapply list_elem_of_lookup_2; exact Hk).
  set (t' := {| group := group t; node := node t; st := s' |}).
  assert (Hnew : t' ∈ <[k := t']> (tasks cf)).
  { eapply list_elem_of_lookup_2. apply list_lookup_insert_eq. now apply lookup_lt_Some in Hk. }
  assert (Hcases : forall x, x ∈ <[k := t']> (tasks cf) ->
            x = t' \/ (x ∈ tasks cf /\ taskid x <> taskid t)).
  { intros x Hx. apply elem_of_insert_cases in Hx as [->|(j & Hj & Hx)]; [now left|right].
    split; [eapply list_elem_of_lookup_2; exact Hx|].
    intros Heq. apply Hj. eapply (NoDup_lookup _ _ _ _ (inv_distinct _ _ _ _ Hinv)).
    - rewrite list_lookup_fmap, Hx. simpl. rewrite Heq. reflexivity.
    - rewrite list_lookup_fmap, Hk. reflexivity. }
  assert (Hkeep : forall x, x ∈ tasks cf -> taskid x <> taskid t -> x ∈ <[k := t']> (tasks cf)).
  { intros x Hx Hne. eapply elem_of_insert_keep; [exact Hk|exact Hx|]. intros ->. now apply Hne. }
  assert (Hnone : forall v, outputs cf !! taskid t <> Some v).
  { intros v Hv. apply Ho in Hv as (t0 & el & Ht0 & Hid & Hst).
    rewrite (same_id_same_task cf t0 t Hinv Ht0 Ht Hid) in Hst.
    unfold settled_ok in Hok. rewrite Hst in Hok. discriminate. }
  split; simpl.
  - intros x v. destruct (decide (x = taskid t)) as [->|Hne].
    + destruct Houts as [[-> Hnf]|(v0 & el0 & -> & ->)].
      * split; [intros H; now apply Hnone in H|].
        intros (t0 & el & Ht0 & Hid & Hst).
        destruct (Hcases t0 Ht0) as [->|[_ H]]; [|contradiction].
        simpl in Hst. now apply Hnf in Hst.
      * rewrite lookup_insert_eq. split.
        -- intros [= <-]. exists t', el0. auto.
        -- intros (t0 & el & Ht0 & Hid & Hst).
           destruct (Hcases t0 Ht0) as [->|[_ H]]; [|contradiction].
           simpl in Hst. congruence.
    + assert (Hsame : outs' !! x = outputs cf !! x).
      { destruct Houts as [[-> _]|(v0 & el0 & _ & ->)]; [reflexivity|].
        apply lookup_insert_ne. congruence. }
      rewrite Hsame, Ho. split; intros (t0 & el & Ht0 & Hid & Hst); exists t0, el.
      * split; [|auto]. apply Hkeep; [exact Ht0|congruence].
      * destruct (Hcases t0 Ht0) as [->|[Hin _]]; [|auto].
        exfalso. apply Hne. now rewrite <- Hid.
  - intros i grp x Hg Hx Hdis Hn.
    destruct (Hc i grp x Hg Hx Hdis Hn) as (t0 & Ht0 & Hgr & Hid).
    destruct (decide (taskid t0 = taskid t)) as [Heq|Hne].
    + rewrite (same_id_same_task cf t0 t Hinv Ht0 Ht Heq) in Hgr, Hid.
      exists t'. auto.
    + exists t0. split; [now apply Hkeep|auto].
  - intros t0 Ht0 Hst. destruct (Hcases t0 Ht0) as [->|[Hin Hne]].
    + simpl in Hst. contradiction.
    + rewrite (Hlogs _ Hne). now apply Hs.
  - exact Hd.
Qed.

Lemma flow_dispatch (cf : config) (grp : list string) :
  inv cf -> flow cf -> now_phase cf = AtGroup -> parallelGroups !! groupIndex cf = Some grp ->
  flow (dispatch nodes cf grp).
Proof.
  intros Hinv [Ho Hc Hs Hd] Hp Hg.
  pose proof (invariant_dispatch nodes parallelGroups start groups_distinct cf grp Hinv Hp Hg)
    as Hinv'.
  split; simpl.
  - intros x v. rewrite Ho. split; intros (t & el & Ht & Hid & Hst); exists t, el.
    + split; [apply elem_of_app; now left|auto].
    + apply elem_of_app in Ht as [Ht|Ht]; [auto|].
      apply spawn_elem in Ht as (_ & H & _). congruence.
  - intros i grp' x Hg' Hx Hdis Hn. unfold Flow.dispatched in Hdis. simpl in Hdis.
    destruct Hdis as [Hlt|[-> _]].
    + destruct (Hc i grp' x Hg' Hx) as (t & Ht & H); [now left|exact Hn|].
      exists t. split; [apply elem_of_app; now left|exact H].
    + rewrite Hg in Hg'. injection Hg' as <-. destruct Hn as [n Hn].
      exists {| group := groupIndex cf; node := n; st := Starting |}.
      split; [apply elem_of_app; right; now apply (spawn_intro _ _ x)|].
      split; [reflexivity|]. apply nodeMap_lookup in Hn as [_ Hid]. exact Hid.
  - intros t Ht Hst. apply elem_of_app in Ht as [Ht|Ht]; [now apply Hs|].
    assert (Hfresh : taskid t ∉ taskid <$> tasks cf).
    { pose proof (inv_distinct _ _ _ _ Hinv') as Hnd. simpl in Hnd.
      rewrite fmap_app in Hnd. apply NoDup_app in Hnd as (_ & Hdis & _).
      intros Hin. apply (Hdis _ Hin). apply list_elem_of_fmap. eauto. }
    rewrite (inv_untouched _ _ _ _ Hinv _ Hfresh).
    apply spawn_elem in Ht as (_ & _ & _ & Hn). now apply pending_logs_lookup.
  - intros Hrun. pose proof (inv_run _ _ _ _ Hinv) as Hr. rewrite Hp in Hr. congruence.
Qed.

Lemma flow_step (cf cf' : config) : inv cf -> flow cf -> step cf cf' -> flow cf'.
Proof.
  intros Hinv Hfl Hstep.
  destruct Hstep as [cf grp Hp Hg|cf k t now Hk Hst|cf k t s0 now ud out Hk Hst Hex
                    |cf k t s0 now ud message Hk Hst Hex|cf Hp Hall|cf Hp Hg|cf Hp Hex].
  - now apply flow_dispatch.
  - apply flow_update; try assumption.
    + unfold settled_ok. now rewrite Hst.
    + discriminate.
    + intros x Hx. now apply updateNodeLog_other.
    + left. split; [reflexivity|discriminate].
  - apply flow_update; try assumption.
    + unfold settled_ok. now rewrite Hst.
    + discriminate.
    + intros x Hx. now apply updateNodeLog_other.
    + right. eauto.
  - apply flow_update; try assumption.
    + unfold settled_ok. now rewrite Hst.
    + discriminate.
    + intros x Hx. now apply updateNodeLog_other.
    + left. split; [reflexivity|discriminate].
  - destruct Hfl as [Ho Hc Hs Hd]. split; simpl; try assumption.
    + intros i grp x Hg Hx Hdis Hn. unfold Flow.dispatched in Hdis. simpl in Hdis.
      destruct Hdis as [Hlt|[_ H]]; [|contradiction].
      apply (Hc i grp x Hg Hx); [|exact Hn].
      destruct (decide (i = groupIndex cf)) as [->|Hne]; [right|left; lia].
      split; [reflexivity|]. rewrite Hp. discriminate.
    + intros Hrun. pose proof (inv_run _ _ _ _ Hinv) as Hr. rewrite Hp in Hr. congruence.
  - destruct Hfl as [Ho Hc Hs Hd]. split; simpl; try assumption.
    + intros i grp x Hg' Hx Hdis Hn. unfold Flow.dispatched in Hdis. simpl in Hdis.
      destruct Hdis as [Hlt|[-> _]]; [|congruence].
      apply (Hc i grp x Hg' Hx); [now left|exact Hn].
    + intros _. exact Hg.
  - destruct Hfl as [Ho Hc Hs Hd]. split; simpl; try assumption.
    + intros i grp x Hg' Hx Hdis Hn. apply (Hc i grp x Hg' Hx); [|exact Hn].
      unfold Flow.dispatched in Hdis. simpl in Hdis.
      destruct Hdis as [Hlt|[-> _]]; [now left|right].
      split; [reflexivity|]. rewrite Hp. discriminate.
    + discriminate.
Qed.

Lemma reachable_flow (cf : config) : reachable cf -> inv cf /\ flow cf.
Proof.
  induction 1 as [|cf cf' Hreach [Hinv Hfl] Hstep].
  - split; [apply invariant_initial|apply flow_initial].
  - split; [eapply invariant_step; eassumption|eapply flow_step; eassumption].
Qed.

End EngineFlow.

Section EngineGuarantees.
Import JS Engine Flow.

Variable c : collaborators.
Variable nodes : list WorkflowNode.
Variable edges : list WorkflowEdge.
Variable parallelGroups : list (list string).
Variable start : Z.

Hypothesis groups_distinct : NoDup (concat parallelGroups).

Local Abbreviation step := (step c nodes edges parallelGroups).
Local Abbreviation reachable := (reachable c nodes edges parallelGroups start).

(** A node of a dispatched group has succeeded once its group is behind
    the engine. *)
Lemma earlier_group_succeeded (cf : config) (i : nat) (x : string) :
  reachable cf -> (i < groupIndex cf)%nat -> Dag.in_wave parallelGroups i x ->
  x ∈ map id nodes ->
  exists t out elapsed,
    t ∈ tasks cf /\ taskid t = x /\ group t = i /\ st t = Fulfilled out elapsed.
Proof.
  intros Hreach Hlt (grp & Hg & Hx) Hn.
  destruct (reachable_flow c nodes edges parallelGroups start groups_distinct cf Hreach)
    as [Hinv Hfl].
  destruct (flow_cover _ _ _ _ Hfl i grp x Hg Hx) as (t & Ht & Hgr & Hid);
    [now left|now apply nodeMap_is_Some|].
  assert (Hok : settled_ok t = true).
  { apply (inv_earlier _ _ _ _ Hinv t Ht). lia. }
  unfold settled_ok in Hok. destruct (st t) as [| | out el|] eqn:Hst; try discriminate.
  exists t, out, el. auto.
Qed.

(** X8. The barrier between the waves, for groups in which no id occurs
    twice ([groups_distinct], which holds of every plan of [POST
    /api/runs]): in a configuration the engine can reach, as soon as a task
    of some wave exists, every id of every earlier wave that names a node
    has succeeded: its log says SUCCESS and holds its sanitized output, and
    the output map holds its output. *)
Theorem earlier_waves_succeeded (cf : config) (t : task) (i : nat) (x : string) :
  reachable cf -> t ∈ tasks cf -> (i < group t)%nat ->
  Dag.in_wave parallelGroups i x -> x ∈ map id nodes ->
  exists l out,
    logs cf !! x = Some l /\ status l = SUCCESS /\
    outputs cf !! x = Some out /\ log_output l = Some (sanitizeOutput out).
Proof.
  intros Hreach Ht Hlt Hx Hn.
  destruct (reachable_flow c nodes edges parallelGroups start groups_distinct cf Hreach)
    as [Hinv Hfl].
  assert (Hgi : (i < groupIndex cf)%nat).
  { destruct (inv_bound _ _ _ _ Hinv t Ht) as [H|[H _]]; lia. }
  destruct (earlier_group_succeeded cf i x Hreach Hgi Hx Hn)
    as (t' & out & el & Ht' & Hid & _ & Hst).
  pose proof (inv_logs _ _ _ _ Hinv t' Ht') as Hm. rewrite Hst, Hid in Hm.
  destruct Hm as (l & Hl & Hs & Ho & _).
  exists l, out. split; [exact Hl|]. split; [exact Hs|]. split; [|exact Ho].
  apply (flow_outputs _ _ _ _ Hfl). eauto.
Qed.

(** A run is marked COMPLETED only when every group has been dispatched
    and every task has succeeded: each node named by a group then has a
    SUCCESS log that holds its output. *)
Lemma completed_run_all_succeeded (cf : config) :
  reachable cf -> run cf = COMPLETED ->
  now_phase cf = Finished /\
  (forall t, t ∈ tasks cf -> exists out elapsed, st t = Fulfilled out elapsed) /\
  (forall x, x ∈ concat parallelGroups -> x ∈ map id nodes ->
     exists l out,
       logs cf !! x = Some l /\ status l = SUCCESS /\
       outputs cf !! x = Some out /\ log_output l = Some (sanitizeOutput out)).
Proof.
  intros Hreach Hrun.
  destruct (reachable_flow c nodes edges parallelGroups start groups_distinct cf Hreach)
    as [Hinv Hfl].
  pose proof (inv_run _ _ _ _ Hinv) as Hr.
  destruct (now_phase cf) eqn:Hp; try congruence.
  destruct Hr as [[Hf _]|[_ Hall]]; [congruence|].
  split; [reflexivity|]. split.
  - intros t Ht. specialize (Hall t Ht). unfold settled_ok in Hall.
    destruct (st t); try discriminate. eauto.
  - intros x Hx Hn. apply in_concat_in_wave in Hx as (i & Hx).
    pose proof (flow_done _ _ _ _ Hfl Hrun) as Hnone.
    assert (Hlt : (i < groupIndex cf)%nat).
    { destruct Hx as (grp & Hg & _). apply lookup_lt_Some in Hg.
      apply lookup_ge_None in Hnone. lia. }
    destruct (earlier_group_succeeded cf i x Hreach Hlt Hx Hn)
      as (t' & out & el & Ht' & Hid & _ & Hst).
    pose proof (inv_logs _ _ _ _ Hinv t' Ht') as Hm. rewrite Hst, Hid in Hm.
    destruct Hm as (l & Hl & Hs & Ho & _).
    exists l, out. split; [exact Hl|]. split; [exact Hs|]. split; [|exact Ho].
    apply (flow_outputs _ _ _ _ Hfl). eauto.
Qed.

(** X9. For groups in which no id occurs twice ([groups_distinct], which
    holds of every plan of [POST /api/runs]), the status of a log only
    moves forward: a step from a configuration the engine can reach leaves
    a log as it is or takes it from PENDING to RUNNING or from RUNNING to
    SUCCESS or FAILED, so that a log that says SUCCESS or FAILED is not
    written again. *)
Theorem log_status_moves_forward (cf cf' : config) (x : string) (l : NodeLog) :
  reachable cf -> step cf cf' -> logs cf !! x = Some l ->
  exists l', logs cf' !! x = Some l' /\ (l' = l \/ status_succ (status l) (status l')).
Proof.
  intros Hreach Hstep Hl.
  destruct (reachable_flow c nodes edges parallelGroups start groups_distinct cf Hreach)
    as [Hinv Hfl].
  assert (Hupd : forall (t : task) s o e d now,
            t ∈ tasks cf ->
            (exists l0, logs cf !! taskid t = Some l0 /\ status_succ (status l0) s) ->
            exists l', updateNodeLog (taskid t) s o e d now (logs cf) !! x = Some l' /\
                       (l' = l \/ status_succ (status l) (status l'))).
  { intros t s o e d now Ht (l0 & Hl0 & Hsucc).
    destruct (decide (x = taskid t)) as [->|Hne].
    - unfold updateNodeLog. rewrite lookup_alter_eq, Hl. simpl. eexists. split; [reflexivity|].
      right. simpl. congruence.
    - rewrite updateNodeLog_other by exact Hne. eauto. }
  destruct Hstep as [cf grp Hp Hg|cf k t now Hk Hst|cf k t s0 now ud out Hk Hst Hex
                    |cf k t s0 now ud message Hk Hst Hex|cf Hp Hall|cf Hp Hg|cf Hp Hex];
    simpl; eauto.
  - assert (Ht : t ∈ tasks cf) by (eapply list_elem_of_lookup_2; exact Hk).
    apply Hupd; [exact Ht|]. exists (pending_log start).
    split; [now apply (flow_starting _ _ _ _ Hfl)|]. left. auto.
  - assert (Ht : t ∈ tasks cf) by (eapply list_elem_of_lookup_2; exact Hk).
    apply Hupd; [exact Ht|].
    pose proof (inv_logs _ _ _ _ Hinv t Ht) as Hm. rewrite Hst in Hm.
    destruct Hm as (l0 & Hl0 & Hs0). exists l0. split; [exact Hl0|]. right. left. auto.
  - assert (Ht : t ∈ tasks cf) by (eapply list_elem_of_lookup_2; exact Hk).
    apply Hupd; [exact Ht|].
    pose proof (inv_logs _ _ _ _ Hinv t Ht) as Hm. rewrite Hst in Hm.
    destruct Hm as (l0 & Hl0 & Hs0). exists l0. split; [exact Hl0|]. right. right. auto.
Qed.

(** ** What a running node is given *)

Hypothesis groups_ordered : ordered edges parallelGroups.

Local Abbreviation inputs_current := (Flow.inputs_current edges).

Lemma collect_upstream_insert (outs : gmap string value) (x y : string) (v : value) :
  (forall e, e ∈ edges -> target e = y -> source e <> x) ->
  collect_upstream edges (<[x := v]> outs) y = collect_upstream edges outs y.
Proof.
  intros H. unfold collect_upstream. apply map_ext_in. intros e He.
  apply filter_In in He as [He Ht]. apply String.eqb_eq in Ht.
  rewrite lookup_insert_ne; [reflexivity|]. intros Heq.
  apply (H e); [now apply list_elem_of_In|exact Ht|now symmetry].
Qed.

Lemma inputs_step (cf cf' : config) :
  reachable cf -> inputs_current cf -> step cf cf' -> inputs_current cf'.
Proof.
  intros Hreach Hin Hstep.
  destruct (reachable_flow c nodes edges parallelGroups start groups_distinct cf Hreach)
    as [Hinv Hfl].
  assert (Hcases : forall k t t' x, tasks cf !! k = Some t ->
            x ∈ <[k := t']> (tasks cf) -> taskid t' = taskid t ->
            x = t' \/ (x ∈ tasks cf /\ taskid x <> taskid t)).
  { intros k t t' x Hk Hx Hid.
    apply elem_of_insert_cases in Hx as [->|(j & Hj & Hx)]; [now left|right].
    split; [eapply list_elem_of_lookup_2; exact Hx|].
    intros Heq. apply Hj. eapply (NoDup_lookup _ _ _ _ (inv_distinct _ _ _ _ Hinv)).
    - rewrite list_lookup_fmap, Hx. simpl. rewrite Heq. reflexivity.
    - rewrite list_lookup_fmap, Hk. reflexivity. }
  destruct Hstep as [cf grp Hp Hg|cf k t now Hk Hst|cf k t s0 now ud out Hk Hst Hex
                    |cf k t s0 now ud message Hk Hst Hex|cf Hp Hall|cf Hp Hg|cf Hp Hex];
    unfold Flow.inputs_current in *; simpl; try exact Hin.
  - intros t s ud Ht Hst. apply elem_of_app in Ht as [Ht|Ht]; [eauto|].
    apply spawn_elem in Ht as (_ & H & _). congruence.
  - intros t0 s ud Ht0 Hst0.
    destruct (Hcases k t _ t0 Hk Ht0 eq_refl) as [->|[Ht0' _]]; [|eauto].
    simpl in Hst0. injection Hst0 as <- <-. reflexivity.
  - intros t0 s ud' Ht0 Hst0.
    destruct (Hcases k t _ t0 Hk Ht0 eq_refl) as [->|[Ht0' Hne]]; [discriminate|].
    rewrite (Hin t0 s ud' Ht0' Hst0). symmetry. apply collect_upstream_insert.
    intros e He Hte Hse.
    assert (Ht : t ∈ tasks cf) by (eapply list_elem_of_lookup_2; exact Hk).
    destruct (unsettled_in_current nodes parallelGroups start cf t Hinv Ht) as [Hgt _];
      [unfold settled_ok; now rewrite Hst|].
    destruct (unsettled_in_current nodes parallelGroups start cf t0 Hinv Ht0') as [Hgt0 _];
      [unfold settled_ok; now rewrite Hst0|].
    destruct (inv_origin _ _ _ _ Hinv t Ht) as (_ & g & Hg & Hxg).
    destruct (inv_origin _ _ _ _ Hinv t0 Ht0') as (_ & g0 & Hg0 & Hxg0).
    destruct (groups_ordered e He (group t0)) as (i & Hi & (gi & Hgi & Hxi)).
    { exists g0. rewrite Hte. auto. }
    rewrite Hse in Hxi. fold (taskid t) in Hxi.
    apply (NoDup_concat_disjoint parallelGroups i (group t) gi g (taskid t)
             groups_distinct Hgi Hg); [lia|exact Hxi|exact Hxg].
  - intros t0 s ud' Ht0 Hst0.
    destruct (Hcases k t _ t0 Hk Ht0 eq_refl) as [->|[Ht0' _]]; [discriminate|eauto].
Qed.

Lemma reachable_inputs (cf : config) : reachable cf -> inputs_current cf.
Proof.
  induction 1 as [|cf cf' Hreach IH Hstep].
  - intros t s ud Ht. now apply elem_of_nil in Ht.
  - eapply inputs_step; eassumption.
Qed.

Hypothesis groups_name_nodes : forall x, x ∈ concat parallelGroups -> x ∈ map id nodes.

(** What a running node is given: one entry for each edge into it, in the
    order of the edges, and each entry holds the output of the edge's
    source node, which has already succeeded. *)
Lemma upstream_data_from_succeeded_nodes
        (cf : config) (t : task) (startTime : Z) (upstreamData : list upstream) :
  reachable cf -> t ∈ tasks cf -> st t = Executing startTime upstreamData ->
  Forall2 (fun e u =>
             nodeId u = source e /\ handle u = sourceHandle e /\
             exists t' elapsed,
               t' ∈ tasks cf /\ taskid t' = source e /\ st t' = Fulfilled (output u) elapsed)
          (List.filter (fun e => String.eqb (target e) (taskid t)) edges) upstreamData.
Proof.
  intros Hreach Ht Hst.
  destruct (reachable_flow c nodes edges parallelGroups start groups_distinct cf Hreach)
    as [Hinv Hfl].
  rewrite (reachable_inputs cf Hreach t startTime upstreamData Ht Hst).
  unfold collect_upstream. apply Forall2_fmap_r. apply Forall_Forall2_diag.
  apply Forall_forall. intros e He. apply list_elem_of_In, filter_In in He as [He Hte].
  apply String.eqb_eq in Hte. apply list_elem_of_In in He. simpl.
  split; [reflexivity|]. split; [reflexivity|].
  destruct (unsettled_in_current nodes parallelGroups start cf t Hinv Ht) as [Hgt _];
    [unfold settled_ok; now rewrite Hst|].
  destruct (inv_origin _ _ _ _ Hinv t Ht) as (_ & g & Hg & Hxg).
  destruct (groups_ordered e He (group t)) as (i & Hi & Hwave).
  { exists g. rewrite Hte. auto. }
  assert (Hn : source e ∈ map id nodes).
  { apply groups_name_nodes. destruct Hwave as (gi & Hgi & Hxi).
    eapply elem_of_concat_lookup; eassumption. }
  destruct (earlier_group_succeeded cf i (source e) Hreach) as (t' & out & el & Ht' & Hid & _ & Hst');
    [lia|exact Hwave|exact Hn|].
  assert (Hout : outputs cf !! source e = Some out).
  { apply (flow_outputs _ _ _ _ Hfl). eauto. }
  rewrite Hout. simpl. eauto.
Qed.

End EngineGuarantees.

(* --------------------------------------------------------------------- *)
(** ** The engine: a bound on its steps                                    *)
(* --------------------------------------------------------------------- *)

Section EngineStepBound.
Import JS Engine Flow.

Variable c : collaborators.
Variable nodes : list WorkflowNode.
Variable edges : list WorkflowEdge.
Variable parallelGroups : list (list string).

Local Abbreviation step := (step c nodes edges parallelGroups).
Local Abbreviation potential := (Flow.potential nodes parallelGroups).
Local Abbreviation group_weight := (Flow.group_weight nodes).

Lemma spawn_weight (i : nat) (grp : list string) :
  sum_list_with task_weight (spawn nodes i grp) = (2 * List.length (spawn nodes 0 grp))%nat.
Proof.
  unfold spawn, omap. induction grp as [|x grp IH]; [reflexivity|].
  simpl. destruct (nodeMap nodes !! x); simpl; [|exact IH].
  rewrite IH. unfold task_weight. simpl. lia.
Qed.

Lemma spawn_length (i : nat) (grp : list string) :
  (List.length (spawn nodes i grp) <= List.length grp)%nat.
Proof.
  unfold spawn, omap. induction grp as [|x grp IH]; [reflexivity|].
  simpl. destruct (nodeMap nodes !! x); simpl; lia.
Qed.

Lemma sum_list_with_insert {A : Type} (f : A -> nat) (l : list A) (k : nat) (x y : A) :
  l !! k = Some x ->
  (sum_list_with f (<[k := y]> l) + f x = sum_list_with f l + f y)%nat.
Proof.
  revert k. induction l as [|a l IH]; intros [|k]; simpl; intros Hk; try discriminate.
  - injection Hk as ->. lia.
  - specialize (IH k Hk). lia.
Qed.

(** Every step of the engine uses up potential. *)
Lemma potential_step (cf cf' : config) : step cf cf' -> (potential cf' < potential cf)%nat.
Proof.
  intros Hstep.
  destruct Hstep as [cf grp Hp Hg|cf k t now Hk Hst|cf k t s0 now ud out Hk Hst Hex
                    |cf k t s0 now ud message Hk Hst Hex|cf Hp Hall|cf Hp Hg|cf Hp Hex];
    unfold Flow.potential, undispatched; simpl.
  - rewrite Hp. simpl. rewrite (drop_S _ _ _ Hg). simpl.
    rewrite sum_list_with_app, spawn_weight. unfold Flow.group_weight. lia.
  - remember {| group := group t; node := node t;
                st := Executing now (collect_upstream edges (outputs cf) (id (node t))) |}
      as t' eqn:Et'.
    pose proof (sum_list_with_insert task_weight (tasks cf) k t t' Hk) as H.
    assert (H1 : task_weight t = 2%nat) by (unfold task_weight; now rewrite Hst).
    assert (H2 : task_weight t' = 1%nat) by (subst t'; reflexivity).
    lia.
  - remember {| group := group t; node := node t; st := Fulfilled out (now - s0) |}
      as t' eqn:Et'.
    pose proof (sum_list_with_insert task_weight (tasks cf) k t t' Hk) as H.
    assert (H1 : task_weight t = 1%nat) by (unfold task_weight; now rewrite Hst).
    assert (H2 : task_weight t' = 0%nat) by (subst t'; reflexivity).
    lia.
  - remember {| group := group t; node := node t; st := Rejected message (now - s0) |}
      as t' eqn:Et'.
    pose proof (sum_list_with_insert task_weight (tasks cf) k t t' Hk) as H.
    assert (H1 : task_weight t = 1%nat) by (unfold task_weight; now rewrite Hst).
    assert (H2 : task_weight t' = 0%nat) by (subst t'; reflexivity).
    lia.
  - rewrite Hp. simpl. lia.
  - rewrite Hp. simpl.
    apply lookup_ge_None in Hg. rewrite !drop_ge by lia. simpl. lia.
  - rewrite Hp. simpl. lia.
Qed.

Lemma potential_nsteps (n : nat) (cf cf' : config) :
  nsteps step n cf cf' -> (n + potential cf' <= potential cf)%nat.
Proof.
  induction 1 as [cf|n cf cf1 cf2 Hstep _ IH]; [lia|].
  apply potential_step in Hstep. lia.
Qed.

Lemma potential_initial (now : Z) :
  (potential (initial nodes now)
   <= 1 + 2 * (List.length parallelGroups + List.length (concat parallelGroups)))%nat.
Proof.
  unfold Flow.potential, undispatched. simpl.
  assert (H : (sum_list_with group_weight parallelGroups
               <= 2 * (List.length parallelGroups + List.length (concat parallelGroups)))%nat).
  { induction parallelGroups as [|g gs IH]; simpl; [lia|].
    rewrite length_app. unfold Flow.group_weight at 1.
    pose proof (spawn_length 0 g). lia. }
  change (list.drop 0 parallelGroups) with parallelGroups. lia.
Qed.

(** X10. The engine's own steps are bounded: a sequence of steps from
    the initial configuration (dispatching a group, starting a node,
    recording that a node succeeded or failed, leaving a group, marking the
    run) has at most one step more than twice the number of groups plus
    twice the number of ids in them. The bound is on what the engine does;
    it does not say that an executor settles. *)
Theorem engine_steps_are_bounded (now : Z) (n : nat) (cf : config) :
  nsteps step n (initial nodes now) cf ->
  (n <= 1 + 2 * (List.length parallelGroups + List.length (concat parallelGroups)))%nat.
Proof.
  intros H. apply potential_nsteps in H. pose proof (potential_initial now). lia.
Qed.

End EngineStepBound.

(* --------------------------------------------------------------------- *)
(** ** The engine on the text-to-LLM pipeline                             *)
(* --------------------------------------------------------------------- *)

Section EnginePipeline.
Import JS Engine Flow.

Local Abbreviation reachable := (reachable echo pipeline_nodes pipeline_edges pipeline_groups 0).
Local Abbreviation step := (step echo pipeline_nodes pipeline_edges pipeline_groups).

Lemma pipeline_groups_distinct : NoDup (concat pipeline_groups).
Proof. apply (bool_decide_unpack _). vm_compute. exact I. Qed.

Lemma pipeline_groups_ordered : ordered pipeline_edges pipeline_groups.
Proof.
  intros e He j (g & Hg & Hx).
  apply list_elem_of_singleton in He as ->. simpl in Hx.
  destruct j as [|[|j]]; simpl in Hg; try discriminate.
  - injection Hg as <-. apply list_elem_of_singleton in Hx. discriminate.
  - exists 0%nat. split; [lia|]. exists ["text-1"%string]. split; [reflexivity|left].
Qed.

Lemma pipeline_groups_name_nodes (x : string) :
  x ∈ concat pipeline_groups -> x ∈ map id pipeline_nodes.
Proof. intros H. exact H. Qed.

Lemma pipeline_running_reachable : reachable pipeline_running.
Proof.
  unfold pipeline_running. cbv zeta.
  eapply reachable_step; [|eapply step_begin; reflexivity].
  eapply reachable_step; [|eapply step_dispatch; reflexivity].
  eapply reachable_step; [|eapply step_next; reflexivity].
  eapply reachable_step; [|eapply step_success; reflexivity].
  eapply reachable_step; [|eapply step_begin; reflexivity].
  eapply reachable_step; [|eapply step_dispatch; reflexivity].
  apply reachable_initial.
Qed.

Lemma pipeline_succeeded_step : step pipeline_running pipeline_succeeded.
Proof. unfold pipeline_succeeded. eapply step_success; reflexivity. Qed.

Lemma pipeline_completed_reachable : reachable pipeline_completed.
Proof.
  unfold pipeline_completed.
  eapply reachable_step; [|eapply step_complete; reflexivity].
  eapply reachable_step; [|eapply step_next; reflexivity].
  eapply reachable_step; [|exact pipeline_succeeded_step].
  exact pipeline_running_reachable.
Qed.

Lemma earlier_waves_succeeded_pipeline :
  exists l out,
    logs pipeline_running !! "text-1" = Some l /\ status l = SUCCESS /\
    outputs pipeline_running !! "text-1" = Some out /\
    log_output l = Some (sanitizeOutput out).
Proof.
  apply (earlier_waves_succeeded echo pipeline_nodes pipeline_edges pipeline_groups 0
           pipeline_groups_distinct pipeline_running (llm_task (Executing 20 llm_input))
           0 "text-1" pipeline_running_reachable).
  - right. left.
  - simpl. lia.
  - exists ["text-1"]. split; [reflexivity|left].
  - left.
Defined.

Lemma log_status_moves_forward_pipeline :
  exists l',
    logs pipeline_succeeded !! "llm-1" = Some l' /\
    (l' = llm_running_log \/ status_succ (status llm_running_log) (status l')).
Proof.
  apply (log_status_moves_forward echo pipeline_nodes pipeline_edges pipeline_groups 0
           pipeline_groups_distinct pipeline_running pipeline_succeeded "llm-1" llm_running_log
           pipeline_running_reachable pipeline_succeeded_step).
  reflexivity.
Defined.

Lemma pipeline_run_nsteps : nsteps step 9 (initial pipeline_nodes 0) pipeline_completed.
Proof.
  unfold pipeline_completed, pipeline_succeeded, pipeline_running. cbv zeta.
  eapply nsteps_r; [|eapply step_complete; reflexivity].
  eapply nsteps_r; [|eapply step_next; reflexivity].
  eapply nsteps_r; [|eapply step_success; reflexivity].
  eapply nsteps_r; [|eapply step_begin; reflexivity].
  eapply nsteps_r; [|eapply step_dispatch; reflexivity].
  eapply nsteps_r; [|eapply step_next; reflexivity].
  eapply nsteps_r; [|eapply step_success; reflexivity].
  eapply nsteps_r; [|eapply step_begin; reflexivity].
  eapply nsteps_r; [|eapply step_dispatch; reflexivity].
  apply nsteps_O.
Qed.

(** The pipeline takes nine steps, which is the bound. *)
Lemma engine_steps_are_bounded_pipeline :
  (9 <= 1 + 2 * (List.length pipeline_groups + List.length (concat pipeline_groups)))%nat.
Proof.
  exact (engine_steps_are_bounded echo pipeline_nodes pipeline_edges pipeline_groups 0 9
           pipeline_completed pipeline_run_nsteps).
Defined.

End EnginePipeline.

(* --------------------------------------------------------------------- *)
(** ** Planning a run and running the plan                                *)
(* --------------------------------------------------------------------- *)

Section Planning.
Import Dag DagQueries Runs.

(** The validator says valid exactly for the graphs without dangling
    edges and without cycles. *)
Lemma validateDAG_valid_iff (nodes : list DAGNode) (edges : list DAGEdge) :
  validateDAG nodes edges = Some Valid <->
  (forall e, e ∈ edges -> ~ dangling nodes e) /\ acyclic nodes edges.
Proof.
  unfold validateDAG. set (ids := set_of (map id nodes)).
  destruct (forallb (valid_edge ids) edges) eqn:Hall.
  - rewrite forallb_forall in Hall.
    assert (Hnd : forall e, e ∈ edges -> ~ dangling nodes e).
    { intros e He Hd. apply valid_edge_false in Hd. fold ids in Hd.
      rewrite Hall in Hd; [discriminate|now apply list_elem_of_In]. }
    rewrite (adjacency_checked_valid ids edges) with (d := init_map 0 ids ∅)
      by (intros e He; apply Hall; now apply list_elem_of_In).
    fold (build_graph ids edges).
    destruct (search_decides_cycles nodes edges) as (b & Eb & Hb). fold ids in Eb.
    rewrite Eb. destruct b.
    + split; [discriminate|]. intros [_ Hacyc]. exfalso.
      destruct (proj1 Hb eq_refl) as (v & Hv). exact (Hacyc v Hv).
    + split; [|reflexivity]. intros _. split; [exact Hnd|].
      intros v Hv. assert (false = true) by (apply Hb; eauto). discriminate.
  - assert (Hex : exists e, e ∈ edges /\ valid_edge ids e = false).
    { clear -Hall. induction edges as [|e es IH]; simpl in Hall; [discriminate|].
      destruct (valid_edge ids e) eqn:He; simpl in Hall.
      - destruct (IH Hall) as (e' & He' & H). exists e'. split; [now right|exact H].
      - exists e. split; [left|exact He]. }
    rewrite (adjacency_checked_dangling ids edges Hex).
    split; [discriminate|]. intros [Hnd _]. exfalso.
    destruct Hex as (e & He & Hv). apply (Hnd e He). now apply valid_edge_false.
Qed.

(** The validator never answers with an empty reason. *)
Lemma validateDAG_reason (nodes : list DAGNode) (edges : list DAGEdge) (error : string) :
  validateDAG nodes edges = Some (Invalid error) -> error <> ""%string.
Proof.
  unfold validateDAG. destruct (adjacency_checked _ _ _); [|intros [= <-]; discriminate].
  destruct (search_all _ _ _ _) as [[|]|]; [intros [= <-]| |]; discriminate.
Qed.

Lemma validateDAG_total (nodes : list DAGNode) (edges : list DAGEdge) :
  exists v, validateDAG nodes edges = Some v.
Proof.
  unfold validateDAG. destruct (adjacency_checked _ _ _) eqn:E; [|eauto].
  destruct (forallb (valid_edge (set_of (map id nodes))) edges) eqn:Hall.
  - rewrite forallb_forall in Hall.
    rewrite (adjacency_checked_valid _ edges) with (d := init_map 0 (set_of (map id nodes)) ∅)
      in E by (intros e He; apply Hall; now apply list_elem_of_In).
    injection E as <-. fold (build_graph (set_of (map id nodes)) edges).
    destruct (search_decides_cycles nodes edges) as (b & Eb & _). rewrite Eb.
    destruct b; eauto.
  - assert (Hex : exists e, e ∈ edges /\ valid_edge (set_of (map id nodes)) e = false).
    { clear -Hall. induction edges as [|e es IH]; simpl in Hall; [discriminate|].
      destruct (valid_edge (set_of (map id nodes)) e) eqn:He; simpl in Hall.
      - destruct (IH Hall) as (e' & He' & H). exists e'. split; [now right|exact H].
      - exists e. split; [left|exact He]. }
    rewrite (adjacency_checked_dangling _ edges Hex) in E. discriminate.
Qed.

(** On an acyclic graph the scheduler places every node, and the source
    of every edge strictly before its target. *)
Lemma schedule_acyclic (nodes : list DAGNode) (edges : list DAGEdge) :
  acyclic nodes edges ->
  exists groups,
    getParallelGroups nodes edges = Some groups /\
    NoDup (concat groups) /\
    (forall x, x ∈ concat groups <-> x ∈ map id nodes) /\
    (forall u v j, edge_rel nodes edges u v -> in_wave groups j v ->
       exists i, (i < j)%nat /\ in_wave groups i u).
Proof.
  intros Hacyc.
  destruct (getParallelGroups_spec nodes edges) as (groups & Eg & Hnd & Hin & Hord & Hall).
  set (ids := set_of (map id nodes)) in *.
  assert (Hacyc' : forall v, ~ tc (arrow ids edges) v v).
  { intros v Hv. apply (Hacyc v). eapply tc_impl; [|exact Hv].
    intros a b. apply arrow_edge_rel. }
  exists groups. split; [exact Eg|]. split; [exact Hnd|]. split.
  - intros x. split.
    + intros Hx. apply Hin in Hx. unfold ids in Hx. now rewrite set_of_elem in Hx.
    + intros Hx. apply (Hall Hacyc'). unfold ids. now rewrite set_of_elem.
  - intros u v j Huv Hj. pose proof Huv as (Hu & _).
    apply (Hord j v Hj u); [unfold ids; now rewrite set_of_elem|now apply arrow_edge_rel].
Qed.

End Planning.

Section PlannedRun.
Import Dag DagQueries Runs.

Variable nodes : list Engine.WorkflowNode.
Variable edges : list Engine.WorkflowEdge.

Lemma dag_nodes_ids (ns : list Engine.WorkflowNode) : map id (dag_nodes ns) = map Engine.id ns.
Proof. unfold dag_nodes. rewrite map_map. reflexivity. Qed.

Lemma dag_edge_rel (ns : list Engine.WorkflowNode) (es : list Engine.WorkflowEdge) (u v : string) :
  edge_rel (dag_nodes ns) (dag_edges es) u v <->
  u ∈ map Engine.id ns /\ v ∈ map Engine.id ns /\
  exists e, e ∈ es /\ Engine.source e = u /\ Engine.target e = v.
Proof.
  unfold edge_rel. rewrite !dag_nodes_ids. unfold dag_edges.
  rewrite (elem_as_edges Engine.source Engine.target). reflexivity.
Qed.

(** What the handler hands to the engine when the graph it plans for sits
    inside a valid graph and keeps the incoming edges of its nodes. *)
Lemma plan_groups (ns : list Engine.WorkflowNode) (es : list Engine.WorkflowEdge) :
  (forall e, e ∈ edges -> ~ dangling (dag_nodes nodes) (as_edge Engine.source Engine.target e)) ->
  acyclic (dag_nodes nodes) (dag_edges edges) ->
  (forall n, n ∈ ns -> n ∈ nodes) ->
  (forall e, e ∈ es -> e ∈ edges) ->
  (forall e, e ∈ edges -> Engine.target e ∈ map Engine.id ns ->
             e ∈ es /\ Engine.source e ∈ map Engine.id ns) ->
  exists groups,
    getParallelGroups (dag_nodes ns) (dag_edges es) = Some groups /\
    NoDup (concat groups) /\
    (forall x, x ∈ concat groups <-> x ∈ map Engine.id ns) /\
    (forall e, e ∈ edges -> Engine.target e ∈ concat groups -> e ∈ es) /\
    Flow.ordered es groups.
Proof.
  intros Hnd Hacyc Hns Hes Hkeep.
  assert (Hsub : forall u v, edge_rel (dag_nodes ns) (dag_edges es) u v ->
                             edge_rel (dag_nodes nodes) (dag_edges edges) u v).
  { intros u v. rewrite !dag_edge_rel. intros (Hu & Hv & e & He & Heu & Hev).
    assert (Hin : forall x, x ∈ map Engine.id ns -> x ∈ map Engine.id nodes).
    { intros x Hx. change (map Engine.id ns) with (Engine.id <$> ns) in Hx.
      apply list_elem_of_fmap in Hx as (n & -> & Hn).
      apply list_elem_of_fmap. exists n. split; [reflexivity|now apply Hns]. }
    split; [now apply Hin|]. split; [now apply Hin|]. exists e. auto. }
  destruct (schedule_acyclic (dag_nodes ns) (dag_edges es)) as (groups & Eg & Hdis & Hall & Hord).
  { intros v Hv. apply (Hacyc v). eapply tc_impl; [exact Hsub|exact Hv]. }
  rewrite dag_nodes_ids in Hall.
  exists groups. split; [exact Eg|]. split; [exact Hdis|]. split; [exact Hall|]. split.
  - intros e He Ht. apply Hall in Ht. now apply Hkeep.
  - intros e He j Hj.
    assert (Ht : Engine.target e ∈ map Engine.id ns).
    { apply Hall. destruct Hj as (g & Hg & Hx). eapply elem_of_concat_lookup; eassumption. }
    destruct (Hkeep e (Hes e He) Ht) as [_ Hs].
    apply (Hord (Engine.source e) (Engine.target e) j); [|exact Hj].
    apply dag_edge_rel. split; [exact Hs|]. split; [exact Ht|]. exists e. auto.
Qed.

(** The decisions of the handler, for every request. *)
Lemma plan_spec (scope : option string) (selectedNodes : option (list string)) :
  exists p,
    plan nodes edges scope selectedNodes = Some p /\
    match p with
    | BadRequest error =>
        validateDAG (dag_nodes nodes) (dag_edges edges) = Some (Invalid error)
    | Execute ns es groups =>
        validateDAG (dag_nodes nodes) (dag_edges edges) = Some Valid /\
        sublist ns nodes /\ sublist es edges /\
        NoDup (concat groups) /\
        (forall x, x ∈ concat groups <-> x ∈ map Engine.id ns) /\
        (forall e, e ∈ edges -> Engine.target e ∈ concat groups -> e ∈ es) /\
        Flow.ordered es groups
    end.
Proof.
  unfold plan.
  destruct (validateDAG_total (dag_nodes nodes) (dag_edges edges)) as ([|error] & Ev); rewrite Ev.
  2:{ eexists. split; [reflexivity|]. simpl.
      apply validateDAG_reason in Ev. apply String.eqb_neq in Ev. now rewrite Ev. }
  apply validateDAG_valid_iff in Ev as Hvalid. destruct Hvalid as [Hnd Hacyc].
  assert (Hnd' : forall e, e ∈ edges ->
                   ~ dangling (dag_nodes nodes) (as_edge Engine.source Engine.target e)).
  { intros e He. apply Hnd. unfold dag_edges. apply list_elem_of_fmap. eauto. }
  assert (Hnodes : forall e, e ∈ edges ->
                     Engine.source e ∈ map Engine.id nodes /\
                     Engine.target e ∈ map Engine.id nodes).
  { intros e He. specialize (Hnd' e He). unfold dangling in Hnd'. simpl in Hnd'.
    rewrite dag_nodes_ids in Hnd'.
    destruct (decide (Engine.source e ∈ map Engine.id nodes));
      destruct (decide (Engine.target e ∈ map Engine.id nodes)); tauto. }
  destruct (negb (String.eqb (default "FULL"%string scope) "FULL")
            && has_selection selectedNodes).
  - set (selected := default [] selectedNodes).
    destruct (getExecutionSubgraph_elem Engine.id Engine.source Engine.target nodes edges selected)
      as (ns & es & Es & Hns & Hes & Hsn & Hse).
    rewrite Es.
    pose proof (subgraph_edge_rel Engine.id Engine.source Engine.target nodes edges
                  selected ns es Hns Hes) as Hrel.
    destruct (plan_groups ns es Hnd' Hacyc) as (groups & Eg & H);
      [intros n Hn; now apply Hns in Hn|intros e He; now apply Hes in He| |].
    + intros e He Ht.
      change (map Engine.id ns) with (Engine.id <$> ns) in Ht.
      apply list_elem_of_fmap in Ht as (n & Hid & Hn). apply Hns in Hn as [_ Hreq].
      rewrite <- Hid in Hreq.
      destruct (Hnodes e He) as [Hs Ht].
      assert (Hfull : edge_rel (dag_nodes nodes) (dag_edges edges)
                               (Engine.source e) (Engine.target e)).
      { apply dag_edge_rel. split; [exact Hs|]. split; [exact Ht|]. exists e. auto. }
      pose proof (required_closed Engine.id Engine.source Engine.target nodes edges selected
                    _ _ Hfull Hreq) as Hreqs.
      split; [apply Hes; auto|].
      change (map Engine.id nodes) with (Engine.id <$> nodes) in Hs.
      apply list_elem_of_fmap in Hs as (m & Hm & Hmn).
      apply list_elem_of_fmap. exists m. split; [exact Hm|]. apply Hns. rewrite <- Hm. auto.
    + rewrite Eg. eexists. split; [reflexivity|]. simpl. tauto.
  - destruct (plan_groups nodes edges Hnd' Hacyc) as (groups & Eg & H); auto.
    + intros e He _. split; [exact He|]. now apply Hnodes.
    + rewrite Eg. eexists. split; [reflexivity|]. simpl.
      split; [reflexivity|]. split; [reflexivity|]. split; [reflexivity|]. exact H.
Qed.

(** X12. What [POST /api/runs] decides, for every request. A graph the
    validator rejects is answered with status 400 and the validator's
    reason. Otherwise the handler hands the engine nodes and edges taken
    from the request in their order, and groups in which every node to
    execute occurs exactly once; every edge of the request into a node to
    execute is among the edges handed over, and its source sits in a
    strictly earlier group than its target. *)
Theorem plan_hands_over_dependencies
        (scope : option string) (selectedNodes : option (list string)) :
  exists p,
    plan nodes edges scope selectedNodes = Some p /\
    match p with
    | BadRequest error =>
        validateDAG (dag_nodes nodes) (dag_edges edges) = Some (Invalid error)
    | Execute ns es groups =>
        validateDAG (dag_nodes nodes) (dag_edges edges) = Some Valid /\
        sublist ns nodes /\ sublist es edges /\
        NoDup (concat groups) /\
        (forall x, x ∈ concat groups <-> x ∈ map Engine.id ns) /\
        (forall e, e ∈ edges -> Engine.target e ∈ concat groups -> e ∈ es) /\
        (forall e, e ∈ es ->
           forall j, in_wave groups j (Engine.target e) ->
             exists i, (i < j)%nat /\ in_wave groups i (Engine.source e))
    end.
Proof. exact (plan_spec scope selectedNodes). Qed.

End PlannedRun.

Section PlannedEngine.
Import JS Dag DagQueries Runs Engine Flow.

Variable c : collaborators.
Variable nodes : list WorkflowNode.
Variable edges : list WorkflowEdge.
Variable scope : option string.
Variable selectedNodes : option (list string).
Variable start : Z.

(** X13. In a run that [POST /api/runs] has planned, a node that is running
    has been given one entry for each edge into it, in the order of the
    edges, and each entry holds the output of the edge's source node,
    which has succeeded before: no node ever runs on an output that is
    still missing. *)
Theorem planned_run_inputs
        (ns : list WorkflowNode) (es : list WorkflowEdge) (groups : list (list string))
        (cf : config) (t : task) (startTime : Z) (upstreamData : list upstream) :
  plan nodes edges scope selectedNodes = Some (Execute ns es groups) ->
  reachable c ns es groups start cf ->
  t ∈ tasks cf -> st t = Executing startTime upstreamData ->
  Forall2 (fun e u =>
             nodeId u = source e /\ handle u = sourceHandle e /\
             exists t' elapsed,
               t' ∈ tasks cf /\ taskid t' = source e /\ st t' = Fulfilled (output u) elapsed)
          (List.filter (fun e => String.eqb (target e) (taskid t)) es) upstreamData.
Proof.
  intros Hplan Hreach Ht Hst.
  destruct (plan_spec nodes edges scope selectedNodes) as (p & Ep & Hp).
  rewrite Hplan in Ep. injection Ep as <-.
  destruct Hp as (_ & _ & _ & Hnd & Hall & _ & Hord).
  assert (Hnames : forall x, x ∈ concat groups -> x ∈ map id ns)
    by (intros x Hx; now apply Hall).
  exact (upstream_data_from_succeeded_nodes c ns es groups start Hnd Hord Hnames
           cf t startTime upstreamData Hreach Ht Hst).
Qed.

(** X14. A run that [POST /api/runs] has planned is marked COMPLETED only
    when every node it was to execute has succeeded: each of them then has
    a SUCCESS log that holds its (sanitized) output, and the output map
    holds its output. *)
Theorem planned_run_completed
        (ns : list WorkflowNode) (es : list WorkflowEdge) (groups : list (list string))
        (cf : config) (n : WorkflowNode) :
  plan nodes edges scope selectedNodes = Some (Execute ns es groups) ->
  reachable c ns es groups start cf ->
  run cf = COMPLETED -> n ∈ ns ->
  exists l out,
    logs cf !! id n = Some l /\ status l = SUCCESS /\
    outputs cf !! id n = Some out /\ log_output l = Some (sanitizeOutput out).
Proof.
  intros Hplan Hreach Hrun Hn.
  destruct (plan_spec nodes edges scope selectedNodes) as (p & Ep & Hp).
  rewrite Hplan in Ep. injection Ep as <-.
  destruct Hp as (_ & _ & _ & Hnd & Hall & _ & _).
  destruct (completed_run_all_succeeded c ns es groups start Hnd cf Hreach Hrun) as (_ & _ & H).
  assert (Hid : id n ∈ map id ns) by (apply list_elem_of_fmap; eauto).
  apply H; [now apply Hall|exact Hid].
Qed.

End PlannedEngine.

Section PlannedPipeline.
Import JS Dag DagQueries Runs Engine Flow.

Lemma pipeline_plan :
  plan pipeline_nodes pipeline_edges None None
  = Some (Execute pipeline_nodes pipeline_edges pipeline_groups).
Proof. reflexivity. Qed.

Lemma planned_run_inputs_pipeline :
  Forall2 (fun e u =>
             nodeId u = source e /\ handle u = sourceHandle e /\
             exists t' elapsed,
               t' ∈ tasks pipeline_running /\ taskid t' = source e /\
               st t' = Fulfilled (output u) elapsed)
          pipeline_edges llm_input.
Proof.
  apply (planned_run_inputs echo pipeline_nodes pipeline_edges None None 0
           pipeline_nodes pipeline_edges pipeline_groups pipeline_running
           (llm_task (Executing 20 llm_input)) 20 llm_input
           pipeline_plan pipeline_running_reachable).
  - right. left.
  - reflexivity.
Defined.

Lemma planned_run_completed_pipeline :
  exists l out,
    logs pipeline_completed !! "llm-1"%string = Some l /\ status l = SUCCESS /\
    outputs pipeline_completed !! "llm-1"%string = Some out /\
    log_output l = Some (sanitizeOutput out).
Proof.
  apply (planned_run_completed echo pipeline_nodes pipeline_edges None None 0
           pipeline_nodes pipeline_edges pipeline_groups pipeline_completed llm_node
           pipeline_plan pipeline_completed_reachable).
  - reflexivity.
  - right. left.
Defined.

End PlannedPipeline.

(* --------------------------------------------------------------------- *)
(** ** Frame extraction: what is asked of the collaborators               *)
(* --------------------------------------------------------------------- *)

Section FrameCallOrder.
Import JS Frame FrameCalls.
Local Open Scope string_scope.

(** What both seek computations answer lies inside the clip, for a clip
    of at least a tenth of a second. *)
Lemma percent_within (p d : Q) :
  (0 <= p)%Q -> (p <= 100)%Q -> (0 <= d)%Q ->
  (0 <= (p / 100) * d)%Q /\ ((p / 100) * d <= d)%Q.
Proof.
  intros Hp0 Hp Hd.
  assert (H0 : (0 <= p / 100)%Q).
  { apply Qle_shift_div_l; [reflexivity|]. now rewrite Qmult_0_l. }
  assert (H1 : (p / 100 <= 1)%Q).
  { apply Qle_shift_div_r; [reflexivity|]. now rewrite Qmult_1_l. }
  split.
  - now apply Qmult_le_0_compat.
  - rewrite <- (Qmult_1_l d) at 2. now apply Qmult_le_compat_r.
Qed.

Lemma seek_branches_within (is_percent : bool) (percent absolute : num) (d s : Q)
      (message message' : string) :
  (if is_percent then
     match percent with
     | Fin p => if Qltb p 0 || Qltb 100 p then Throw message else Ok ((p / 100) * d)%Q
     | _ => Throw message
     end
   else
     match absolute with
     | NaN | NInf => Throw message'
     | PInf => Ok (d - (1 # 10))%Q
     | Fin t => if Qltb t 0 then Throw message'
                else if Qltb d t then Ok (d - (1 # 10))%Q else Ok t
     end) = Ok s ->
  (1 # 10 <= d)%Q -> (0 <= s)%Q /\ (s <= d)%Q.
Proof.
  intros E Hd.
  assert (Hd0 : (0 <= d)%Q) by (eapply Qle_trans; [|exact Hd]; discriminate).
  assert (Hclamp : (0 <= d - (1 # 10))%Q /\ (d - (1 # 10) <= d)%Q).
  { split.
    - unfold Qminus. rewrite <- (Qplus_opp_r (1 # 10)). apply Qplus_le_l. exact Hd.
    - unfold Qminus. rewrite <- (Qplus_0_r d) at 2. apply Qplus_le_r. discriminate. }
  destruct is_percent.
  - destruct percent as [| | |p]; try discriminate.
    destruct (Qltb p 0) eqn:E1; [discriminate|].
    destruct (Qltb 100 p) eqn:E2; [discriminate|].
    simpl in E. injection E as <-.
    apply Qltb_false in E1, E2. now apply percent_within.
  - destruct absolute as [| | |t]; try discriminate.
    + injection E as <-. exact Hclamp.
    + destruct (Qltb t 0) eqn:E1; [discriminate|].
      destruct (Qltb d t) eqn:E2; injection E as <-.
      * exact Hclamp.
      * apply Qltb_false in E1, E2. auto.
Qed.

Lemma seekSeconds_within (timestamp : string) (d s : Q) :
  seekSeconds timestamp d = Ok s -> (1 # 10 <= d)%Q -> (0 <= s)%Q /\ (s <= d)%Q.
Proof. unfold seekSeconds. apply seek_branches_within. Qed.

Lemma seekTime_within (timestamp : string) (d s : Q) :
  seekTime timestamp d = Ok s -> (1 # 10 <= d)%Q -> (0 <= s)%Q /\ (s <= d)%Q.
Proof. unfold seekTime. apply seek_branches_within. Qed.

(** The local path of the executor, for a video input it accepts as a
    data URL or an HTTP URL. *)
Lemma local_calls (w : world) (videoInput timestamp : string) (m : M unit) :
  (m = throw "Invalid base64 data URL" \/
   m = throw "Invalid video input — expected base64 data URL or HTTP URL" \/
   (exists base64, m = emit (EvWriteVideo base64)) \/
   m = (emit (EvDownload videoInput (100 * 1024 * 1024)) ;;; lift (download_outcome w))) ->
  let out :=
    (m ;;;
     emit EvProbe ;;;
     duration <- lift (probe_outcome w) ;;
     seek <- lift (seekSeconds timestamp duration) ;;
     emit (EvExtract seek) ;;;
     lift (extract_outcome w) ;;;
     (if frame_exists w then ret tt
      else throw "Frame extraction failed — no output file produced") ;;;
     emit EvStoreFrame ;;;
     ret (stored_frame w)) in
  EvCleanup ∉ snd out /\
  (snd out = [] \/
   exists first seek,
     materializes videoInput first /\ snd out `prefix_of` full_run first seek /\
     (forall url, fst out = Ok url -> snd out = full_run first seek) /\
     (EvExtract seek ∈ snd out ->
      exists d, probe_outcome w = Ok d /\ seekSeconds timestamp d = Ok seek)).
Proof.
  intros Hm out. subst out.
  assert (Hfirst : forall first,
    materializes videoInput first ->
    let out := (emit first ;;;
     emit EvProbe ;;;
     duration <- lift (probe_outcome w) ;;
     seek <- lift (seekSeconds timestamp duration) ;;
     emit (EvExtract seek) ;;;
     lift (extract_outcome w) ;;;
     (if frame_exists w then ret tt
      else throw "Frame extraction failed — no output file produced") ;;;
     emit EvStoreFrame ;;;
     ret (stored_frame w)) in
    EvCleanup ∉ snd out /\
    exists seek, snd out `prefix_of` full_run first seek /\
      (forall url, fst out = Ok url -> snd out = full_run first seek) /\
      (EvExtract seek ∈ snd out ->
       exists d, probe_outcome w = Ok d /\ seekSeconds timestamp d = Ok seek)).
  { intros first Hf. unfold bind, emit, lift, ret, throw, full_run.
    assert (Hnc : first <> EvCleanup).
    { destruct Hf as [[b ->]| ->]; discriminate. }
    assert (Hne : forall q, first <> EvExtract q).
    { intros q. destruct Hf as [[b ->]| ->]; discriminate. }
    destruct (probe_outcome w) as [d|e1]; simpl.
    2:{ split; [set_solver|]. exists 0%Q. split; [|split].
        - exists [EvExtract 0; EvStoreFrame]. reflexivity.
        - discriminate.
        - intros H. exfalso. set_solver. }
    destruct (seekSeconds timestamp d) as [s|e2] eqn:Es; simpl.
    2:{ split; [set_solver|]. exists 0%Q. split; [|split].
        - exists [EvExtract 0; EvStoreFrame]. reflexivity.
        - discriminate.
        - intros H. exfalso. set_solver. }
    destruct (extract_outcome w) as [[]|e3]; simpl.
    2:{ split; [set_solver|]. exists s. split; [|split].
        - exists [EvStoreFrame]. reflexivity.
        - discriminate.
        - eauto. }
    destruct (frame_exists w); simpl.
    - split; [set_solver|]. exists s. split; [|split]; [reflexivity|reflexivity|eauto].
    - split; [set_solver|]. exists s. split; [|split].
      + exists [EvStoreFrame]. reflexivity.
      + discriminate.
      + eauto. }
  destruct Hm as [->|[->|[[b ->]| ->]]].
  - simpl. split; [set_solver|now left].
  - simpl. split; [set_solver|now left].
  - destruct (Hfirst (EvWriteVideo b)) as (H1 & seek & H2); [left; eauto|].
    split; [exact H1|]. right. exists (EvWriteVideo b), seek. split; [left; eauto|exact H2].
  - destruct (download_outcome w) as [[]|e] eqn:Ed.
    + destruct (Hfirst (EvDownload videoInput (100 * 1024 * 1024))) as (H1 & seek & H2);
        [now right|].
      unfold bind, emit, lift in *. simpl in *.
      split; [exact H1|]. right. exists (EvDownload videoInput (100 * 1024 * 1024)), seek.
      split; [now right|exact H2].
    + unfold bind, emit, lift. simpl.
      split; [set_solver|]. right. exists (EvDownload videoInput (100 * 1024 * 1024)), 0%Q.
      split; [now right|]. split; [|split].
      * eexists. reflexivity.
      * discriminate.
      * intros H. exfalso. set_solver.
Qed.

(** The executor, for every input: nothing is asked of any collaborator,
    or the calls are those of the local path followed by the cleanup. *)
Lemma executeExtractFrameNode_calls (w : world) (upstream timestamp : option string) :
  let out := executeExtractFrameNode w upstream timestamp in
  snd out = [] \/
  exists v calls,
    upstream = Some v /\ snd out = (calls ++ [EvCleanup])%list /\ EvCleanup ∉ calls /\
    (calls = [] \/
     exists first seek,
       materializes v first /\ calls `prefix_of` full_run first seek /\
       (forall url, fst out = Ok url -> calls = full_run first seek) /\
       (EvExtract seek ∈ calls ->
        exists d, probe_outcome w = Ok d /\
                  seekSeconds (effective_timestamp timestamp) d = Ok seek)).
Proof.
  unfold executeExtractFrameNode. fold (effective_timestamp timestamp).
  destruct upstream as [[|c v]|]; [now left| |now left].
  cbv zeta. set (videoInput := String c v).
  match goal with
  | |- context [match ?x with Some frameUrl => ret frameUrl | None => _ end] =>
      destruct x as [frameUrl|]
  end; [now left|].
  right. unfold finally. cbn [fst snd].
  match goal with
  | |- context [bind ?m _] =>
      match m with
      | (if startsWith "data:" videoInput then _ else _) =>
          pose proof (local_calls w videoInput (effective_timestamp timestamp) m) as H
      end
  end.
  destruct H as [Hnc Hcalls].
  { destruct (startsWith "data:" videoInput).
    - destruct (second_field videoInput) as [[|b0 b]|]; [now left| |now left].
      right. right. left. eauto.
    - destruct (startsWith "http" videoInput); [now repeat right|right; now left]. }
  eexists videoInput, _. split; [reflexivity|]. split; [reflexivity|]. split; [exact Hnc|].
  destruct Hcalls as [Hnil|(first & seek & Hf & Hp & Hok & He)]; [now left|].
  right. exists first, seek. auto.
Qed.


(** X16. The position asked of the frame extraction is the one computed
    from the probed duration, and for a clip of at least a tenth of a second
    it lies inside the clip. *)
Theorem extraction_seek_within_duration
        (w : world) (upstream timestamp : option string) (seek : Q) :
  EvExtract seek ∈ snd (executeExtractFrameNode w upstream timestamp) ->
  exists d,
    probe_outcome w = Ok d /\
    seekSeconds (effective_timestamp timestamp) d = Ok seek /\
    ((1 # 10 <= d)%Q -> (0 <= seek)%Q /\ (seek <= d)%Q).
Proof.
  intros Hin. destruct (executeExtractFrameNode_calls w upstream timestamp)
    as [H|(v & calls & Hu & Hs & Hnc & H)].
  { rewrite H in Hin. now apply elem_of_nil in Hin. }
  rewrite Hs in Hin. apply elem_of_app in Hin as [Hin|Hin];
    [|apply list_elem_of_singleton in Hin; discriminate].
  destruct H as [->|(first & seek' & Hf & Hp & _ & He)]; [now apply elem_of_nil in Hin|].
  assert (Heq : seek = seek').
  { destruct Hp as (rest & Hfull). unfold full_run in Hfull.
    assert (H : EvExtract seek ∈ [first; EvProbe; EvExtract seek'; EvStoreFrame])
      by (rewrite Hfull; apply elem_of_app; now left).
    destruct Hf as [[b ->]| ->]; set_solver. }
  subst seek'. destruct (He Hin) as (d & Hd & Hseek).
  exists d. split; [exact Hd|]. split; [exact Hseek|].
  now apply (seekSeconds_within (effective_timestamp timestamp)).
Qed.

Lemma extraction_seek_within_duration_demo :
  exists d,
    probe_outcome demo_world = Ok d /\
    seekSeconds "50%" d = Ok demo_seek /\
    ((1 # 10 <= d)%Q -> (0 <= demo_seek)%Q /\ (demo_seek <= d)%Q).
Proof.
  apply (extraction_seek_within_duration demo_world (Some demo_video) (Some "50%") demo_seek).
  right. right. left.
Defined.

End FrameCallOrder.

(* --------------------------------------------------------------------- *)
(** ** The bounded downloader: what reaches the destination               *)
(* --------------------------------------------------------------------- *)

Section DownloadBounds.
Import JS Download.
Local Open Scope string_scope.

Lemma after_read_loop_written (msg : string) (maxBytes : Z) (chunks : list chunk) (e : body_end)
      (fin : finish_outcome) :
  0 <= maxBytes ->
  written (snd (with_timer
                  match read_loop msg maxBytes chunks e 0 (set_file Open initial) with
                  | (Ok _, st) => end_and_wait fin st
                  | failed => failed
                  end)) <= maxBytes.
Proof.
  intros Hm.
  pose proof (read_loop_written_bound msg maxBytes chunks e 0 (set_file Open initial) Hm) as H.
  destruct (read_loop msg maxBytes chunks e 0 (set_file Open initial)) as [[[]|m] st];
    simpl in *; [destruct fin; simpl|]; lia.
Qed.

(** X17. Neither downloader ever passes more than [maxBytes] bytes to the
    destination, on any path: the chunk that takes the running count over
    the cap is not written. *)
Theorem download_never_writes_beyond_cap
        (f : fetch_outcome) (fin : finish_outcome) (maxBytes : Z) :
  0 <= maxBytes ->
  written (snd (downloadVideo f fin maxBytes)) <= maxBytes /\
  written (snd (downloadVideo_task f fin maxBytes)) <= maxBytes.
Proof.
  intros Hm. unfold downloadVideo, downloadVideo_task.
  destruct f as [m|r]; [simpl; lia|].
  destruct (ok r); [|simpl; lia]. cbn [negb].
  destruct (body r) as [[chunks e]|].
  - split; [now apply after_read_loop_written|].
    destruct (declared_too_large (content_length r) maxBytes); [simpl; lia|].
    now apply after_read_loop_written.
  - destruct (declared_too_large (content_length r) maxBytes); simpl; lia.
Qed.

Lemma download_never_writes_beyond_cap_instance :
  written (snd (downloadVideo (Responds undeclared_200MiB) Finished cap)) <= cap /\
  written (snd (downloadVideo_task (Responds undeclared_200MiB) Finished cap)) <= cap.
Proof.
  apply (download_never_writes_beyond_cap (Responds undeclared_200MiB) Finished cap).
  discriminate.
Defined.

Lemma after_read_loop_success (msg : string) (maxBytes : Z) (chunks : list chunk) (e : body_end)
      (fin : finish_outcome) :
  let out := with_timer
               match read_loop msg maxBytes chunks e 0 (set_file Open initial) with
               | (Ok _, st) => end_and_wait fin st
               | failed => failed
               end in
  fst out = Ok tt ->
  e = BodyDone /\ fin = Finished /\ within_cap maxBytes 0 chunks = true /\
  snd out = {| file := Ended; transferred := total chunks; written := total chunks;
               cancelled := false; drains := drains (snd out); timer_cleared := true |}.
Proof.
  intros out Hok. subst out.
  destruct (within_cap maxBytes 0 chunks) eqn:Hw.
  - destruct (read_loop_within msg maxBytes chunks e 0 (set_file Open initial) Hw)
      as (st' & E & Hf & Hc & Ht & Hwr).
    rewrite E in *. destruct e as [|m]; [|discriminate Hok].
    destruct fin as [|m]; [|discriminate Hok].
    repeat split. destruct st'; simpl in *. subst. reflexivity.
  - destruct (read_loop_exceeds msg maxBytes chunks e 0 (set_file Open initial) Hw)
      as (st' & E & _).
    rewrite E in Hok. discriminate Hok.
Qed.

(** X18. A download that succeeds has produced the complete file, within
    the cap: the response was OK, its body ended normally after a running
    count that never exceeded the cap, every byte handed out by the reader
    was written, the reader was not cancelled, the destination was closed
    and finished without error, and the timer was cleared. *)
Theorem download_success_is_complete
        (f : fetch_outcome) (fin : finish_outcome) (maxBytes : Z) :
  let complete (out : result unit * state) :=
    exists r chunks,
      f = Responds r /\ ok r = true /\ body r = Some (chunks, BodyDone) /\ fin = Finished /\
      within_cap maxBytes 0 chunks = true /\
      snd out = {| file := Ended; transferred := total chunks; written := total chunks;
                   cancelled := false; drains := drains (snd out); timer_cleared := true |} in
  (fst (downloadVideo f fin maxBytes) = Ok tt -> complete (downloadVideo f fin maxBytes)) /\
  (fst (downloadVideo_task f fin maxBytes) = Ok tt ->
     complete (downloadVideo_task f fin maxBytes) /\
     forall r, f = Responds r -> declared_too_large (content_length r) maxBytes = false).
Proof.
  intros complete. subst complete. unfold downloadVideo, downloadVideo_task.
  destruct f as [m|r]; [split; discriminate|].
  destruct (ok r) eqn:Hok; [|split; discriminate]. cbn [negb].
  destruct (body r) as [[chunks e]|] eqn:Hb.
  - split.
    + intros H. apply after_read_loop_success in H as H'.
      destruct H' as (-> & -> & Hw & Hst). exists r, chunks. auto 10.
    + destruct (declared_too_large (content_length r) maxBytes) eqn:Hd; [discriminate|].
      intros H. apply after_read_loop_success in H as H'.
      destruct H' as (-> & -> & Hw & Hst). split.
      * exists r, chunks. auto 10.
      * intros r' [= <-]. exact Hd.
  - split; [discriminate|].
    destruct (declared_too_large (content_length r) maxBytes); discriminate.
Qed.

Lemma download_success_is_complete_instance :
  transferred (snd (downloadVideo (Responds undeclared_200MiB) Finished (3 * cap))) = 209715200 /\
  written (snd (downloadVideo (Responds undeclared_200MiB) Finished (3 * cap))) = 209715200.
Proof.
  destruct (download_success_is_complete (Responds undeclared_200MiB) Finished (3 * cap))
    as [H _].
  destruct (H eq_refl) as (r & chunks & Hr & _ & Hb & _ & _ & Hst).
  injection Hr as <-. injection Hb as <-. rewrite Hst. split; reflexivity.
Defined.

End DownloadBounds.

(* --------------------------------------------------------------------- *)
(** ** Crop: the region handed to the image library                       *)
(* --------------------------------------------------------------------- *)

Section CropBounds.
Import JS Crop.

Lemma number_or_nonneg (q : option Q) (d : Q) :
  (forall x, q = Some x -> (0 <= x)%Q) -> (0 <= d)%Q -> (0 <= number_or q d)%Q.
Proof.
  intros Hq Hd. unfold number_or. destruct q as [x|]; [|exact Hd].
  destruct (Qeq_bool x 0); [exact Hd|]. now apply Hq.
Qed.

Lemma dimension_or_pos (m : option Z) :
  (forall z, m = Some z -> 0 <= z) -> 1 <= dimension_or m 1024.
Proof.
  intros Hm. unfold dimension_or. destruct m as [z|]; [|lia].
  specialize (Hm z eq_refl). destruct (Z.eqb_spec z 0); lia.
Qed.

(** X19. The region the engine hands to the image library lies inside the
    image and has at least one pixel on each axis, whatever the width and
    height parameters are (zero, negative, above 100 or missing), as long as
    the offsets are not negative; 1024 stands in for a missing or zero
    image dimension. *)
Theorem executeCropImageNode_region_in_bounds (d : crop_data) (mw mh : option Z) :
  (forall x, xPercent d = Some x -> (0 <= x)%Q) ->
  (forall y, yPercent d = Some y -> (0 <= y)%Q) ->
  (forall w, mw = Some w -> 0 <= w) -> (forall h, mh = Some h -> 0 <= h) ->
  let r := executeCropImageNode_region d mw mh in
  0 <= left r /\ 0 <= top r /\ 1 <= cropWidth r /\ 1 <= cropHeight r /\
  left r + cropWidth r <= dimension_or mw 1024 /\
  top r + cropHeight r <= dimension_or mh 1024.
Proof.
  intros Hx Hy Hw Hh r. subst r. rewrite executeCropImageNode_region_defaulted.
  cbn [left top cropWidth cropHeight spec_rect].
  pose proof (dimension_or_pos mw Hw) as HW. pose proof (dimension_or_pos mh Hh) as HH.
  assert (Hx0 : (0 <= number_or (xPercent d) 0)%Q) by (apply number_or_nonneg; [exact Hx|discriminate]).
  assert (Hy0 : (0 <= number_or (yPercent d) 0)%Q) by (apply number_or_nonneg; [exact Hy|discriminate]).
  pose proof (spec_offset_range _ _ HW (percent_scaled_nonneg _ _ Hx0 HW)) as Hl.
  pose proof (spec_offset_range _ _ HH (percent_scaled_nonneg _ _ Hy0 HH)) as Ht.
  pose proof (spec_extent_range (number_or (widthPercent d) 100) _ _ Hl).
  pose proof (spec_extent_range (number_or (heightPercent d) 100) _ _ Ht).
  lia.
Qed.

Lemma executeCropImageNode_region_in_bounds_instance :
  let r := executeCropImageNode_region
             {| xPercent := Some 90%Q; yPercent := None;
                widthPercent := Some 0%Q; heightPercent := Some 250%Q |} None (Some 600) in
  0 <= left r /\ 0 <= top r /\ 1 <= cropWidth r /\ 1 <= cropHeight r /\
  left r + cropWidth r <= 1024 /\ top r + cropHeight r <= 600.
Proof.
  apply (executeCropImageNode_region_in_bounds
           {| xPercent := Some 90%Q; yPercent := None;
              widthPercent := Some 0%Q; heightPercent := Some 250%Q |} None (Some 600)).
  - intros x [= <-]. discriminate.
  - discriminate.
  - discriminate.
  - intros h [= <-]. lia.
Defined.

End CropBounds.

(* --------------------------------------------------------------------- *)
(** ** The extract-frame task: failures become results                    *)
(* --------------------------------------------------------------------- *)

Section FrameTaskRun.
Import JS FrameTask.
Local Open Scope string_scope.



End FrameTaskRun.

(* --------------------------------------------------------------------- *)
(** ** The editor's store: editing keeps the graph valid                  *)
(* --------------------------------------------------------------------- *)

Section StoreGraph.
Import Dag DagQueries Store.

Lemma store_node_ids (ns : list WorkflowNode) : map Dag.id (dag_nodes ns) = map Store.id ns.
Proof. unfold dag_nodes. rewrite map_map. reflexivity. Qed.

(** A graph passes the validator exactly when every edge joins two of its
    nodes and no path leads from a node back to it. *)
Lemma valid_graph_iff (ns : list WorkflowNode) (es : list Edge) :
  valid_graph ns es <->
  (forall e, e ∈ es -> Store.source e ∈ map Store.id ns /\ Store.target e ∈ map Store.id ns) /\
  acyclic (dag_nodes ns) (dag_edges es).
Proof.
  unfold valid_graph. rewrite validateDAG_valid_iff. split; intros [Hnd Hacyc]; (split; [|exact Hacyc]).
  - intros e He.
    assert (H : ~ dangling (dag_nodes ns) (as_edge Store.source Store.target e)).
    { apply Hnd. unfold dag_edges. apply list_elem_of_fmap. eauto. }
    unfold dangling in H. rewrite store_node_ids in H. simpl in H.
    destruct (decide (Store.source e ∈ map Store.id ns));
      destruct (decide (Store.target e ∈ map Store.id ns)); tauto.
  - intros d Hd. unfold dag_edges in Hd. apply list_elem_of_fmap in Hd as (e & -> & He).
    destruct (Hnd e He) as [Hs Ht]. unfold dangling. rewrite store_node_ids. simpl. tauto.
Qed.

(** Dropping edges, and changing the nodes so that the edges left still
    join nodes, keeps a graph valid. *)
Lemma valid_graph_shrink (ns ns' : list WorkflowNode) (es es' : list Edge) :
  valid_graph ns es ->
  (forall e, e ∈ es' -> e ∈ es) ->
  (forall e, e ∈ es' -> Store.source e ∈ map Store.id ns' /\ Store.target e ∈ map Store.id ns') ->
  valid_graph ns' es'.
Proof.
  rewrite !valid_graph_iff. intros [Hnd Hacyc] Hsub Hin. split; [exact Hin|].
  intros v Hv. apply (Hacyc v). eapply tc_impl; [|exact Hv].
  intros a b (_ & _ & Hab). unfold dag_edges in Hab.
  apply list_elem_of_fmap in Hab as (e & Ee & He).
  injection Ee as -> ->.
  destruct (Hnd e (Hsub e He)) as [Hs Ht].
  unfold edge_rel. rewrite store_node_ids. split; [exact Hs|]. split; [exact Ht|].
  unfold dag_edges. apply list_elem_of_fmap. exists e. split; [reflexivity|now apply Hsub].
Qed.

Lemma slice0_elem {A} (stop : Z) (a : list A) (x : A) : x ∈ slice0 stop a -> x ∈ a.
Proof.
  unfold slice0. destruct (stop <? 0); intros H; eapply (subseteq_take _ a); exact H.
Qed.

Lemma slice0_length {A} (stop : Z) (a : list A) :
  (List.length (slice0 stop a) <= List.length a)%nat.
Proof.
  unfold slice0. destruct (stop <? 0); rewrite length_take; lia.
Qed.

Lemma tail_elem {A} (a : list A) (x : A) : x ∈ tail a -> x ∈ a.
Proof. destruct a; simpl; [auto|]. intros H. now right. Qed.

Lemma pushHistory_consistent (s : state) : consistent s -> consistent (pushHistory s).
Proof.
  intros [Hg Hs Hc Hi]. unfold pushHistory.
  set (h := {| h_nodes := nodes s; h_edges := edges s |}).
  set (new := (slice0 (historyIndex s + 1) (history s) ++ [h])%list).
  assert (Hnew : forall x, x ∈ new -> valid_graph (h_nodes x) (h_edges x)).
  { intros x Hx. unfold new in Hx. apply elem_of_app in Hx as [Hx|Hx].
    - apply Hs. eapply slice0_elem. exact Hx.
    - apply list_elem_of_singleton in Hx as ->. exact Hg. }
  assert (Hlen : (1 <= List.length new <= 51)%nat).
  { unfold new. rewrite length_app. simpl.
    pose proof (slice0_length (historyIndex s + 1) (history s)). lia. }
  destruct (50 <? List.length new)%nat eqn:Hcap.
  - apply Nat.ltb_lt in Hcap.
    assert (Ht : List.length (tail new) = 50%nat).
    { destruct new; simpl in *; lia. }
    constructor; simpl.
    + exact Hg.
    + intros x Hx. apply Hnew. now apply tail_elem.
    + lia.
    + lia.
  - apply Nat.ltb_ge in Hcap. constructor; simpl.
    + exact Hg.
    + exact Hnew.
    + lia.
    + lia.
Qed.

(** An action that has pushed the history may put any valid graph on the
    canvas. *)
Lemma set_graph_consistent (s : state) (ns : list WorkflowNode) (es : list Edge)
      (sel : list string) :
  consistent s -> valid_graph ns es ->
  consistent {| nodes := ns; edges := es; selectedNodes := sel;
                history := history s; historyIndex := historyIndex s |}.
Proof. intros [Hg Hs Hc Hi] Hv. constructor; simpl; auto. Qed.

Lemma empty_consistent : consistent empty.
Proof.
  constructor; simpl.
  - reflexivity.
  - intros h Hh. now apply elem_of_nil in Hh.
  - lia.
  - lia.
Qed.

Lemma loadWorkflow_consistent (ns : list WorkflowNode) (es : list Edge) :
  valid_graph ns es -> consistent (loadWorkflow ns es).
Proof.
  intros Hv. constructor; simpl.
  - exact Hv.
  - intros h Hh. apply list_elem_of_singleton in Hh as ->. exact Hv.
  - lia.
  - lia.
Qed.

Section WithAddEdge.
Variable addEdge : Connection -> list Edge -> list Edge.

Lemma apply_consistent (a : action) (s : state) :
  consistent s -> exists s', apply addEdge a s = Some s' /\ consistent s'.
Proof.
  intros Hs. destruct a as [connection|uuid type|nodeId|edgeId| | |]; simpl.
  - unfold onConnect.
    destruct (List.find _ (nodes s)) as [sourceNode|]; [|eauto].
    destruct (List.find _ (nodes s)) as [targetNode|]; [|eauto].
    destruct (negb _); [eauto|].
    destruct (validateDAG_total (dag_nodes (nodes s)) (dag_edges (addEdge connection (edges s))))
      as ([|error] & Ev); rewrite Ev; [|eauto].
    eexists. split; [reflexivity|].
    apply (set_graph_consistent (pushHistory s)); [now apply pushHistory_consistent|exact Ev].
  - eexists. split; [reflexivity|]. unfold addNode.
    apply (set_graph_consistent (pushHistory s)); [now apply pushHistory_consistent|].
    simpl. destruct Hs as [Hg _ _ _].
    eapply valid_graph_shrink; [exact Hg|auto|].
    intros e He. apply valid_graph_iff in Hg as [Hnd _]. destruct (Hnd e He) as [H1 H2].
    rewrite map_app. split; apply elem_of_app; now left.
  - eexists. split; [reflexivity|]. unfold deleteNode.
    apply (set_graph_consistent (pushHistory s)); [now apply pushHistory_consistent|].
    simpl. destruct Hs as [Hg _ _ _].
    eapply valid_graph_shrink; [exact Hg| |].
    + intros e He. apply list_elem_of_In in He. apply filter_In in He as [He _].
      now apply list_elem_of_In.
    + intros e He. apply list_elem_of_In in He. apply filter_In in He as [He Hne].
      apply list_elem_of_In in He.
      apply andb_true_iff in Hne as [H1 H2].
      apply negb_true_iff, String.eqb_neq in H1. apply negb_true_iff, String.eqb_neq in H2.
      apply valid_graph_iff in Hg as [Hnd _]. destruct (Hnd e He) as [Hs Ht].
      assert (Hkeep : forall x, x ∈ map Store.id (nodes s) -> x <> nodeId ->
                x ∈ map Store.id (List.filter (fun node => negb (String.eqb (Store.id node) nodeId))
                                              (nodes s))).
      { intros x Hx Hxn. apply list_elem_of_fmap in Hx as (n & -> & Hn).
        apply list_elem_of_fmap. exists n. split; [reflexivity|].
        apply list_elem_of_In, filter_In. split; [now apply list_elem_of_In|].
        apply negb_true_iff, String.eqb_neq. exact Hxn. }
      split; apply Hkeep; assumption.
  - eexists. split; [reflexivity|]. unfold deleteEdge.
    apply (set_graph_consistent (pushHistory s)); [now apply pushHistory_consistent|].
    simpl. destruct Hs as [Hg _ _ _].
    assert (Hsub : forall e, e ∈ List.filter (fun edge => negb (String.eqb (edge_id edge) edgeId))
                                              (edges s) -> e ∈ edges s).
    { intros e He. apply list_elem_of_In in He. apply filter_In in He as [He _].
      now apply list_elem_of_In. }
    eapply valid_graph_shrink; [exact Hg|exact Hsub|].
    intros e He. apply valid_graph_iff in Hg as [Hnd _]. apply Hnd. now apply Hsub.
  - eexists. split; [reflexivity|]. now apply pushHistory_consistent.
  - unfold undo. destruct (0 <? historyIndex s) eqn:Hi; [|eauto].
    apply Z.ltb_lt in Hi. destruct Hs as [Hg Hsn Hc Hidx].
    unfold at_index. destruct (historyIndex s - 1 <? 0) eqn:Hneg; [apply Z.ltb_lt in Hneg; lia|].
    destruct (history s !! Z.to_nat (historyIndex s - 1)) as [prevState|] eqn:El.
    2:{ apply lookup_ge_None in El. lia. }
    eexists. split; [reflexivity|]. constructor; simpl.
    + apply Hsn. eapply list_elem_of_lookup_2. exact El.
    + exact Hsn.
    + exact Hc.
    + lia.
  - unfold redo. destruct (historyIndex s <? Z.of_nat (List.length (history s)) - 1) eqn:Hi; [|eauto].
    apply Z.ltb_lt in Hi. destruct Hs as [Hg Hsn Hc Hidx].
    unfold at_index. destruct (historyIndex s + 1 <? 0) eqn:Hneg; [apply Z.ltb_lt in Hneg; lia|].
    destruct (history s !! Z.to_nat (historyIndex s + 1)) as [nextState|] eqn:El.
    2:{ apply lookup_ge_None in El. lia. }
    eexists. split; [reflexivity|]. constructor; simpl.
    + apply Hsn. eapply list_elem_of_lookup_2. exact El.
    + exact Hsn.
    + exact Hc.
    + lia.
Qed.

(** X21. Editing keeps the graph valid. From a store whose graph and
    history snapshots pass [validateDAG] (the empty store, or a valid
    workflow that was loaded), every session of [onConnect], [addNode],
    [deleteNode], [deleteEdge], [pushHistory], [undo] and [redo] runs
    without an exception, whatever the canvas library's [addEdge] hands
    back, and ends in such a store again: the graph on the canvas has no
    cycle and no edge to a missing node, the same holds of every snapshot
    that undo or redo can bring back, the history holds at most 50
    snapshots and the history index points into it. *)
Theorem editing_keeps_graph_valid (actions : list action) (s : state) :
  consistent s ->
  exists s', run addEdge actions s = Some s' /\ consistent s'.
Proof.
  revert s. induction actions as [|a actions IH]; intros s Hs; simpl.
  - eauto.
  - destruct (apply_consistent a s Hs) as (s1 & -> & Hs1). now apply IH.
Qed.

End WithAddEdge.

Lemma editing_keeps_graph_valid_demo :
  exists s', run append_edge demo_session empty = Some s' /\ consistent s'.
Proof.
  apply (editing_keeps_graph_valid append_edge demo_session empty).
  constructor; simpl.
  - reflexivity.
  - intros h Hh. now apply elem_of_nil in Hh.
  - lia.
  - lia.
Defined.

End StoreGraph.

(* --------------------------------------------------------------------- *)
(** ** Which node types connect                                           *)
(* --------------------------------------------------------------------- *)

Section Connections.
Import Types.
Local Open Scope string_scope.

Ltac by_type x :=
  destruct (String.eqb_spec x TEXT) as [->|?];
  [|destruct (String.eqb_spec x LLM) as [->|?];
    [|destruct (String.eqb_spec x IMAGE_UPLOAD) as [->|?];
      [|destruct (String.eqb_spec x CROP_IMAGE) as [->|?];
        [|destruct (String.eqb_spec x EXTRACT_FRAME) as [->|?];
          [|destruct (String.eqb_spec x VIDEO_UPLOAD) as [->|?]]]]]].

(** X22. The connections the editor accepts, for all node types, known or
    not: a crop node takes its input from an image upload, a crop, an
    extract-frame or an LLM node; an extract-frame node only from a video
    upload; an LLM node from every node but a video upload (a node of an
    unknown type counts as a producer of text); and nothing connects into a
    text, an image upload, a video upload or an unknown node. In
    particular a video reaches nothing but an extract-frame node. *)
Theorem canConnect_table (sourceType targetType : string) :
  canConnect sourceType targetType = true <->
  (targetType = CROP_IMAGE /\
   (sourceType = IMAGE_UPLOAD \/ sourceType = CROP_IMAGE \/
    sourceType = EXTRACT_FRAME \/ sourceType = LLM)) \/
  (targetType = EXTRACT_FRAME /\ sourceType = VIDEO_UPLOAD) \/
  (targetType = LLM /\ sourceType <> VIDEO_UPLOAD).
Proof.
  unfold canConnect, getNodeOutputTypes, getNodeInputTypes.
  by_type targetType; by_type sourceType; cbn;
    (split; [intros H; try discriminate H|intros H]);
    try (left; split; [reflexivity|]; tauto);
    try (right; left; split; reflexivity);
    try (right; right; split; [reflexivity|]; (discriminate || assumption));
    try reflexivity;
    try (destruct H as [[H1 H2]|[[H1 H2]|[H1 H2]]]; try discriminate H1; try contradiction;
         try (destruct H2 as [H2|[H2|[H2|H2]]]; (discriminate H2 || contradiction));
         try discriminate H2; try (exfalso; apply H2; reflexivity); fail).
Qed.

End Connections.

(* --------------------------------------------------------------------- *)
(** ** The topological order                                              *)
(* --------------------------------------------------------------------- *)

Section KahnQueue.
Import Dag DagSort.

Lemma occurrences_cons (v n : string) (ns : list string) :
  occurrences v (n :: ns) = ((if String.eqb v n then 1 else 0) + occurrences v ns)%nat.
Proof. unfold occurrences. simpl. destruct (String.eqb v n); reflexivity. Qed.

Lemma occurrences_zero (v : string) (ns : list string) :
  occurrences v ns = 0%nat <-> v ∉ ns.
Proof.
  induction ns as [|n ns IH]; [split; [intros _; apply not_elem_of_nil|reflexivity]|].
  rewrite occurrences_cons, not_elem_of_cons.
  destruct (String.eqb_spec v n) as [->|Hne]; [split; [lia|tauto]|].
  simpl. rewrite IH. tauto.
Qed.

Lemma remove_length_lt (u : string) (R : list string) :
  u ∈ R -> (List.length (remove u R) < List.length R)%nat.
Proof.
  unfold remove. induction R as [|x R IH]; intros Hu; [now apply elem_of_nil in Hu|].
  simpl. destruct (String.eqb_spec x u) as [->|Hne]; simpl.
  - pose proof (List.filter_length_le (fun y => negb (String.eqb y u)) R). lia.
  - apply elem_of_cons in Hu as [->|Hu]; [congruence|]. specialize (IH Hu). lia.
Qed.

(** The loop over the neighbors: every count goes down by the number of
    times the id occurs, and the ids whose count reaches zero join the
    queue, once each. *)
Lemma fold_relax_spec (ns : list string) :
  forall (d : gmap string Z) (q : list string),
    (forall v, v ∈ ns -> exists z, d !! v = Some z /\ Z.of_nat (occurrences v ns) <= z) ->
    let r := fold_left relax ns (d, q) in
    (forall v, r.1 !! v = (fun z => z - Z.of_nat (occurrences v ns)) <$> (d !! v)) /\
    exists newly, r.2 = q ++ newly /\ NoDup newly /\
                  forall v, v ∈ newly <-> v ∈ ns /\ r.1 !! v = Some 0.
Proof.
  induction ns as [|n ns IH]; intros d q H.
  - simpl. split.
    + intros v. unfold occurrences. simpl. destruct (d !! v); simpl; [f_equal; lia|reflexivity].
    + exists []. rewrite app_nil_r. split; [reflexivity|]. split; [apply NoDup_nil_2|].
      intros v. rewrite elem_of_nil. tauto.
  - cbn [fold_left].
    pose (d1 := alter (fun x => x - 1) n d).
    pose (q1 := if bool_decide (d1 !! n = Some 0) then q ++ [n] else q).
    change (relax (d, q) n) with (d1, q1). cbv zeta.
    destruct (H n) as (zn & Hzn & Hle); [left|].
    rewrite occurrences_cons, String.eqb_refl in Hle.
    assert (Hd1n : d1 !! n = Some (zn - 1)).
    { unfold d1. rewrite lookup_alter_eq, Hzn. reflexivity. }
    assert (H1 : forall v, v ∈ ns ->
                   exists z, d1 !! v = Some z /\ Z.of_nat (occurrences v ns) <= z).
    { intros v Hv. destruct (decide (v = n)) as [->|Hne].
      - exists (zn - 1). split; [exact Hd1n|lia].
      - destruct (H v) as (z & Hz & Hlez); [now right|].
        rewrite occurrences_cons in Hlez. apply String.eqb_neq in Hne as Hneb.
        rewrite Hneb in Hlez. exists z. split; [|lia].
        unfold d1. now rewrite lookup_alter_ne by congruence. }
    destruct (IH d1 q1 H1) as (Hl & newly & Hq & Hnd & Hel).
    set (r := fold_left relax ns (d1, q1)) in *.
    assert (Hlook : forall v, r.1 !! v =
                      (fun z => z - Z.of_nat (occurrences v (n :: ns))) <$> (d !! v)).
    { intros v. rewrite Hl, occurrences_cons. destruct (String.eqb_spec v n) as [->|Hne].
      - rewrite Hd1n, Hzn. simpl. f_equal. lia.
      - unfold d1. rewrite lookup_alter_ne by congruence.
        destruct (d !! v); simpl; [f_equal; lia|reflexivity]. }
    split; [exact Hlook|].
    unfold q1 in Hq. destruct (bool_decide (d1 !! n = Some 0)) eqn:Hpush.
    + apply bool_decide_eq_true in Hpush. rewrite Hd1n in Hpush. injection Hpush as Hzn1.
      assert (Hocc : occurrences n ns = 0%nat) by lia.
      exists (n :: newly). split; [rewrite Hq, <- app_assoc; reflexivity|]. split.
      * apply NoDup_cons. split; [|exact Hnd].
        intros Hin. apply Hel in Hin as [Hin _]. now apply occurrences_zero in Hocc.
      * intros v. rewrite !elem_of_cons, Hel. split.
        -- intros [->|[Hv H0]]; [|tauto]. split; [now left|].
           rewrite Hl, Hd1n, Hocc. simpl. f_equal. lia.
        -- intros [[->|Hv] H0]; [now left|tauto].
    + apply bool_decide_eq_false in Hpush.
      exists newly. split; [exact Hq|]. split; [exact Hnd|].
      intros v. rewrite elem_of_cons, Hel. split; [tauto|].
      intros [[->|Hv] H0]; [|tauto].
      destruct (decide (n ∈ ns)) as [Hin|Hnin]; [tauto|exfalso].
      apply occurrences_zero in Hnin. rewrite Hl, Hd1n, Hnin in H0. simpl in H0.
      apply Hpush. rewrite Hd1n. injection H0 as H0. f_equal. lia.
Qed.

Variable ids : list string.
Variable edges : list DAGEdge.

Local Abbreviation arrow := (Dag.arrow ids edges).
Local Abbreviation wave_inv := (Dag.wave_inv ids edges).
Local Abbreviation precede := (DagSort.precede ids edges).
Local Abbreviation queue_inv := (DagSort.queue_inv ids edges).

Lemma arrow_ids (u v : string) : arrow u v -> u ∈ ids /\ v ∈ ids.
Proof. intros (e & _ & Hv & <- & <-). now apply valid_edge_true in Hv. Qed.

Variable adjacencyList : gmap string (list string).
Hypothesis adjacency_spec :
  forall u, u ∈ ids -> default [] (adjacencyList !! u) = successors ids edges u.

(** One iteration of the loop keeps its state. *)
Lemma queue_step (R : list string) (d : gmap string Z) (u : string) (q s : list string) :
  queue_inv R d (u :: q) s ->
  let r := fold_left relax (default [] (adjacencyList !! u)) (d, q) in
  u ∈ R /\ queue_inv (remove u R) r.1 r.2 (s ++ [u]).
Proof.
  intros ((HndR & HsubR & Hdeg) & Hndq & Hq & Hnds & Hcover & Hdisj & Hprec).
  assert (Hu : u ∈ R /\ forall w, w ∈ R -> ~ arrow w u) by (apply Hq; left).
  destruct Hu as [HuR Hupred].
  apply NoDup_cons in Hndq as [Huq Hndq].
  rewrite (adjacency_spec u (HsubR u HuR)).
  set (ns := successors ids edges u).
  assert (Hns : forall v, v ∈ ns -> arrow u v).
  { intros v Hv. apply elem_successors in Hv. exact Hv. }
  assert (HnsR : forall v, v ∈ ns -> v ∈ R).
  { intros v Hv. specialize (Hns v Hv). destruct (arrow_ids u v Hns) as [_ Hvi].
    apply Hcover in Hvi as [Hvs|Hvr]; [exfalso|exact Hvr].
    apply list_elem_of_lookup_1 in Hvs as (j & Hj).
    destruct (Hprec j v Hj u Hns) as (i & _ & Hi).
    apply (Hdisj u); [eapply list_elem_of_lookup_2; exact Hi|exact HuR]. }
  assert (Hsplit : forall v, in_degree_from ids R edges v =
             (in_degree_from ids (remove u R) edges v + occurrences v ns)%nat).
  { intros v. unfold ns. rewrite occurrences_successors.
    now apply in_degree_from_remove. }
  intros r. subst r.
  destruct (fold_relax_spec ns d q) as (Hl & newly & Hr2 & Hndn & Heln).
  { intros v Hv. exists (Z.of_nat (in_degree_from ids R edges v)).
    split; [apply Hdeg; now apply HnsR|]. rewrite (Hsplit v). lia. }
  set (r := fold_left relax ns (d, q)) in *.
  assert (Hdeg' : forall v, v ∈ remove u R ->
             r.1 !! v = Some (Z.of_nat (in_degree_from ids (remove u R) edges v))).
  { intros v Hv. apply remove_elem in Hv as [Hv _].
    rewrite Hl, (Hdeg v Hv), (Hsplit v). simpl. f_equal. lia. }
  split; [exact HuR|].
  split; [|split; [|split; [|split; [|split; [|split]]]]].
  - split; [now apply remove_NoDup|]. split; [|exact Hdeg'].
    intros x Hx. apply remove_elem in Hx as [Hx _]. now apply HsubR.
  - rewrite Hr2. apply NoDup_app. split; [exact Hndq|]. split; [|exact Hndn].
    intros x Hxq Hxn. apply Heln in Hxn as [Hxn _].
    assert (Hx : x ∈ R /\ forall w, w ∈ R -> ~ arrow w x) by (apply Hq; now right).
    destruct Hx as [_ Hx]. exact (Hx u HuR (Hns x Hxn)).
  - intros v. rewrite Hr2, elem_of_app. split.
    + intros [Hv|Hv].
      * assert (Hv' : v ∈ R /\ forall w, w ∈ R -> ~ arrow w v) by (apply Hq; now right).
        destruct Hv' as [HvR Hvp]. split.
        -- apply remove_elem. split; [exact HvR|]. intros ->. contradiction.
        -- intros w Hw. apply remove_elem in Hw as [Hw _]. now apply Hvp.
      * apply Heln in Hv as [Hv H0].
        assert (HvR' : v ∈ remove u R).
        { apply remove_elem. split; [now apply HnsR|].
          intros ->. exact (Hupred u HuR (Hns u Hv)). }
        split; [exact HvR'|]. apply in_degree_from_zero.
        rewrite (Hdeg' v HvR') in H0. injection H0 as H0. lia.
    + intros [HvR' Hvp]. apply remove_elem in HvR' as HvR. destruct HvR as [HvR Hne].
      apply in_degree_from_zero in Hvp.
      destruct (Nat.eq_dec (occurrences v ns) 0%nat) as [H0|Hpos].
      * left. assert (Hin : v ∈ u :: q).
        { apply Hq. split; [exact HvR|]. apply in_degree_from_zero. rewrite (Hsplit v). lia. }
        apply elem_of_cons in Hin as [?|?]; [contradiction|assumption].
      * right. apply Heln. split.
        -- destruct (decide (v ∈ ns)) as [?|Hn]; [assumption|].
           apply occurrences_zero in Hn. contradiction.
        -- rewrite (Hdeg' v HvR'), Hvp. reflexivity.
  - apply NoDup_app. split; [exact Hnds|]. split; [|apply NoDup_singleton].
    intros x Hxs Hxu. apply list_elem_of_singleton in Hxu as ->. exact (Hdisj u Hxs HuR).
  - intros x. rewrite elem_of_app, list_elem_of_singleton, remove_elem, Hcover.
    destruct (decide (x = u)) as [->|Hne]; tauto.
  - intros x Hx Hr. apply remove_elem in Hr as [Hr Hne].
    apply elem_of_app in Hx as [Hx|Hx]; [exact (Hdisj x Hx Hr)|].
    now apply list_elem_of_singleton in Hx.
  - intros j v Hj w Hw.
    destruct (decide (j < List.length s)%nat) as [Hlt|Hge].
    + rewrite lookup_app_l in Hj by exact Hlt.
      destruct (Hprec j v Hj w Hw) as (i & Hi & Hwi).
      exists i. split; [exact Hi|]. rewrite lookup_app_l by lia. exact Hwi.
    + rewrite lookup_app_r in Hj by lia.
      destruct (j - List.length s)%nat eqn:Ej; [|now destruct n].
      simpl in Hj. injection Hj as <-.
      destruct (arrow_ids w u Hw) as [Hwi _]. apply Hcover in Hwi as [Hws|HwR].
      * apply list_elem_of_lookup_1 in Hws as (i & Hi).
        exists i. split; [apply lookup_lt_Some in Hi; lia|].
        rewrite lookup_app_l by (eapply lookup_lt_Some; exact Hi). exact Hi.
      * exfalso. exact (Hupred w HwR Hw).
Qed.

(** The loop ends with a list without duplicates in which every id
    stands after its predecessors, and which leaves out only ids with a
    cycle upstream. *)
Lemma drain_spec (fuel : nat) :
  forall (R : list string) (d : gmap string Z) (q s : list string),
    queue_inv R d q s -> (List.length R <= fuel)%nat ->
    exists sorted,
      drain fuel adjacencyList d q s = Some sorted /\
      NoDup sorted /\ precede sorted /\
      (forall x, x ∈ sorted -> x ∈ ids) /\
      (forall x, x ∈ ids -> x ∉ sorted -> exists v, tc arrow v v /\ rtc arrow v x).
Proof.
  assert (Hstop : forall R d s, queue_inv R d [] s ->
            NoDup s /\ precede s /\ (forall x, x ∈ s -> x ∈ ids) /\
            (forall x, x ∈ ids -> x ∉ s -> exists v, tc arrow v v /\ rtc arrow v x)).
  { intros R d s (Hw & _ & Hq & Hnds & Hcover & _ & Hprec).
    split; [exact Hnds|]. split; [exact Hprec|]. split.
    - intros x Hx. apply Hcover. now left.
    - intros x Hx Hns. apply Hcover in Hx as [Hx|Hx]; [contradiction|].
      apply (stuck_gives_upstream_cycle ids edges R d Hw); [|exact Hx].
      destruct (zero_in_degree d R) as [|z l] eqn:Ez; [reflexivity|exfalso].
      assert (Hz : z ∈ zero_in_degree d R) by (rewrite Ez; left).
      apply (zero_in_degree_spec ids edges R d z Hw) in Hz.
      apply Hq in Hz. now apply elem_of_nil in Hz. }
  induction fuel as [|fuel IH]; intros R d q s Hinv Hlen.
  - destruct q as [|u q]; [exists s; split; [reflexivity|eapply Hstop; exact Hinv]|].
    destruct (queue_step R d u q s Hinv) as [Hu _].
    destruct R; [now apply elem_of_nil in Hu|simpl in Hlen; lia].
  - destruct q as [|u q]; [exists s; split; [reflexivity|eapply Hstop; exact Hinv]|].
    destruct (queue_step R d u q s Hinv) as [Hu Hinv'].
    cbn [drain]. apply (IH (remove u R)); [exact Hinv'|].
    pose proof (remove_length_lt u R Hu). lia.
Qed.

End KahnQueue.

Section TopologicalSort.
Import JS Dag DagSort.

Lemma targets_of_snoc (es : list DAGEdge) (e : DAGEdge) (u : string) :
  targets_of (es ++ [e]) u =
  targets_of es u ++ (if String.eqb (source e) u then [target e] else []).
Proof.
  unfold targets_of. rewrite List.filter_app, map_app. simpl.
  destruct (String.eqb (source e) u); reflexivity.
Qed.

Lemma count_into_snoc (es : list DAGEdge) (e : DAGEdge) (v : string) :
  count_into (es ++ [e]) v =
  (count_into es v + (if String.eqb (target e) v then 1 else 0))%nat.
Proof.
  unfold count_into. rewrite List.filter_app, length_app. simpl.
  destruct (String.eqb (target e) v); reflexivity.
Qed.

Lemma count_into_pos (es : list DAGEdge) (v : string) :
  (0 < count_into es v)%nat <-> exists e, e ∈ es /\ target e = v.
Proof.
  unfold count_into. split.
  - intros H. destruct (List.filter _ es) as [|e l] eqn:E; [simpl in H; lia|].
    assert (Hin : In e (List.filter (fun e => String.eqb (target e) v) es))
      by (rewrite E; now left).
    apply filter_In in Hin as [Hin Ht]. apply String.eqb_eq in Ht.
    exists e. split; [now apply list_elem_of_In|exact Ht].
  - intros (e & He & Ht).
    assert (Hin : In e (List.filter (fun e => String.eqb (target e) v) es)).
    { apply filter_In. split; [now apply list_elem_of_In|now apply String.eqb_eq]. }
    destruct (List.filter _ es); [contradiction|simpl; lia].
Qed.

(** What the loop over the edges builds: it throws at an edge whose
    source is not a node; otherwise the adjacency list holds the targets of
    the edges that leave each node, and every node and every target has the
    number of edges into it as its count. *)
Lemma build_spec (nodeIds : list string) (edges : list DAGEdge) :
  ((exists e, e ∈ edges /\ source e ∉ nodeIds) /\
   exists message, fold_left add_edge_unchecked edges (Ok (initialize nodeIds)) = Throw message) \/
  ((forall e, e ∈ edges -> source e ∈ nodeIds) /\
   exists g,
     fold_left add_edge_unchecked edges (Ok (initialize nodeIds)) = Ok g /\
     (forall u, adjacencyList g !! u =
                if has nodeIds u then Some (targets_of edges u) else None) /\
     (forall v, inDegree g !! v =
                if has nodeIds v || (0 <? count_into edges v)%nat
                then Some (Z.of_nat (count_into edges v)) else None) /\
     keys g = fold_left add (map target edges) (set_of nodeIds)).
Proof.
  induction edges as [|e es IH] using rev_ind.
  - right. split; [intros e He; now apply elem_of_nil in He|].
    eexists. split; [reflexivity|]. simpl. split; [|split; [|reflexivity]].
    + intros u. rewrite init_map_lookup, lookup_empty. reflexivity.
    + intros v. rewrite init_map_lookup, lookup_empty, orb_false_r. reflexivity.
  - rewrite fold_left_app. simpl.
    destruct IH as [((e' & He' & Hs') & message & ->)|(Hall & g & -> & Hadj & Hdeg & Hkeys)].
    + left. split; [|eauto]. exists e'. split; [apply elem_of_app; now left|exact Hs'].
    + simpl. rewrite Hadj. destruct (has nodeIds (source e)) eqn:Hs.
      * right. apply has_true in Hs. split.
        { intros x Hx. apply elem_of_app in Hx as [Hx|Hx]; [now apply Hall|].
          apply list_elem_of_singleton in Hx as ->. exact Hs. }
        eexists. split; [reflexivity|]. simpl. split; [|split].
        -- intros u. rewrite targets_of_snoc.
           destruct (String.eqb_spec (source e) u) as [<-|Hne].
           ++ rewrite lookup_insert_eq. apply has_true in Hs. now rewrite Hs.
           ++ rewrite lookup_insert_ne by exact Hne. rewrite Hadj, app_nil_r. reflexivity.
        -- intros v. rewrite count_into_snoc.
           destruct (String.eqb_spec (target e) v) as [<-|Hne].
           ++ rewrite lookup_insert_eq, Hdeg.
              assert (Hpos : (0 <? count_into es (target e) + 1)%nat = true)
                by (apply Nat.ltb_lt; lia).
              rewrite Hpos, orb_true_r.
              destruct (has nodeIds (target e) || (0 <? count_into es (target e))%nat) eqn:Hk;
                simpl; f_equal; [lia|].
              apply orb_false_iff in Hk as [_ Hk]. apply Nat.ltb_ge in Hk. lia.
           ++ rewrite lookup_insert_ne by exact Hne. rewrite Hdeg, Nat.add_0_r. reflexivity.
        -- rewrite map_app, fold_left_app, <- Hkeys. reflexivity.
      * left. apply has_false in Hs. split; [|eauto].
        exists e. split; [apply elem_of_app; right; now left|exact Hs].
Qed.

(** When every edge joins two of the ids, the vocabulary of the scheduler
    and the plain counts agree. *)
Lemma successors_targets_of (K : list string) (edges : list DAGEdge) (u : string) :
  (forall e, e ∈ edges -> valid_edge K e = true) ->
  successors K edges u = targets_of edges u.
Proof.
  intros Hv. unfold successors, targets_of. f_equal. apply List.filter_ext_in.
  intros e He. rewrite (Hv e) by now apply list_elem_of_In. reflexivity.
Qed.

Lemma in_degree_count_into (K : list string) (edges : list DAGEdge) (v : string) :
  (forall e, e ∈ edges -> valid_edge K e = true) ->
  in_degree_from K K edges v = count_into edges v.
Proof.
  intros Hv. unfold in_degree_from, count_into. f_equal. apply List.filter_ext_in.
  intros e He. apply list_elem_of_In in He. pose proof (Hv e He) as H. rewrite H.
  apply valid_edge_true in H as [Hs _]. apply has_true in Hs. rewrite Hs.
  simpl. now rewrite andb_true_r.
Qed.

Lemma arrow_link (K : list string) (edges : list DAGEdge) (u v : string) :
  (forall e, e ∈ edges -> valid_edge K e = true) ->
  arrow K edges u v <-> link edges u v.
Proof.
  intros Hv. unfold arrow, link. split.
  - intros (e & He & _ & Hs & Ht). eauto.
  - intros (e & He & Hs & Ht). exists e. auto.
Qed.

(** The sort, for every input. *)
Lemma topologicalSort_spec (nodes : list DAGNode) (edges : list DAGEdge) :
  ((exists e, e ∈ edges /\ source e ∉ map id nodes) /\
   exists message, topologicalSort nodes edges = Some (Throw message)) \/
  ((forall e, e ∈ edges -> source e ∈ map id nodes) /\
   exists sorted,
     topologicalSort nodes edges = Some (Ok sorted) /\
     NoDup sorted /\
     (forall j v, sorted !! j = Some v ->
        forall u, link edges u v -> exists i, (i < j)%nat /\ sorted !! i = Some u) /\
     (forall x, x ∈ sorted -> x ∈ map id nodes \/ exists e, e ∈ edges /\ target e = x) /\
     (forall x, x ∈ map id nodes \/ (exists e, e ∈ edges /\ target e = x) ->
        x ∉ sorted -> exists v, tc (link edges) v v /\ rtc (link edges) v x)).
Proof.
  unfold topologicalSort.
  destruct (build_spec (map id nodes) edges)
    as [(Hbad & message & ->)|(Hall & g & -> & Hadj & Hdeg & Hkeys)]; [left; eauto|right].
  split; [exact Hall|].
  set (K := keys g).
  destruct (fold_add_spec (map target edges) (set_of (map id nodes)) (set_of_NoDup _))
    as [HndK HelK].
  rewrite <- Hkeys in HndK, HelK. fold K in HndK, HelK.
  assert (HK : forall x, x ∈ K <-> x ∈ map id nodes \/ exists e, e ∈ edges /\ target e = x).
  { intros x. rewrite HelK, set_of_elem. split.
    - intros [H|H]; [now left|right].
      apply list_elem_of_fmap in H as (e & -> & He). eauto.
    - intros [H|(e & He & <-)]; [now left|right].
      apply list_elem_of_fmap. eauto. }
  assert (Hvalid : forall e, e ∈ edges -> valid_edge K e = true).
  { intros e He. apply valid_edge_true. split; apply HK; [left; now apply Hall|right; eauto]. }
  assert (Hadj' : forall u, u ∈ K ->
             default [] (adjacencyList g !! u) = successors K edges u).
  { intros u _. rewrite Hadj, successors_targets_of by exact Hvalid.
    destruct (has (map id nodes) u) eqn:Hu; [reflexivity|]. simpl.
    apply has_false in Hu. unfold targets_of.
    destruct (List.filter _ edges) as [|e l] eqn:E; [reflexivity|exfalso].
    assert (Hin : In e (List.filter (fun e => String.eqb (source e) u) edges))
      by (rewrite E; now left).
    apply filter_In in Hin as [Hin Hs]. apply String.eqb_eq in Hs.
    apply Hu. rewrite <- Hs. apply Hall. now apply list_elem_of_In. }
  assert (Hw : wave_inv K edges K (inDegree g)).
  { split; [exact HndK|]. split; [auto|].
    intros v Hv. rewrite Hdeg, in_degree_count_into by exact Hvalid.
    apply HK in Hv.
    assert (Hk : has (map id nodes) v || (0 <? count_into edges v)%nat = true).
    { destruct Hv as [Hv|Hv].
      - apply has_true in Hv. now rewrite Hv.
      - apply count_into_pos, Nat.ltb_lt in Hv. rewrite Hv. apply orb_true_r. }
    now rewrite Hk. }
  assert (Hinv : queue_inv K edges K (inDegree g) (zero_in_degree (inDegree g) K) []).
  { split; [exact Hw|]. split; [now apply zero_in_degree_NoDup|]. split.
    { intros v. apply (zero_in_degree_spec K edges K (inDegree g) v Hw). }
    split; [apply NoDup_nil_2|]. split; [intros x; rewrite elem_of_nil; tauto|].
    split; [intros x Hx; now apply elem_of_nil in Hx|].
    intros j v Hj. discriminate. }
  destruct (drain_spec K edges (adjacencyList g) Hadj' (List.length K) K (inDegree g)
                       (zero_in_degree (inDegree g) K) [] Hinv (le_n _))
    as (sorted & -> & Hnd & Hprec & Hsub & Hrest).
  exists sorted. split; [reflexivity|]. split; [exact Hnd|]. split; [|split].
  - intros j v Hj u Huv. apply (Hprec j v Hj u). now apply arrow_link.
  - intros x Hx. apply HK. now apply Hsub.
  - intros x Hx Hns. apply HK in Hx. destruct (Hrest x Hx Hns) as (v & Hvv & Hvx).
    exists v. split.
    + eapply tc_impl; [|exact Hvv]. intros a b. now apply arrow_link.
    + eapply rtc_subrel; [|exact Hvx]. intros a b. now apply arrow_link.
Qed.


(** In a list without duplicates in which every id stands after its
    predecessors, no id has a cycle upstream. *)
Lemma listed_no_cycle (R : relation string) (s : list string) (x v : string) :
  NoDup s ->
  (forall j b, s !! j = Some b -> forall a, R a b -> exists i, (i < j)%nat /\ s !! i = Some a) ->
  x ∈ s -> tc R v v -> rtc R v x -> False.
Proof.
  intros Hnd Hp Hx Hvv Hvx.
  assert (Htc : forall a b, tc R a b ->
            forall j, s !! j = Some b -> exists i, (i < j)%nat /\ s !! i = Some a).
  { intros a b Hab. induction Hab as [a b Hab|a w b Haw _ IH]; intros j Hj.
    - exact (Hp j b Hj a Hab).
    - destruct (IH j Hj) as (i & Hi & Hw).
      destruct (Hp i w Hw a Haw) as (k & Hk & Ha). exists k. split; [lia|exact Ha]. }
  apply list_elem_of_lookup_1 in Hx as (j & Hj).
  assert (Hv : exists i, s !! i = Some v).
  { apply rtc_tc in Hvx as [->|Hvx]; [eauto|].
    destruct (Htc v x Hvx j Hj) as (i & _ & Hi). eauto. }
  destruct Hv as (i & Hi).
  destruct (Htc v v Hvv i Hi) as (i' & Hlt & Hi').
  pose proof (NoDup_lookup s i i' v Hnd Hi Hi'). lia.
Qed.

(** X23. On a graph that [validateDAG] accepts, [topologicalSort] returns
    an order of the nodes: every node id occurs in it exactly once, nothing
    else occurs, and the source of every edge stands before its target. *)
Theorem topologicalSort_orders_valid_graph (nodes : list DAGNode) (edges : list DAGEdge) :
  validateDAG nodes edges = Some Valid ->
  exists sorted,
    topologicalSort nodes edges = Some (Ok sorted) /\
    NoDup sorted /\
    (forall x, x ∈ sorted <-> x ∈ map id nodes) /\
    forall e, e ∈ edges -> before sorted (source e) (target e).
Proof.
  intros Hvalid. apply validateDAG_valid_iff in Hvalid as [Hnd Hacyc].
  assert (Hin : forall e, e ∈ edges -> source e ∈ map id nodes /\ target e ∈ map id nodes).
  { intros e He. specialize (Hnd e He). unfold dangling in Hnd.
    destruct (decide (source e ∈ map id nodes));
      destruct (decide (target e ∈ map id nodes)); tauto. }
  assert (Hrel : forall a b, link edges a b -> edge_rel nodes edges a b).
  { intros a b (e & He & <- & <-). destruct (Hin e He) as [Hs Ht].
    split; [exact Hs|]. split; [exact Ht|]. now destruct e. }
  destruct (topologicalSort_spec nodes edges)
    as [((e & He & Hs) & _)|(_ & sorted & Es & Hnds & Hprec & Hsub & Hrest)].
  { exfalso. apply Hs. now apply Hin. }
  exists sorted. split; [exact Es|]. split; [exact Hnds|].
  assert (Hall : forall x, x ∈ sorted <-> x ∈ map id nodes).
  { intros x. split.
    - intros Hx. destruct (Hsub x Hx) as [H|(e & He & <-)]; [exact H|now apply Hin].
    - intros Hx. destruct (decide (x ∈ sorted)) as [H|H]; [exact H|exfalso].
      destruct (Hrest x (or_introl Hx) H) as (v & Hvv & _).
      apply (Hacyc v). eapply tc_impl; [exact Hrel|exact Hvv]. }
  split; [exact Hall|].
  intros e He. destruct (Hin e He) as [_ Ht]. apply Hall in Ht.
  apply list_elem_of_lookup_1 in Ht as (j & Hj).
  destruct (Hprec j (target e) Hj (source e)) as (i & Hi & Hsi); [exists e; auto|].
  exists i, j. auto.
Qed.

Lemma topologicalSort_orders_valid_graph_diamond :
  exists sorted,
    topologicalSort diamond_nodes diamond_edges = Some (Ok sorted) /\
    NoDup sorted /\
    (forall x, x ∈ sorted <-> x ∈ map id diamond_nodes) /\
    forall e, e ∈ diamond_edges -> before sorted (source e) (target e).
Proof.
  apply (topologicalSort_orders_valid_graph diamond_nodes diamond_edges).
  reflexivity.
Defined.

(** X24. [topologicalSort] on any input. It throws exactly when some edge
    leaves an id that is not a node. Otherwise it returns a list without
    duplicates that holds the node ids and the targets of the edges (also
    those that are no nodes) from which one cannot walk back along the
    edges to a cycle, and nothing else: an id on a cycle or downstream of
    one is left out without an error. In the list, the source of an edge
    stands before its target whenever the target is listed. *)
Theorem topologicalSort_any_graph (nodes : list DAGNode) (edges : list DAGEdge) :
  match topologicalSort nodes edges with
  | None => False
  | Some (Throw _) => exists e, e ∈ edges /\ source e ∉ map id nodes
  | Some (Ok sorted) =>
      (forall e, e ∈ edges -> source e ∈ map id nodes) /\
      NoDup sorted /\
      (forall x, x ∈ sorted <->
         (x ∈ map id nodes \/ exists e, e ∈ edges /\ target e = x) /\
         ~ exists v, tc (link edges) v v /\ rtc (link edges) v x) /\
      (forall e, e ∈ edges -> target e ∈ sorted -> before sorted (source e) (target e))
  end.
Proof.
  destruct (topologicalSort_spec nodes edges)
    as [(Hbad & message & ->)|(Hall & sorted & -> & Hnds & Hprec & Hsub & Hrest)];
    [exact Hbad|].
  split; [exact Hall|]. split; [exact Hnds|]. split.
  - intros x. split.
    + intros Hx. split; [now apply Hsub|].
      intros (v & Hvv & Hvx). exact (listed_no_cycle (link edges) sorted x v Hnds Hprec Hx Hvv Hvx).
    + intros [Hx Hno]. destruct (decide (x ∈ sorted)) as [H|H]; [exact H|exfalso].
      apply Hno. now apply Hrest.
  - intros e He Ht. apply list_elem_of_lookup_1 in Ht as (j & Hj).
    destruct (Hprec j (target e) Hj (source e)) as (i & Hi & Hsi); [exists e; auto|].
    exists i, j. auto.
Qed.

End TopologicalSort.
